(** * Centerline (one-line) path extraction of tools/gen.py

    A shallow embedding of the raster morphology, the skeletonizers, the
    two skeleton tracers, the curve polisher and the route planner of
    [src/tools/gen.py], with the properties of the specification proved
    (or refuted) on it.

    Conventions.
    - A 2-D numpy array is a list of rows ([list (list A)]); [shape]
      reads its dimensions off the row list.  Boolean arrays hold [bool],
      [uint8]/[int32] arrays hold [Z].
    - Python [int] is [Z]; list and array positions are [nat] once they
      are known to be in range.
    - Python [float] is an abstract carrier with the operations the code
      uses (class [Arith]); nothing is assumed about them unless a
      theorem says so.  Exact rationals and IEEE binary64 are the two
      carriers of the examples.
    - Code that can raise returns [option] or a sum; loops whose
      termination is not structural take fuel and are proved to finish. *)

From stdpp Require Import base option list numbers strings gmap.
From Stdlib Require Import ZArith Lia QArith Qabs Qround.
From Stdlib Require PrimFloat FloatOps SpecFloat FloatAxioms.

Open Scope nat_scope.

(** ** Arrays as row lists *)

Module Grid.

Abbreviation grid A := (list (list A)) (only parsing).

(** [a.shape] of a 2-D array: row count and the length of the rows. *)
Definition shape {A} (a : grid A) : nat * nat :=
  (length a, match a with [] => 0 | row :: _ => length row end).

(** All rows have the same length: what numpy guarantees by construction. *)
Definition rect {A} (h w : nat) (a : grid A) : Prop :=
  length a = h ∧ Forall (λ row, length row = w) a.

(** [a[r, c]], with [d] where the position does not exist. *)
Definition at2 {A} (d : A) (a : grid A) (r c : nat) : A :=
  default d (a !! r ≫= λ row, row !! c).

(** [a[r, c] = v] (in place in the source; out of range leaves [a] alone). *)
Definition set2 {A} (a : grid A) (r c : nat) (v : A) : grid A :=
  alter (λ row, <[c := v]> row) r a.

(** The array whose cell [(i, j)] is [f i j]. *)
Definition tabulate {A} (h w : nat) (f : nat → nat → A) : grid A :=
  (λ i, (λ j, f i j) <$> seq 0 w) <$> seq 0 h.

(** [range(lo, hi)] *)
Definition range (lo hi : Z) : list Z := seqZ lo (hi - lo).

(** [int(a.sum())] of a boolean array. *)
Definition count_true (a : grid bool) : nat :=
  sum_list ((λ row, length (filter (λ b : bool, b = true) row)) <$> a).

End Grid.
Import Grid.

(** ** Morphology engine *)

(** [np.pad(mask, ((pad, pad), (pad, pad)), mode="constant",
    constant_values=False)] *)
Definition np_pad (pad : nat) (mask : grid bool) : grid bool :=
  let w := (shape mask).2 in
  let blank := replicate (pad + w + pad) false in
  replicate pad blank
    ++ ((λ row, replicate pad false ++ row ++ replicate pad false) <$> mask)
    ++ replicate pad blank.

(** [a[r0:r1, c0:c1]] for [0 <= r0 <= r1] and [0 <= c0 <= c1]. *)
Definition slice2 {A} (r0 r1 c0 c1 : nat) (a : grid A) : grid A :=
  (λ row, take (c1 - c0) (drop c0 row)) <$> take (r1 - r0) (drop r0 a).

(** [out | m], element by element. *)
Definition or_grid (out m : grid bool) : grid bool :=
  zip_with (zip_with orb) out m.

(** [~mask] *)
Definition not_grid (mask : grid bool) : grid bool :=
  (λ row : list bool, negb <$> row) <$> mask.

(** [np.zeros_like(mask, dtype=bool)] *)
Definition zeros_like {A} (mask : grid A) : grid bool :=
  (λ row : list A, (λ _, false) <$> row) <$> mask.

Definition _binary_dilate (mask : grid bool) (radius_px : Z) : grid bool :=
  if (radius_px <=? 0)%Z then mask
  else
    let pad := radius_px in
    let padded := np_pad (Z.to_nat pad) mask in
    let out := zeros_like mask in
    let '(h, w) := shape mask in
    foldl (λ out dr,
             let r0 := (pad + dr)%Z in
             let r1 := (r0 + Z.of_nat h)%Z in
             foldl (λ out dc,
                      let c0 := (pad + dc)%Z in
                      let c1 := (c0 + Z.of_nat w)%Z in
                      or_grid out
                        (slice2 (Z.to_nat r0) (Z.to_nat r1)
                                (Z.to_nat c0) (Z.to_nat c1) padded))
                   out (range (- radius_px) (radius_px + 1)))
          out (range (- radius_px) (radius_px + 1)).

Definition _binary_erode (mask : grid bool) (radius_px : Z) : grid bool :=
  if (radius_px <=? 0)%Z then mask
  else not_grid (_binary_dilate (not_grid mask) radius_px).

Definition _binary_close (mask : grid bool) (radius_px : Z) : grid bool :=
  if (radius_px <=? 0)%Z then mask
  else _binary_erode (_binary_dilate mask radius_px) radius_px.


(** A small mask used to exercise the definitions. *)
Definition demo_mask : grid bool :=
  [[false; false; false; false];
   [false; true;  false; false];
   [false; false; false; true]].

(** *** Cell-wise reading of the morphology loops *)

(** [mask[x, y]] for integer positions, false outside the array. *)
Definition atZ (mask : grid bool) (x y : Z) : bool :=
  bool_decide (0 ≤ x)%Z && bool_decide (0 ≤ y)%Z
    && at2 false mask (Z.to_nat x) (Z.to_nat y).

(** The cell function of a dilation: some offset in the square window hits
    a true cell. *)
Definition dilate_cell (mask : grid bool) (radius_px : Z) (i j : nat) : bool :=
  let offs := range (- radius_px) (radius_px + 1) in
  existsb (λ dr, existsb (λ dc, atZ mask (Z.of_nat i + dr) (Z.of_nat j + dc)) offs) offs.

(** Chebyshev distance between two cells. *)
Definition chebyshev (p q : nat * nat) : Z :=
  Z.max (Z.abs (Z.of_nat p.1 - Z.of_nat q.1)) (Z.abs (Z.of_nat p.2 - Z.of_nat q.2)).


(** ** Skeletonizer: iterative thinning *)

(** Element-wise lifting of numpy operators to arrays. *)
Definition map2d {A B} (f : A → B) (a : grid A) : grid B :=
  (λ row : list A, f <$> row) <$> a.

Definition zip2d {A B C} (f : A → B → C) (a : grid A) (b : grid B) : grid C :=
  zip_with (zip_with f) a b.

(** [np.uint8] arithmetic wraps modulo 256. *)
Definition u8 (z : Z) : Z := (z mod 256)%Z.
Definition add_u8 (a b : grid Z) : grid Z := zip2d (λ x y, u8 (x + y)) a b.
Definition mul_u8 (a b : grid Z) : grid Z := zip2d (λ x y, u8 (x * y)) a b.
Definition eq_c (a : grid Z) (k : Z) : grid bool := map2d (λ x, bool_decide (x = k)) a.
Definition ge_c (a : grid Z) (k : Z) : grid bool := map2d (λ x, bool_decide (k ≤ x)%Z) a.
Definition le_c (a : grid Z) (k : Z) : grid bool := map2d (λ x, bool_decide (x ≤ k)%Z) a.
Definition and_grid (a b : grid bool) : grid bool := zip2d andb a b.

(** [mask.astype(np.uint8)] and [img.astype(bool)] *)
Definition astype_u8 (mask : grid bool) : grid Z := map2d Z.b2z mask.
Definition astype_bool (img : grid Z) : grid bool := map2d (λ x, bool_decide (x ≠ 0%Z)) img.

(** [np.roll(l, shift)] on one axis: position [i] receives the element of
    position [(i - shift) mod n]. *)
Definition roll {A} (shift : Z) (l : list A) : list A :=
  let n := length l in
  if decide (n = 0) then l
  else let k := Z.to_nat (shift mod Z.of_nat n) in
       drop (n - k) l ++ take (n - k) l.

(** [np.roll(a, shift, axis=0)] and [np.roll(a, shift, axis=1)] *)
Definition roll0 {A} (shift : Z) (a : grid A) : grid A := roll shift a.
Definition roll1 {A} (shift : Z) (a : grid A) : grid A := roll shift <$> a.

(** The eight shifted copies [P2 .. P9] of the image. *)
Definition neighbors8 (a : grid Z) : list (grid Z) :=
  let P2 := roll0 (-1) a in
  let P3 := roll1 1 P2 in
  let P4 := roll1 1 a in
  let P5 := roll0 1 P4 in
  let P6 := roll0 1 a in
  let P7 := roll1 (-1) P6 in
  let P8 := roll1 (-1) a in
  let P9 := roll0 (-1) P8 in
  [P2; P3; P4; P5; P6; P7; P8; P9].

(** [clear_borders]: zero the first and last row and column.  Indexing row
    or column [0] of an array without rows or columns raises [IndexError]. *)
Definition clear_borders (a : grid Z) : option (grid Z) :=
  let '(h, w) := shape a in
  if decide (h = 0 ∨ w = 0) then None
  else
    let a := alter (λ row, (λ _, 0%Z) <$> row) 0 a in
    let a := alter (λ row, (λ _, 0%Z) <$> row) (h - 1) a in
    let a := (λ row, <[0 := 0%Z]> row) <$> a in
    Some ((λ row, <[w - 1 := 0%Z]> row) <$> a).

(** [np.any(m)] *)
Definition np_any (m : grid bool) : bool := existsb (existsb id) m.

(** [img[m] = 0] *)
Definition clear_where (img : grid Z) (m : grid bool) : grid Z :=
  zip2d (λ x (b : bool), if b then 0%Z else x) img m.

(** The removal mask [m1] (first sub-iteration) or [m2] (second). *)
Definition removable (second : bool) (img : grid Z) : grid bool :=
  match neighbors8 img with
  | [P2; P3; P4; P5; P6; P7; P8; P9] =>
    let B := add_u8 (add_u8 (add_u8 (add_u8 (add_u8 (add_u8 (add_u8
               P2 P3) P4) P5) P6) P7) P8) P9 in
    let seq8 := [P2; P3; P4; P5; P6; P7; P8; P9; P2] in
    let A :=
      foldl (λ A k, add_u8 A (astype_u8
               (and_grid (eq_c (seq8 !!! k) 0) (eq_c (seq8 !!! (k + 1)) 1))))
            (map2d (λ _, 0%Z) img) (seq 0 8) in
    let base :=
      and_grid (and_grid (and_grid (eq_c img 1) (ge_c B 2)) (le_c B 6)) (eq_c A 1) in
    if second then
      and_grid (and_grid base (eq_c (mul_u8 (mul_u8 P2 P4) P8) 0))
               (eq_c (mul_u8 (mul_u8 P2 P6) P8) 0)
    else
      and_grid (and_grid base (eq_c (mul_u8 (mul_u8 P2 P4) P6) 0))
               (eq_c (mul_u8 (mul_u8 P4 P6) P8) 0)
  | _ => []
  end.

(** Loop state of [_zhang_suen_thin]. *)
Record thin_state := ThinState {
  thin_img : grid Z;
  thin_changed : bool;
  thin_it : Z;
}.

(** One pass of the [while] body: both sub-iterations. *)
Definition thin_body (st : thin_state) : option thin_state :=
  let img := thin_img st in
  let changed := false in
  let it := (thin_it st + 1)%Z in
  let m1 := removable false img in
  let '(img, changed) :=
    if np_any m1 then (clear_where img m1, true) else (img, changed) in
  img ← clear_borders img;
  let m2 := removable true img in
  let '(img, changed) :=
    if np_any m2 then (clear_where img m2, true) else (img, changed) in
  img ← clear_borders img;
  Some (ThinState img changed it).

(** [while changed and it < max_iter]: every pass raises [it] by one, so
    [max_iter] passes of fuel are enough (lemma [thin_while_spec]). *)
Fixpoint thin_while (fuel : nat) (max_iter : Z) (st : thin_state)
    : option thin_state :=
  if thin_changed st && bool_decide (thin_it st < max_iter)%Z then
    match fuel with
    | O => None
    | S fuel =>
      st ← thin_body st;
      thin_while fuel max_iter st
    end
  else Some st.

(** The final loop state; [thin_it] is the iteration count the source logs. *)
Definition zhang_suen_run (mask : grid bool) (max_iter : Z) : option thin_state :=
  img ← clear_borders (astype_u8 mask);
  thin_while (Z.to_nat max_iter) max_iter (ThinState img true 0).

Definition _zhang_suen_thin (mask : grid bool) (max_iter : Z) : option (grid bool) :=
  st ← zhang_suen_run mask max_iter;
  Some (astype_bool (thin_img st)).

(** Number of foreground (non-zero) cells of an image. *)
Definition fg_count (img : grid Z) : nat :=
  sum_list ((λ row, length (filter (λ x, x ≠ 0%Z) row)) <$> img).

(** ** Skeletonizer: ridge of the chamfer distance *)

(** [np.full((h, w), v)] *)
Definition np_full {A} (h w : nat) (v : A) : grid A := replicate h (replicate w v).

Definition _distance_transform_chamfer (mask : grid bool) : grid Z :=
  let '(h, w) := shape mask in
  let inf := (10 ^ 9)%Z in
  let dist := np_full h w inf in
  let dist := zip2d (λ d (m : bool), if negb m then 0%Z else d) dist mask in
  let w_ortho := 3%Z in
  let w_diag := 4%Z in
  let dist :=
    foldl (λ dist r,
      foldl (λ dist c,
        if negb (at2 false mask r c) then dist
        else
          let d := at2 0%Z dist r c in
          let d :=
            if decide (0 < r) then
              let d := Z.min d (at2 0%Z dist (r - 1) c + w_ortho) in
              let d := if decide (0 < c)
                       then Z.min d (at2 0%Z dist (r - 1) (c - 1) + w_diag) else d in
              if decide (c + 1 < w)
              then Z.min d (at2 0%Z dist (r - 1) (c + 1) + w_diag) else d
            else d in
          let d := if decide (0 < c)
                   then Z.min d (at2 0%Z dist r (c - 1) + w_ortho) else d in
          set2 dist r c d)
        dist (seq 0 w))
      dist (seq 0 h) in
  foldl (λ dist r,
    foldl (λ dist c,
      if negb (at2 false mask r c) then dist
      else
        let d := at2 0%Z dist r c in
        let d :=
          if decide (r + 1 < h) then
            let d := Z.min d (at2 0%Z dist (r + 1) c + w_ortho) in
            let d := if decide (0 < c)
                     then Z.min d (at2 0%Z dist (r + 1) (c - 1) + w_diag) else d in
            if decide (c + 1 < w)
            then Z.min d (at2 0%Z dist (r + 1) (c + 1) + w_diag) else d
          else d in
        let d := if decide (c + 1 < w)
                 then Z.min d (at2 0%Z dist r (c + 1) + w_ortho) else d in
        set2 dist r c d)
      dist (reverse (seq 0 w)))
    dist (reverse (seq 0 h)).

(** [local.max()] of a non-empty window. *)
Definition np_max (local : grid Z) : Z :=
  match concat local with
  | [] => 0%Z
  | x :: xs => foldl Z.max x xs
  end.

Definition _ridge_skeleton_from_dist (mask : grid bool) (dist : grid Z) : grid bool :=
  let skel := zeros_like mask in
  let '(h, w) := shape mask in
  foldl (λ skel r,
    foldl (λ skel c,
      if negb (at2 false mask r c) then skel
      else
        let d := at2 0%Z dist r c in
        if decide (d = 0%Z) then skel
        else
          let local := slice2 (r - 1) (r + 2) (c - 1) (c + 2) dist in
          if decide (np_max local ≤ d)%Z then set2 skel r c true else skel)
      skel (Z.to_nat <$> range 1 (Z.of_nat w - 1)))
    skel (Z.to_nat <$> range 1 (Z.of_nat h - 1)).

(** Test masks: two isolated pixels, and a 3 x 6 bar. *)
Definition two_dots : grid bool :=
  tabulate 8 8 (λ i j, bool_decide ((i, j) = (2, 2) ∨ (i, j) = (5, 5))).
Definition bar_mask : grid bool :=
  tabulate 8 8 (λ i j, bool_decide (2 ≤ i ≤ 4 ∧ 1 ≤ j ≤ 6)).

(** [cleared a' a]: [a'] has the shape of [a] and every cell of [a'] is
    either zero or the cell of [a]. *)
Definition cleared (a' a : grid Z) : Prop :=
  Forall2 (Forall2 (λ v' v : Z, v' = 0%Z ∨ v' = v)) a' a.

(** Only cells off the one-pixel border of an [h] x [w] image are set. *)
Definition interior (h w : nat) (img : grid Z) : Prop :=
  ∀ i j, at2 0%Z img i j ≠ 0%Z → 0 < i ∧ i + 1 < h ∧ 0 < j ∧ j + 1 < w.

(** The skeleton step of the pipeline: [skeleton_method == "ridge"] takes
    the ridge of the chamfer distance, thinned afterwards when
    [thin_max_iter > 0]; any other method name is plain thinning. *)
Definition skeletonize (skeleton_method : string) (mask : grid bool)
    (thin_max_iter : Z) : option (grid bool) :=
  if String.eqb skeleton_method "ridge" then
    let dist := _distance_transform_chamfer mask in
    let skel := _ridge_skeleton_from_dist mask dist in
    if (0 <? thin_max_iter)%Z then _zhang_suen_thin skel thin_max_iter
    else Some skel
  else _zhang_suen_thin mask thin_max_iter.

(** A filled 3 x 3 square. *)
Definition blob3 : grid bool :=
  tabulate 8 8 (λ i j, bool_decide (2 ≤ i ≤ 4 ∧ 2 ≤ j ≤ 4)).

(** ** Floating-point values

    Python [float] values are kept abstract: [Arith num] lists the
    operations the code applies to them.  Two of them raise in Python and
    are partial here: a division raises [ZeroDivisionError] when the
    divisor compares equal to zero ([py_div]), and [math.ceil] raises
    [ValueError] on NaN and [OverflowError] on an infinity ([f_ceil]
    answers [None]).  The other operations never raise on floats.  No law
    is assumed here: a theorem that needs one says so. *)

Class Arith (num : Type) := {
  f_add : num → num → num;
  f_sub : num → num → num;
  f_mul : num → num → num;
  f_div : num → num → num;         (* a / b where b != 0 *)
  f_neg : num → num;
  f_ltb : num → num → bool;        (* a < b *)
  f_leb : num → num → bool;        (* a <= b *)
  f_eqb : num → num → bool;        (* a == b *)
  f_hypot : num → num → num;       (* math.hypot(a, b) *)
  f_ceil : num → option Z;         (* int(math.ceil(a)) *)
  f_of_Z : Z → num;                (* an [int] used as a float *)
  f_of_Q : Q → num;                (* a float literal *)
}.

Declare Scope pyfloat_scope.
Delimit Scope pyfloat_scope with F.
Infix "+" := f_add : pyfloat_scope.
Infix "-" := f_sub : pyfloat_scope.
Infix "*" := f_mul : pyfloat_scope.
Infix "/" := f_div : pyfloat_scope.
Notation "- x" := (f_neg x) : pyfloat_scope.
Infix "<?" := f_ltb : pyfloat_scope.
Infix "<=?" := f_leb : pyfloat_scope.
Infix "=?" := f_eqb : pyfloat_scope.
(** [a > b] is decided as [b < a]. *)
Notation "a >? b" := (f_ltb b a) (at level 70) : pyfloat_scope.

(** The order laws of floats that are not NaN.  [-1.0 <= 0] is the one
    fact about literals that a proof below uses. *)
Class ArithOrder (num : Type) `{Arith num} : Prop := {
  f_leb_trans x y z : f_leb x y = true → f_leb y z = true → f_leb x z = true;
  f_not_gt_le x y : f_ltb y x = false → f_leb x y = true;
  f_lt_le x y : f_ltb x y = true → f_leb x y = true;
  f_neg_one_le_zero : f_leb (f_of_Q (-1)) (f_of_Z 0) = true;
}.

(** The comparisons of IEEE floats, NaN included: every comparison with
    NaN is false, so [x] is a number exactly when [x <= x], and [<=] is
    total on numbers only. *)
Definition f_number {num : Type} `{Arith num} (x : num) : Prop :=
  f_leb x x = true.

Class FloatOrder (num : Type) `{Arith num} : Prop := {
  fo_leb_trans x y z : f_leb x y = true → f_leb y z = true → f_leb x z = true;
  fo_leb_number x y : f_leb x y = true → f_number x ∧ f_number y;
  fo_not_gt_le x y :
    f_number x → f_number y → f_ltb y x = false → f_leb x y = true;
  fo_lt_le x y : f_ltb x y = true → f_leb x y = true;
  fo_neg_one_le_zero : f_leb (f_of_Q (-1)) (f_of_Z 0) = true;
}.

(** A [for] loop whose body may raise: the first exception ends it. *)
Fixpoint foldlM {A B} (f : A → B → option A) (a : A) (l : list B) : option A :=
  match l with
  | [] => Some a
  | x :: l => a ← f a x; foldlM f a l
  end.

(** Python indexing [l[i]]: a negative [i] counts from the end. *)
Definition py_index {A} (l : list A) (i : Z) : option A :=
  let n := Z.of_nat (length l) in
  if bool_decide (0 ≤ i < n)%Z then l !! Z.to_nat i
  else if bool_decide (- n ≤ i < 0)%Z then l !! Z.to_nat (n + i)
  else None.

Section geometry.
Context {num : Type} `{Arith num}.

Definition point : Type := num * num.

Record Stroke := mkStroke { pts : list point }.

#[export] Instance point_inhabited : Inhabited point :=
  populate (f_of_Z 0, f_of_Z 0).

(** Builtin [max(a, b)] and [min(a, b)]: the first argument wins ties. *)
Definition py_max2 (a b : num) : num := if (b >? a)%F then b else a.
Definition py_min2 (a b : num) : num := if (b <? a)%F then b else a.

(** Builtin [min(xs)] and [max(xs)]; [ValueError] on an empty list. *)
Definition py_min (xs : list num) : option num :=
  match xs with
  | [] => None
  | x :: xs => Some (foldl py_min2 x xs)
  end.
Definition py_max (xs : list num) : option num :=
  match xs with
  | [] => None
  | x :: xs => Some (foldl py_max2 x xs)
  end.

Definition _dist (a b : point) : num :=
  f_hypot (a.1 - b.1)%F (a.2 - b.2)%F.

(** [a / b] on floats: [None] is the [ZeroDivisionError] of a divisor that
    equals zero ([0.0] or [-0.0]). *)
Definition py_div (a b : num) : option num :=
  if (b =? f_of_Z 0)%F then None else Some (a / b)%F.

End geometry.

Arguments point num : clear implicits.
Arguments Stroke num : clear implicits.

(** ** Path tracer *)

Definition pixel : Type := Z * Z.

(** The set 8-neighbours of cell [(r, c)] inside the array, in the order
    of the tracers' [nbrs]. *)
Definition nbrs (skel : grid bool) (r c : Z) : list (Z * Z) :=
  let '(H, W) := shape skel in
  foldl (λ out dr,
    foldl (λ out dc,
      if bool_decide (dr = 0 ∧ dc = 0)%Z then out
      else
        let '(rr, cc) := ((r + dr)%Z, (c + dc)%Z) in
        if bool_decide (0 ≤ rr < Z.of_nat H)%Z && bool_decide (0 ≤ cc < Z.of_nat W)%Z
           && at2 false skel (Z.to_nat rr) (Z.to_nat cc)
        then out ++ [(rr, cc)] else out)
      out [-1; 0; 1]%Z)
    [] [-1; 0; 1]%Z.

(** The [(row, col)] pairs of [np.where(m)]: the set cells in row-major
    order. *)
Definition np_where (m : grid bool) : list pixel :=
  concat (imap (λ r row,
            concat (imap (λ c (b : bool),
                      if b then [(Z.of_nat r, Z.of_nat c)] else []) row)) m).

(** [a[p]] and [a[p] = v] for a pixel [p] of the array. *)
Definition at_px {A} (d : A) (a : grid A) (p : pixel) : A :=
  at2 d a (Z.to_nat p.1) (Z.to_nat p.2).
Definition set_px {A} (a : grid A) (p : pixel) (v : A) : grid A :=
  set2 a (Z.to_nat p.1) (Z.to_nat p.2) v.

Definition _skeleton_degrees (skel : grid bool) : grid Z :=
  let a := astype_u8 skel in
  let deg := map2d (λ _, 0%Z) a in
  let deg :=
    foldl (λ deg dr,
      foldl (λ deg dc,
        if bool_decide (dr = 0 ∧ dc = 0)%Z then deg
        else add_u8 deg (roll1 dc (roll0 dr a)))
      deg [-1; 0; 1]%Z)
    deg [-1; 0; 1]%Z in
  zip2d (λ d (s : bool), if negb s then 0%Z else d) deg skel.

(** *** Segment policy *)

(** State of the [while True] loop of [walk]. *)
Record walk_state := WalkState {
  w_path : list pixel;
  w_visited : grid bool;
  w_prev : option pixel;
  w_cur : pixel;
}.

(** One round of [walk]: [inl] continues, [inr] is [break] with the path
    and the [visited] array as they stand. *)
Definition walk_step (skel : grid bool) (deg : grid Z) (start : pixel)
    (st : walk_state) : walk_state + (list pixel * grid bool) :=
  let '(WalkState path visited prev cur) := st in
  let n := nbrs skel cur.1 cur.2 in
  if bool_decide (prev ≠ None) && bool_decide (at_px 0%Z deg cur ≠ 2%Z)
  then inr (path, visited)
  else
    let is_prev cand := bool_decide (prev = Some cand) in
    let nxt := List.find (λ cand, negb (is_prev cand)
                                  && negb (at_px false visited cand)) n in
    let nxt := match nxt with
               | Some c => Some c
               | None => List.find (λ cand, negb (is_prev cand)) n
               end in
    match nxt with
    | None => inr (path, visited)
    | Some nxt =>
      if at_px false visited nxt then
        inr (if bool_decide (nxt = start) then path ++ [nxt] else path, visited)
      else
        inl (WalkState (path ++ [nxt]) (set_px visited nxt true) (Some cur) nxt)
    end.

Fixpoint walk_loop (fuel : nat) (skel : grid bool) (deg : grid Z)
    (start : pixel) (st : walk_state) : option (list pixel * grid bool) :=
  match fuel with
  | O => None
  | S fuel =>
    match walk_step skel deg start st with
    | inl st => walk_loop fuel skel deg start st
    | inr r => Some r
    end
  end.

(** Cells of [visited] that are still false. *)
Definition unvisited (visited : grid bool) : nat :=
  sum_list ((λ row, length (filter (λ b : bool, b = false) row)) <$> visited).

(** [walk(start)]: every round that continues marks a fresh cell, so the
    count of unmarked cells bounds the rounds (lemma [walk_total]). *)
Definition walk (skel : grid bool) (deg : grid Z) (visited : grid bool)
    (start : pixel) : option (list pixel * grid bool) :=
  let visited := set_px visited start true in
  walk_loop (S (unvisited visited)) skel deg start
            (WalkState [start] visited None start).

(** [for p in seeds: if visited[p]: continue; q = walk(p); ...] *)
Definition walk_from (skel : grid bool) (deg : grid Z)
    (acc : option (list (list pixel) * grid bool)) (p : pixel)
    : option (list (list pixel) * grid bool) :=
  '(pix_strokes, visited) ← acc;
  if at_px false visited p then Some (pix_strokes, visited)
  else
    '(q, visited) ← walk skel deg visited p;
    Some (if bool_decide (2 ≤ length q) then pix_strokes ++ [q] else pix_strokes,
          visited).

(** The pixel walks [pix_strokes] of [_trace_skeleton_to_strokes]. *)
Definition trace_walks (skel : grid bool) : option (list (list pixel)) :=
  let deg := _skeleton_degrees skel in
  let visited := zeros_like skel in
  let endpoints := np_where (and_grid skel (eq_c deg 1)) in
  '(pix_strokes, visited) ←
    foldl (walk_from skel deg) (Some ([], visited)) endpoints;
  let remaining := np_where (and_grid skel (not_grid visited)) in
  '(pix_strokes, visited) ←
    foldl (walk_from skel deg) (Some (pix_strokes, visited)) remaining;
  Some pix_strokes.

(** *** Single-walk policy *)

Definition edge : Type := Z * Z * Z * Z.

(** Tuple comparison [a <= b]. *)
Definition pixel_leb (a b : pixel) : bool :=
  if bool_decide (a.1 = b.1) then bool_decide (a.2 ≤ b.2)%Z
  else bool_decide (a.1 < b.1)%Z.

Definition edge_key (a b : pixel) : edge :=
  if pixel_leb a b then (a.1, a.2, b.1, b.2) else (b.1, b.2, a.1, a.2).

(** The dict [adj], in insertion order.  [adj[a]] is only read at keys. *)
Definition adj_get (adj : list (pixel * list pixel)) (a : pixel) : list pixel :=
  default [] (snd <$> List.find (λ kv, bool_decide (kv.1 = a)) adj).

Definition has_edge (edges : gset edge) (a b : pixel) : bool :=
  bool_decide (edge_key a b ∈ edges).

Definition remaining_nodes (adj : list (pixel * list pixel)) (edges : gset edge)
    : list pixel :=
  fst <$> List.filter (λ '(a, ns), existsb (has_edge edges a) ns) adj.

Definition has_remaining_edge (adj : list (pixel * list pixel))
    (edges : gset edge) (a : pixel) : bool :=
  existsb (has_edge edges a) (adj_get adj a).

Definition pick_start (adj : list (pixel * list pixel)) (edges : gset edge)
    : option pixel :=
  let candidates := remaining_nodes adj edges in
  match candidates with
  | [] => None
  | c0 :: _ =>
    let endpoints :=
      List.filter (λ a, bool_decide
                     (length (List.filter (has_edge edges a) (adj_get adj a)) = 1))
                  candidates in
    Some (match endpoints with e :: _ => e | [] => c0 end)
  end.

Definition sq_dist (a c : pixel) : Z :=
  ((a.1 - c.1) ^ 2 + (a.2 - c.2) ^ 2)%Z.

(** [nearest_node(a, candidates)] for [candidates = c0 :: cs]. *)
Definition nearest_node (a c0 : pixel) (cs : list pixel) : pixel :=
  (foldl (λ '(best, best_d) c,
            let d := sq_dist a c in
            if bool_decide (d < best_d)%Z then (c, d) else (best, best_d))
         (c0, sq_dist a c0) cs).1.

(** State of the [while edges] loop. *)
Record sw_state := SwState {
  sw_path : list pixel;
  sw_cur : pixel;
  sw_edges : gset edge;
}.

(** The jump to the nearest node that still has an unused edge. *)
Definition sw_jump (adj : list (pixel * list pixel)) (st : sw_state)
    : sw_state + list pixel :=
  match remaining_nodes adj (sw_edges st) with
  | [] => inr (sw_path st)
  | c0 :: cs =>
    let nxt := nearest_node (sw_cur st) c0 cs in
    inl (SwState (sw_path st ++ [nxt]) nxt (sw_edges st))
  end.

(** One round of [while edges]: [inl] continues, [inr] leaves the loop. *)
Definition sw_step (adj : list (pixel * list pixel)) (st : sw_state)
    : sw_state + list pixel :=
  let '(SwState path cur edges) := st in
  if bool_decide (edges = ∅) then inr path
  else if negb (has_remaining_edge adj edges cur) then sw_jump adj st
  else
    match List.find (has_edge edges cur) (adj_get adj cur) with
    | Some nxt =>
      inl (SwState (path ++ [nxt]) nxt (edges ∖ {[edge_key cur nxt]}))
    | None => sw_jump adj st
    end.

Fixpoint sw_loop (fuel : nat) (adj : list (pixel * list pixel))
    (st : sw_state) : option (list pixel) :=
  match fuel with
  | O => None
  | S fuel =>
    match sw_step adj st with
    | inl st => sw_loop fuel adj st
    | inr path => Some path
    end
  end.

(** "Remove immediate duplicates" *)
Definition dedup_adjacent (path_nodes : list pixel) : list pixel :=
  match path_nodes with
  | [] => []
  | p0 :: rest =>
    foldl (λ dedup p, if bool_decide (Some p ≠ last dedup)
                      then dedup ++ [p] else dedup) [p0] rest
  end.

(** The set [edges]: one key per adjacency of [adj]. *)
Definition build_edges (adj : list (pixel * list pixel)) : gset edge :=
  foldl (λ edges '(a, ns),
           foldl (λ edges b, edges ∪ {[edge_key a b]}) edges ns)
        ∅ adj.

(** From [cur = pick_start()] to the deduplicated path; [Some None] stands
    for [return []].  A jump never consumes an edge but lands on a node that
    has one, so two rounds per edge plus two are enough fuel (lemma
    [sw_loop_total]). *)
Definition walk_edges (adj : list (pixel * list pixel)) (edges : gset edge)
    : option (option (list pixel)) :=
  match pick_start adj edges with
  | None => Some None
  | Some cur =>
    path_nodes ← sw_loop (2 * size edges + 2) adj (SwState [cur] cur edges);
    Some (Some (dedup_adjacent path_nodes))
  end.

(** The deduplicated pixel path of [_trace_skeleton_to_single_stroke]. *)
Definition single_walk_path (skel : grid bool) : option (option (list pixel)) :=
  let nodes := np_where skel in
  if bool_decide (nodes = []) then Some None
  else
    let adj := (λ p : pixel, (p, nbrs skel p.1 p.2)) <$> nodes in
    walk_edges adj (build_edges adj).

Section tracers.
Context {num : Type} `{Arith num}.

(** [to_mm]: pixel centre in millimetres, clamped to the sheet. *)
Definition to_mm (pixel_mm width_mm height_mm : num) (p : pixel) : point num :=
  let x := ((f_of_Z p.2 + f_of_Q 0.5) * pixel_mm)%F in
  let y := ((f_of_Z p.1 + f_of_Q 0.5) * pixel_mm)%F in
  let x := py_max2 (f_of_Q 0) (py_min2 width_mm x) in
  let y := py_max2 (f_of_Q 0) (py_min2 height_mm y) in
  (x, y).

(** Summed length of a polyline, as the tracer accumulates it. *)
Definition polyline_length (pts : list (point num)) : num :=
  foldl (λ length i,
           (length + _dist (pts !!! (Z.to_nat (i - 1))) (pts !!! (Z.to_nat i)))%F)
        (f_of_Q 0) (range 1 (Z.of_nat (length pts))).

Definition _trace_skeleton_to_strokes (skel : grid bool)
    (pixel_mm width_mm height_mm min_stroke_mm : num)
    : option (list (Stroke num)) :=
  pix_strokes ← trace_walks skel;
  Some (foldl (λ out pix,
                 let pts := to_mm pixel_mm width_mm height_mm <$> pix in
                 if (polyline_length pts <? min_stroke_mm)%F then out
                 else out ++ [mkStroke pts])
              [] pix_strokes).

Definition _trace_skeleton_to_single_stroke (skel : grid bool)
    (pixel_mm width_mm height_mm : num) : option (list (Stroke num)) :=
  dedup ← single_walk_path skel;
  Some match dedup with
       | None => []
       | Some dedup => [mkStroke (to_mm pixel_mm width_mm height_mm <$> dedup)]
       end.

(** A pixel walk whose polyline is below the minimum stroke length. *)
Definition too_short (pixel_mm width_mm height_mm min_stroke_mm : num)
    (pix : list pixel) : Prop :=
  (polyline_length (to_mm pixel_mm width_mm height_mm <$> pix)
   <? min_stroke_mm)%F = true.

End tracers.

(** Two arrays with rows of the same lengths. *)
Definition same_shape {A B} (a : grid A) (b : grid B) : Prop :=
  Forall2 (λ (x : list A) (y : list B), length x = length y) a b.

(** What the seed loops of the segment tracer maintain: the walks found so
    far have two pixels or more, and [visited] keeps the shape of [skel]. *)
Definition walks_ok (skel : grid bool) (acc : option (list (list pixel) * grid bool)) : Prop :=
  ∃ pix visited, acc = Some (pix, visited)
                 ∧ same_shape skel visited
                 ∧ Forall (λ q : list pixel, 2 ≤ length q) pix.


(** Progress measure of the [while edges] loop: two per unused edge, plus
    one while the current node has none. *)
Definition sw_measure (adj : list (pixel * list pixel)) (st : sw_state) : nat :=
  2 * size (sw_edges st)
  + (if has_remaining_edge adj (sw_edges st) (sw_cur st) then 0 else 1).

(** No skeleton pixel has a set 8-neighbour. *)
Definition all_isolated (skel : grid bool) : Prop :=
  ∀ p, p ∈ np_where skel → nbrs skel p.1 p.2 = [].

(** ** The one-line pipeline *)

(** The three [RuntimeError]s of [text_to_centerline_strokes_mm], named as
    in the specification. *)
Inductive pipeline_error := EmptyRaster | SkeletonCollapse | NoUsableStrokes.

Section pipeline.
Context {num : Type} `{Arith num}.

(** The optional closing of the mask before skeletonization.  [None] is
    the exception raised while the radius is computed: the
    [ZeroDivisionError] of [close_mm / raster_mm], or the [ValueError] or
    [OverflowError] of [math.ceil] on a quotient that is NaN or
    infinite. *)
Definition close_step (mask : grid bool) (close_mm raster_mm : num)
    : option (grid bool) :=
  if (close_mm >? f_of_Z 0)%F then
    q ← py_div close_mm raster_mm;
    radius_px ← f_ceil q;
    Some (if (0 <? radius_px)%Z then _binary_close mask radius_px else mask)
  else Some mask.

(** The radius of the closing cannot be computed: closing is asked for
    and [raster_mm] equals zero, or the quotient has no ceiling. *)
Definition closing_raises (close_mm raster_mm : num) : Prop :=
  (close_mm >? f_of_Z 0)%F = true
  ∧ ((raster_mm =? f_of_Z 0)%F = true
     ∨ f_ceil (close_mm / raster_mm)%F = None).

(** The tracer chosen by [trace_mode]. *)
Definition trace_step (skel : grid bool) (trace_mode : string)
    (raster_mm width_mm height_mm min_stroke_mm : num)
    : option (list (Stroke num)) :=
  if String.eqb trace_mode "walk"
  then _trace_skeleton_to_single_stroke skel raster_mm width_mm height_mm
  else _trace_skeleton_to_strokes skel raster_mm width_mm height_mm min_stroke_mm.

(** [text_to_centerline_strokes_mm] from the rasterized mask on: [mask] is
    what [_path_to_mask_mm] returned for the text, font and sheet (fonts
    and rendering are matplotlib's).  [inl] is a raised [RuntimeError]; the
    outer [option] is [None] for any other exception or for lack of fuel:
    on a rectangular mask that is the exception of [close_step] and
    nothing else. *)
Definition text_to_centerline_strokes_mm (mask : grid bool)
    (width_mm height_mm raster_mm : num) (thin_max_iter : Z)
    (min_stroke_mm close_mm : num) (skeleton_method trace_mode : string)
    : option (pipeline_error + list (Stroke num)) :=
  if bool_decide (count_true mask = 0) then Some (inl EmptyRaster)
  else
    mask ← close_step mask close_mm raster_mm;
    skel ← skeletonize skeleton_method mask thin_max_iter;
    if bool_decide (count_true skel = 0) then Some (inl SkeletonCollapse)
    else
      strokes_mm ← trace_step skel trace_mode raster_mm width_mm height_mm
                              min_stroke_mm;
      if bool_decide (strokes_mm = []) then Some (inl NoUsableStrokes)
      else Some (inr strokes_mm).

(** The tracer has nothing to return.  Under the segment policy every
    walk (of two pixels or more) is below the minimum stroke length; the
    single-walk policy applies no minimum length and returns nothing only
    when no skeleton pixel has a set 8-neighbour. *)
Definition nothing_to_trace (skel : grid bool) (trace_mode : string)
    (raster_mm width_mm height_mm min_stroke_mm : num) : Prop :=
  if String.eqb trace_mode "walk" then all_isolated skel
  else ∃ walks, trace_walks skel = Some walks
                ∧ Forall (too_short raster_mm width_mm height_mm min_stroke_mm)
                         walks.

End pipeline.

(** ** Curve polisher *)

Section polish.
Context {num : Type} `{Arith num}.

Definition chaikin_smooth (pts : list (point num)) (iters : Z) : list (point num) :=
  if bool_decide (iters ≤ 0)%Z || bool_decide (length pts < 3) then pts
  else
    foldl (λ out _,
      let new_pts := [out !!! 0] in
      let new_pts :=
        foldl (λ new_pts i,
          let '(x0, y0) := out !!! i in
          let '(x1, y1) := out !!! (i + 1) in
          let q := (f_of_Q 0.75 * x0 + f_of_Q 0.25 * x1,
                    f_of_Q 0.75 * y0 + f_of_Q 0.25 * y1)%F in
          let r := (f_of_Q 0.25 * x0 + f_of_Q 0.75 * x1,
                    f_of_Q 0.25 * y0 + f_of_Q 0.75 * y1)%F in
          new_pts ++ [q; r])
        new_pts (seq 0 (length out - 1)) in
      new_pts ++ [default inhabitant (last out)])
    pts (range 0 iters).

(** [None] is the [ZeroDivisionError] of the division: the guard tests
    [dx] and [dy], the divisor is [dx * dx + dy * dy]. *)
Definition _perp_dist (p a b : point num) : option num :=
  let '((x, y), (x1, y1), (x2, y2)) := (p, a, b) in
  let '(dx, dy) := (x2 - x1, y2 - y1)%F in
  if (dx =? f_of_Z 0)%F && (dy =? f_of_Z 0)%F then Some (_dist p a)
  else
    t ← py_div ((x - x1) * dx + (y - y1) * dy)%F (dx * dx + dy * dy)%F;
    let t := if (t <? f_of_Z 0)%F then f_of_Q 0
             else if (t >? f_of_Z 1)%F then f_of_Q 1 else t in
    let proj := (x1 + t * dx, y1 + t * dy)%F in
    Some (_dist p proj).

(** The chord from [a] to [b] has two ends that differ and a squared
    length that equals zero, as happens when the squares underflow:
    [_perp_dist] then divides by zero. *)
Definition degenerate_chord (a b : point num) : Prop :=
  let '(dx, dy) := (b.1 - a.1, b.2 - a.2)%F in
  (dx =? f_of_Z 0)%F && (dy =? f_of_Z 0)%F = false
  ∧ (dx * dx + dy * dy =? f_of_Z 0)%F = true.

(** No chord between two points of [pts] is degenerate. *)
Definition sound_chords (pts : list (point num)) : Prop :=
  ∀ p q, p ∈ pts → q ∈ pts → ¬ degenerate_chord p q.

(** Every deviation that the simplification of [pts] can compute is a
    number. *)
Definition number_deviations (pts : list (point num)) : Prop :=
  ∀ i a b d, a < i < b → b < length pts →
    _perp_dist (pts !!! i) (pts !!! a) (pts !!! b) = Some d → f_number d.

(** Deviation of point [i] from the chord between points [a] and [b]. *)
Definition deviation (pts : list (point num)) (i a b : Z) : option num :=
  _perp_dist (default inhabitant (py_index pts i))
             (default inhabitant (py_index pts a))
             (default inhabitant (py_index pts b)).

(** One round of the scan of [rec]. *)
Definition scan_step (pts : list (point num)) (a b : Z)
    : num * Z → Z → option (num * Z) :=
  λ '(max_d, idx) i,
    d ← deviation pts i a b;
    Some (if (d >? max_d)%F then (d, i) else (max_d, idx)).

(** The scan of [rec]: the largest deviation strictly between [a] and [b]
    and the position where it is reached ([-1] when nothing beat [-1.0]);
    [None] when a deviation raises. *)
Definition rdp_scan (pts : list (point num)) (a b : Z) : option (num * Z) :=
  foldlM (scan_step pts a b) (f_of_Q (-1), (-1)%Z) (range (a + 1) b).

(** The inner function [rec(a, b, keep)]; it marks points in [keep].  The
    recursion descends into strictly shorter index intervals; the fuel
    bounds its depth, so that [None] is the exception of a scan (lemma
    [rdp_rec_returns]). *)
Fixpoint rdp_rec (fuel : nat) (pts : list (point num)) (eps : num)
    (a b : Z) (keep : list bool) : option (list bool) :=
  match fuel with
  | O => None
  | S fuel =>
    '(max_d, idx) ← rdp_scan pts a b;
    if (max_d >? eps)%F && bool_decide (idx ≠ (-1)%Z) then
      let keep := <[Z.to_nat idx := true]> keep in
      keep ← rdp_rec fuel pts eps a idx keep;
      rdp_rec fuel pts eps idx b keep
    else Some keep
  end.

(** The [keep] flags of [rdp_simplify]. *)
Definition rdp_keep (pts : list (point num)) (eps : num) : option (list bool) :=
  let n := length pts in
  let keep := replicate n false in
  let keep := <[n - 1 := true]> (<[0 := true]> keep) in
  rdp_rec n pts eps 0 (Z.of_nat n - 1) keep.

(** [[p for p, k in zip(pts, keep) if k]] *)
Definition select {A} (keep : list bool) (l : list A) : list A :=
  (zip l keep) ≫= λ '(p, k), if k : bool then [p] else [].

Definition rdp_simplify (pts : list (point num)) (eps : num)
    : option (list (point num)) :=
  if (eps <=? f_of_Z 0)%F || bool_decide (length pts < 3) then Some pts
  else
    keep ← rdp_keep pts eps;
    Some (select keep pts).

(** Point [i] was dropped between two kept points [a] and [b] of
    [lo .. hi] with nothing kept in between, and it deviates from their
    chord by at most [eps]. *)
Definition chord_bounded (pts : list (point num)) (eps : num)
    (keep : list bool) (lo hi i : Z) : Prop :=
  ∃ a b : Z, (lo ≤ a < i)%Z ∧ (i < b ≤ hi)%Z
    ∧ keep !! Z.to_nat a = Some true ∧ keep !! Z.to_nat b = Some true
    ∧ (∀ k, (a < k < b)%Z → keep !! Z.to_nat k = Some false)
    ∧ ∃ d, deviation pts i a b = Some d ∧ f_leb d eps = true.

End polish.

(** ** Route planner *)

(** [l.pop(i)]: the element at Python index [i] and the list without it;
    [IndexError] when [i] is out of range. *)
Definition py_pop {A} (l : list A) (i : Z) : option (A * list A) :=
  let n := Z.of_nat (length l) in
  let j := if bool_decide (i < 0)%Z then (n + i)%Z else i in
  if bool_decide (0 ≤ j < n)%Z
  then x ← l !! Z.to_nat j; Some (x, delete (Z.to_nat j) l)
  else None.

(** [l.sort(key=...)] on the precomputed keys: Python's sort is stable and
    compares keys with [<] only; this is the stable insertion sort. *)
Fixpoint insert_by {K A} (lt : K → K → bool) (x : K * A) (l : list (K * A))
    : list (K * A) :=
  match l with
  | [] => [x]
  | y :: l' => if lt y.1 x.1 then y :: insert_by lt x l' else x :: y :: l'
  end.
Definition py_sort_by {K A} (lt : K → K → bool) (l : list (K * A)) : list A :=
  snd <$> foldr (insert_by lt) [] l.

Section route.
Context {num : Type} `{Arith num}.
Implicit Types (st : Stroke num) (strokes : list (Stroke num)).

Definition stroke_bbox_x st : option (num * num) :=
  let xs := fst <$> pts st in
  lo ← py_min xs; hi ← py_max xs; Some (lo, hi).

Definition stroke_bbox_y st : option (num * num) :=
  let ys := snd <$> pts st in
  lo ← py_min ys; hi ← py_max ys; Some (lo, hi).

Definition stroke_endpoints st : option (point num * point num) :=
  a ← py_index (pts st) 0; b ← py_index (pts st) (-1); Some (a, b).

(** Tuples compare lexicographically: the first components that are not
    [==] decide, and equal tuples are not [<]. *)
Definition pair_ltb (a b : num * num) : bool :=
  if (a.1 =? b.1)%F then
    if (a.2 =? b.2)%F then false else (a.2 <? b.2)%F
  else (a.1 <? b.1)%F.

(** The selection state of one [while remaining] round. *)
Record best := Best { best_i : Z; best_rev : bool; best_cost : num }.

(** The [for i, st in enumerate(remaining)] scan, given the two entry
    costs of a stroke. *)
Definition pick_best (costs : list (num * num)) : best :=
  foldl (λ b '(i, (cost_f, cost_r)),
           let b := if (cost_f <? best_cost b)%F
                    then Best (Z.of_nat i) false cost_f else b in
           if (cost_r <? best_cost b)%F
           then Best (Z.of_nat i) true cost_r else b)
        (Best (-1) false (f_of_Q 1e18)) (imap pair costs).

(** The greedy loop shared in shape by both reorderings: [cost cur_pt pt]
    is the cost of entering a stroke at [pt].  One stroke leaves
    [remaining] per round, so [length remaining] rounds of fuel suffice. *)
Fixpoint reorder_loop (cost : point num → point num → num) (fuel : nat)
    (remaining ordered : list (Stroke num)) (cur_pt : point num)
    : option (list (Stroke num)) :=
  match remaining with
  | [] => Some ordered
  | _ =>
    match fuel with
    | O => None
    | S fuel =>
      costs ← mapM (λ st, '(a, b) ← stroke_endpoints st;
                          Some (cost cur_pt a, cost cur_pt b)) remaining;
      let b := pick_best costs in
      '(nxt, remaining) ← py_pop remaining (best_i b);
      let nxt := if best_rev b then mkStroke (reverse (pts nxt)) else nxt in
      cur_pt ← py_index (pts nxt) (-1);
      reorder_loop cost fuel remaining (ordered ++ [nxt]) cur_pt
    end
  end.

Definition reorder_strokes_tlbr strokes (up_penalty left_penalty : num)
    : option (list (Stroke num)) :=
  match strokes with
  | [] => Some strokes
  | _ =>
    keyed ← mapM (λ s, bby ← stroke_bbox_y s; bbx ← stroke_bbox_x s;
                       Some ((- bby.2, bbx.1)%F, s)) strokes;
    let remaining := py_sort_by pair_ltb keyed in
    '(cur, remaining) ← py_pop remaining 0;
    cur_pt ← py_index (pts cur) (-1);
    let cost_to (cur_pt pt : point num) : num :=
      let dx := (cur_pt.1 - pt.1)%F in
      let dy := (cur_pt.2 - pt.2)%F in
      (_dist cur_pt pt + left_penalty * py_max2 (f_of_Q 0) dx
         + up_penalty * py_max2 (f_of_Q 0) dy)%F in
    reorder_loop cost_to (length remaining) remaining [cur] cur_pt
  end.

Definition reorder_strokes_lr strokes (lr_penalty : num)
    : option (list (Stroke num)) :=
  match strokes with
  | [] => Some strokes
  | _ =>
    keyed ← mapM (λ s, bbx ← stroke_bbox_x s; Some (bbx.1, s)) strokes;
    let remaining := py_sort_by f_ltb keyed in
    '(cur, remaining) ← py_pop remaining 0;
    cur_pt ← py_index (pts cur) (-1);
    let cost (cur_pt pt : point num) : num :=
      let cur_x := cur_pt.1 in
      (_dist cur_pt pt + lr_penalty * py_max2 (f_of_Q 0) (cur_x - pt.1))%F in
    reorder_loop cost (length remaining) remaining [cur] cur_pt
  end.

Definition force_left_to_right strokes : option (list (Stroke num)) :=
  match strokes with
  | [] => Some strokes
  | _ =>
    mapM (λ st, '(a, b) ← stroke_endpoints st;
                Some (if (a.1 <=? b.1)%F then st
                      else mkStroke (reverse (pts st)))) strokes
  end.

(** The merge loop of [stitch_strokes]; state [(out, cur)]. *)
Definition stitch_step (stitch_mm : num)
    (acc : option (list (Stroke num) * list (point num))) st
    : option (list (Stroke num) * list (point num)) :=
  '(out, cur) ← acc;
  cur_last ← py_index cur (-1);
  st0 ← py_index (pts st) 0;
  if (_dist cur_last st0 <=? stitch_mm)%F then
    let cur := if (_dist cur_last st0 >? f_of_Q 1e-9)%F
               then cur ++ [st0] else cur in
    Some (out, cur ++ drop 1 (pts st))
  else Some (out ++ [mkStroke cur], pts st).

Definition stitch_strokes strokes (stitch_mm : num) : option (list (Stroke num)) :=
  if (stitch_mm <=? f_of_Z 0)%F || bool_decide (strokes = []) then Some strokes
  else
    st0 ← py_index strokes 0;
    let out := [] in
    let cur := pts st0 in
    '(out, cur) ← foldl (stitch_step stitch_mm) (Some (out, cur)) (drop 1 strokes);
    Some (out ++ [mkStroke cur]).

(** The merge loop of [bridge_strokes]; state [(out, cur)]. *)
Definition bridge_step (bridge_mm : num)
    (acc : option (list (Stroke num) * list (point num))) st
    : option (list (Stroke num) * list (point num)) :=
  '(out, cur) ← acc;
  cur_last ← py_index cur (-1);
  st0 ← py_index (pts st) 0;
  if (_dist cur_last st0 <=? bridge_mm)%F then
    let cur := if (_dist cur_last st0 >? f_of_Q 1e-9)%F
               then cur ++ [st0] else cur in
    Some (out, cur ++ drop 1 (pts st))
  else Some (out ++ [mkStroke cur], pts st).

Definition bridge_strokes strokes (bridge_mm : num) : option (list (Stroke num)) :=
  if (bridge_mm <=? f_of_Z 0)%F || bool_decide (strokes = []) then Some strokes
  else
    st0 ← py_index strokes 0;
    let out := [] in
    let cur := pts st0 in
    '(out, cur) ← foldl (bridge_step bridge_mm) (Some (out, cur)) (drop 1 strokes);
    Some (out ++ [mkStroke cur]).

(** [out] lists the strokes of [strokes], each once, each as it was or
    with its points reversed. *)
Definition same_strokes_up_to_reversal (strokes out : list (Stroke num)) : Prop :=
  ∃ l, strokes ≡ₚ l
       ∧ Forall2 (λ o s, o = s ∨ pts o = reverse (pts s)) out l.

End route.

(** ** A concrete arithmetic: exact rationals

    Used to run the definitions on examples; every result is reduced to
    lowest terms, no operation rounds and nothing is NaN or infinite, so
    that [math.ceil] always returns.  [Q_hypot] is the Euclidean length
    rounded down at the ninth decimal or beyond; it is exact wherever the
    length is rational, as it is for the axis-parallel steps of the
    examples. *)

Definition Q_hypot (x y : Q) : Q :=
  let s := Qred (x * x + y * y) in
  Qred (Z.sqrt (Qnum s * Z.pos (Qden s) * 10 ^ 18) # (Qden s * 10 ^ 9)).

#[export] Instance Q_arith : Arith Q := {
  f_add x y := Qred (x + y);
  f_sub x y := Qred (x - y);
  f_mul x y := Qred (x * y);
  f_div x y := Qred (x / y);
  f_neg x := Qred (- x);
  f_ltb x y := negb (Qle_bool y x);
  f_leb := Qle_bool;
  f_eqb := Qeq_bool;
  f_hypot := Q_hypot;
  f_ceil x := Some (Qceiling x);
  f_of_Z := inject_Z;
  f_of_Q q := Qred q;
}.

(** ** A second concrete arithmetic: IEEE binary64

    Python's [float], with NaN, infinities, overflow and underflow; the
    examples that need those run here.  Conversions from [int] and from
    literals round to nearest.  [hypot] follows [math.hypot] on
    infinities and NaN and scales its arguments so that the squares do
    not overflow; on finite arguments it agrees with [math.hypot] up to
    the rounding of the last place. *)
Module F64.
Import PrimFloat.

Definition of_Z (z : Z) : float :=
  FloatOps.SF2Prim (SpecFloat.binary_normalize FloatOps.prec FloatOps.emax z 0 false).

(** [int(math.ceil(x))]: a finite [x] is [m * 2^e] for integers [m], [e]. *)
Definition ceil (x : float) : option Z :=
  match FloatOps.Prim2SF x with
  | SpecFloat.S754_zero _ => Some 0%Z
  | SpecFloat.S754_finite s m e =>
      let v := if s then Z.neg m else Z.pos m in
      Some (if (0 <=? e)%Z then v * 2 ^ e else - ((- v) / 2 ^ (- e)))%Z
  | _ => None
  end.

Definition nan : float := div (of_Z 0) (of_Z 0).
Definition infinity : float := div (of_Z 1) (of_Z 0).

Definition hypot (x y : float) : float :=
  let ax := abs x in
  let ay := abs y in
  if eqb ax infinity || eqb ay infinity then infinity
  else if negb (eqb ax ax) || negb (eqb ay ay) then nan
  else
    let m := if ltb ax ay then ay else ax in
    if eqb m (of_Z 0) then of_Z 0
    else
      let e := snd (FloatOps.Z.frexp m) in
      let xs := FloatOps.Z.ldexp ax (- e) in
      let ys := FloatOps.Z.ldexp ay (- e) in
      FloatOps.Z.ldexp (sqrt (add (mul xs xs) (mul ys ys))) e.

End F64.

#[export] Instance F64_arith : Arith PrimFloat.float := {
  f_add := PrimFloat.add;
  f_sub := PrimFloat.sub;
  f_mul := PrimFloat.mul;
  f_div := PrimFloat.div;
  f_neg := PrimFloat.opp;
  f_ltb := PrimFloat.ltb;
  f_leb := PrimFloat.leb;
  f_eqb := PrimFloat.eqb;
  f_hypot := F64.hypot;
  f_ceil := F64.ceil;
  f_of_Z := F64.of_Z;
  f_of_Q q := PrimFloat.div (F64.of_Z (Qnum q)) (F64.of_Z (Z.pos (Qden q)));
}.

(** Three points with coordinates so large that their products overflow,
    and three whose chord is so short that its squared length underflows
    to zero. *)
Definition far_corner : list (point PrimFloat.float) :=
  [(f_of_Z 0, f_of_Z 0); (f_of_Z (10 ^ 200), f_of_Z (10 ^ 200));
   (f_of_Z (2 * 10 ^ 200), f_of_Z 0)].
Definition tiny_chord : list (point PrimFloat.float) :=
  [(f_of_Z 0, f_of_Z 0); (f_of_Z 1, f_of_Z 1);
   (f_of_Q (1 # 10 ^ 200), f_of_Z 0)].

(** A shallow bend on binary64. *)
Definition bend : list (point PrimFloat.float) :=
  [(f_of_Z 0, f_of_Z 0); (f_of_Z 1, f_of_Q 0.05); (f_of_Z 2, f_of_Z 0)].

Definition corner : list (point Q) := [(0, 0); (1, 0); (1, 1)]%Q.
Definition ripple : list (point Q) :=
  [(0, 0); (1, 1 # 20); (2, 0); (3, 1 # 20); (4, 0)]%Q.

(** Two strokes whose facing ends are 0.4 apart (scenario C of the
    specification), and three strokes to reorder. *)
Definition gap_strokes : list (Stroke Q) :=
  [mkStroke [(0, 0); (1, 0)]%Q; mkStroke [(14 # 10, 0); (2, 0)]%Q].
Definition three_strokes : list (Stroke Q) :=
  [mkStroke [(5, 0); (6, 0)]%Q; mkStroke [(3, 0); (1, 0)]%Q;
   mkStroke [(0, 0); (0, 1)]%Q].

(** A one-pixel-wide horizontal line of three pixels: thinning leaves it
    as it is. *)
Definition line3 : grid bool :=
  tabulate 8 8 (λ i j, bool_decide (i = 3 ∧ 3 ≤ j ≤ 5)).

(** ** Relations used to state further properties *)

(** Every set cell of [a] is set in [b]. *)
Definition mask_le (a b : grid bool) : Prop :=
  ∀ i j, at2 false a i j = true → at2 false b i j = true.

(** ** The polish stage of [main] *)

Section main_stages.
Context {num : Type} `{Arith num}.

(** One round of the "Smooth + simplify" loop: smoothing when
    [--smooth-chaikin] is positive, then simplification when
    [--rdp-eps-mm] is positive; [None] when the simplification raises. *)
Definition smooth_step (smooth_chaikin : Z) (pts : list (point num))
    : list (point num) :=
  if (0 <? smooth_chaikin)%Z then chaikin_smooth pts smooth_chaikin else pts.

Definition polish_stroke (smooth_chaikin : Z) (rdp_eps_mm : num)
    (st : Stroke num) : option (Stroke num) :=
  let pts := pts st in
  let pts := smooth_step smooth_chaikin pts in
  pts ← (if (rdp_eps_mm >? f_of_Z 0)%F
         then rdp_simplify pts rdp_eps_mm else Some pts);
  Some (mkStroke pts).

Definition polish (smooth_chaikin : Z) (rdp_eps_mm : num)
    (strokes_mm : list (Stroke num)) : option (list (Stroke num)) :=
  mapM (polish_stroke smooth_chaikin rdp_eps_mm) strokes_mm.

(** The "Order + stitch" chain of [main], each step under its flag. *)
Definition route (optimize_lr force_lr optimize_tlbr : bool)
    (lr_penalty tlbr_penalty_up tlbr_penalty_left stitch_mm bridge_mm : num)
    (strokes_mm : list (Stroke num)) : option (list (Stroke num)) :=
  strokes_mm ← (if optimize_lr then reorder_strokes_lr strokes_mm lr_penalty
                else Some strokes_mm);
  strokes_mm ← (if force_lr then force_left_to_right strokes_mm
                else Some strokes_mm);
  strokes_mm ← (if optimize_tlbr
                then reorder_strokes_tlbr strokes_mm tlbr_penalty_up
                                          tlbr_penalty_left
                else Some strokes_mm);
  strokes_mm ← (if (stitch_mm >? f_of_Z 0)%F
                then stitch_strokes strokes_mm stitch_mm else Some strokes_mm);
  if (bridge_mm >? f_of_Z 0)%F
  then bridge_strokes strokes_mm bridge_mm else Some strokes_mm.

End main_stages.

(** ** Relations on pixel walks *)

(** Two distinct pixels that touch by a side or a corner. *)
Definition adjacent8 (p q : pixel) : Prop :=
  p ≠ q ∧ (Z.abs (p.1 - q.1) ≤ 1)%Z ∧ (Z.abs (p.2 - q.2) ≤ 1)%Z.

(** A set cell of the array, at a position that is not negative. *)
Definition on_skeleton (skel : grid bool) (p : pixel) : Prop :=
  (0 ≤ p.1)%Z ∧ (0 ≤ p.2)%Z ∧ at_px false skel p = true.

(** A walk along the skeleton: set pixels, each next to its successor. *)
Definition skeleton_chain (skel : grid bool) (path : list pixel) : Prop :=
  Forall (on_skeleton skel) path
  ∧ ∀ i p q, path !! i = Some p → path !! S i = Some q → adjacent8 p q.

(** A walk and its body: the walk itself, or the walk without the pixel
    appended to close a loop (the start pixel, reached again). *)
Definition walk_body (q body : list pixel) : Prop :=
  q = body ∨ ∃ s, head body = Some s ∧ q = body ++ [s].

(** What the seed loops of the segment tracer maintain, beyond [walks_ok]:
    every recorded walk is a chain of adjacent skeleton pixels, the bodies
    of the walks share no pixel, and every pixel of a body is marked. *)
Definition walks_traced (skel : grid bool)
    (acc : option (list (list pixel) * grid bool)) : Prop :=
  ∃ pix visited bodies,
    acc = Some (pix, visited)
    ∧ same_shape skel visited
    ∧ Forall (skeleton_chain skel) pix
    ∧ Forall2 walk_body pix bodies
    ∧ NoDup (concat bodies)
    ∧ ∀ p, p ∈ concat bodies → at_px false visited p = true.

(** A point inside the sheet [[0, width] x [0, height]]. *)
Definition on_sheet {num : Type} `{Arith num} (width_mm height_mm : num)
    (p : point num) : Prop :=
  f_leb (f_of_Q 0) p.1 = true ∧ f_leb p.1 width_mm = true
  ∧ f_leb (f_of_Q 0) p.2 = true ∧ f_leb p.2 height_mm = true.

(** [a] is immediately followed by [b] somewhere in [path]. *)
Definition steps_through (path : list pixel) (a b : pixel) : Prop :=
  ∃ l1 l2, path = l1 ++ a :: b :: l2.

(** The path runs along the adjacency between [a] and [b], one way or the
    other. *)
Definition draws (path : list pixel) (a b : pixel) : Prop :=
  steps_through path a b ∨ steps_through path b a.

(** No pixel of the image is removable in either sub-iteration. *)
Definition thin_stable (img : grid Z) : Prop :=
  np_any (removable false img) = false ∧ np_any (removable true img) = false.

(** The sum of the eight cells around [(i, j)]: on a 0/1 image, the
    number of set 8-neighbours. *)
Definition neighbour_sum (img : grid Z) (i j : nat) : Z :=
  (at2 0 img (i - 1) (j - 1) + at2 0 img (i - 1) j + at2 0 img (i - 1) (j + 1)
   + at2 0 img i (j - 1) + at2 0 img i (j + 1)
   + at2 0 img (i + 1) (j - 1) + at2 0 img (i + 1) j
   + at2 0 img (i + 1) (j + 1))%Z.

(** Every cell is 0 or 1. *)
Definition binary (img : grid Z) : Prop :=
  ∀ i j, at2 0%Z img i j = 0%Z ∨ at2 0%Z img i j = 1%Z.

(** ** Geometry helpers of the outline mode and of the exporter *)

Section export.
Context {num : Type} `{Arith num}.

Definition _lerp (a b t : num) : num := (a + (b - a) * t)%F.

Definition _quad_bezier (p0 p1 p2 : point num) (t : num) : point num :=
  let u := (f_of_Q 1 - t)%F in
  let x := ((u * u) * p0.1 + f_of_Z 2 * u * t * p1.1 + (t * t) * p2.1)%F in
  let y := ((u * u) * p0.2 + f_of_Z 2 * u * t * p1.2 + (t * t) * p2.2)%F in
  (x, y).

Definition _cubic_bezier (p0 p1 p2 p3 : point num) (t : num) : point num :=
  let u := (f_of_Q 1 - t)%F in
  let x := ((u * u * u) * p0.1 + f_of_Z 3 * (u * u) * t * p1.1
            + f_of_Z 3 * u * (t * t) * p2.1 + (t * t * t) * p3.1)%F in
  let y := ((u * u * u) * p0.2 + f_of_Z 3 * (u * u) * t * p1.2
            + f_of_Z 3 * u * (t * t) * p2.2 + (t * t * t) * p3.2)%F in
  (x, y).

(** [min_n] and [max_n] are [int]s: builtin [max] and [min] on them are
    [Z.max] and [Z.min].  [None] is the exception of the division or of
    [math.ceil]. *)
Definition _approx_segments_count (length_est max_seg_len : num)
    (min_n max_n : Z) : option Z :=
  if (max_seg_len <=? f_of_Z 0)%F then Some max_n
  else
    q ← py_div length_est max_seg_len;
    n ← f_ceil q;
    Some (Z.max min_n (Z.min max_n n)).

(** The points appended between [a] and [b] when they are too far apart:
    [s / steps] divides two [int]s with [1 <= s <= steps]. *)
Definition resample_fill (a b : point num) (steps : Z) (out : list (point num))
    : list (point num) :=
  foldl (λ out s,
           let t := (f_of_Z s / f_of_Z steps)%F in
           out ++ [(_lerp a.1 b.1 t, _lerp a.2 b.2 t)])
        out (range 1 (steps + 1)).

(** One round of the [for i in range(1, len(points))] loop of
    [_resample_polyline], for [b = points[i]]; [out] is never empty.
    [None] is the exception of [d / max_step] or of [math.ceil]. *)
Definition resample_step (max_step : num) (out : list (point num))
    (b : point num) : option (list (point num)) :=
  let a := default inhabitant (last out) in
  let d := _dist a b in
  if (d <=? max_step)%F then Some (out ++ [b])
  else
    q ← py_div d max_step;
    steps ← f_ceil q;
    Some (resample_fill a b steps out).

Definition _resample_polyline (points : list (point num)) (max_step : num)
    : option (list (point num)) :=
  match points with
  | [] => Some []
  | p0 :: rest =>
    if (max_step <=? f_of_Z 0)%F then Some points
    else foldlM (resample_step max_step) [p0] rest
  end.

(** *** Outline mode: a matplotlib [Path] to strokes *)

(** The path codes the loop tells apart; [OtherCode] is any other value
    (the "Unknown path code" branch). *)
Inductive path_code := MOVETO | LINETO | CURVE3 | CURVE4 | CLOSEPOLY | OtherCode.

#[export] Instance path_code_eq_dec : EqDecision path_code.
Proof. solve_decision. Defined.

Record Path := mkPath {
  vertices : list (point num);
  codes : option (list path_code);
}.

(** [flush()]: the stroke in progress is kept when it has two points. *)
Definition flush (strokes : list (Stroke num)) (cur : list (point num))
    : list (Stroke num) :=
  if bool_decide (2 ≤ length cur) then strokes ++ [mkStroke cur] else strokes.

(** Loop state of [path_to_strokes] ([o_last] is the variable [last]). *)
Record outline_state := OutlineState {
  o_strokes : list (Stroke num);
  o_cur : list (point num);
  o_last : point num;
  o_start : point num;
  o_i : nat;
}.

(** The points appended for one curve: [f(s / n)] for [s = 1 .. n]; [s]
    and [n] are [int]s and [n] is 4 at least. *)
Definition curve_points (f : num → point num) (n : Z) : list (point num) :=
  (λ s, f (f_of_Z s / f_of_Z n)%F) <$> range 1 (n + 1).

(** One round of [while i < len(codes)], for [code = codes[i]]: [inl]
    continues, [inr] is [break]; [None] is the [IndexError] of
    [verts[i]] or the exception of [_approx_segments_count]. *)
Definition outline_step (verts : list (point num)) (curve_max_seg_len : num)
    (code : path_code) (st : outline_state)
    : option (outline_state + outline_state) :=
  let '(OutlineState strokes cur last_ start i) := st in
  v ← verts !! i;
  match code with
  | MOVETO => Some (inl (OutlineState (flush strokes cur) [v] v v (i + 1)))
  | LINETO => Some (inl (OutlineState strokes (cur ++ [v]) v start (i + 1)))
  | CURVE3 =>
    if bool_decide (length verts ≤ i + 1) then Some (inr st)
    else
      let ctrl := v in
      end_ ← verts !! (i + 1);
      let length_est := (_dist last_ ctrl + _dist ctrl end_)%F in
      n ← _approx_segments_count length_est curve_max_seg_len 4 200;
      let cur := cur ++ curve_points (_quad_bezier last_ ctrl end_) n in
      Some (inl (OutlineState strokes cur end_ start (i + 2)))
  | CURVE4 =>
    if bool_decide (length verts ≤ i + 2) then Some (inr st)
    else
      let c1 := v in
      c2 ← verts !! (i + 1);
      end_ ← verts !! (i + 2);
      let length_est := (_dist last_ c1 + _dist c1 c2 + _dist c2 end_)%F in
      n ← _approx_segments_count length_est curve_max_seg_len 4 200;
      let cur := cur ++ curve_points (_cubic_bezier last_ c1 c2 end_) n in
      Some (inl (OutlineState strokes cur end_ start (i + 3)))
  | CLOSEPOLY =>
    let cur :=
      match last cur with
      | Some cur_last =>
        if (_dist cur_last start >? f_of_Q 1e-9)%F then cur ++ [start] else cur
      | None => cur
      end in
    Some (inl (OutlineState (flush strokes cur) [] last_ start (i + 1)))
  | OtherCode =>
    Some (inl (OutlineState (flush strokes cur) [] v start (i + 1)))
  end.

(** The [while] loop: [i] grows in every round that continues, so
    [len(codes)] rounds of fuel are enough. *)
Fixpoint outline_loop (fuel : nat) (verts : list (point num))
    (codes : list path_code) (curve_max_seg_len : num) (st : outline_state)
    : option outline_state :=
  match codes !! o_i st with
  | None => Some st
  | Some code =>
    match fuel with
    | O => None
    | S fuel =>
      r ← outline_step verts curve_max_seg_len code st;
      match r with
      | inl st => outline_loop fuel verts codes curve_max_seg_len st
      | inr st => Some st
      end
    end
  end.

Definition path_to_strokes (p : Path) (curve_max_seg_len : num)
    : option (list (Stroke num)) :=
  let verts := vertices p in
  match codes p with
  | None => Some [mkStroke verts]
  | Some codes =>
    let zero := (f_of_Q 0, f_of_Q 0) in
    st ← outline_loop (length codes) verts codes curve_max_seg_len
                      (OutlineState [] [] zero zero 0);
    Some (flush (o_strokes st) (o_cur st))
  end.

(** *** Exporter *)

Record PlotCmd := mkPlotCmd {
  x_mm : num;
  y_mm : num;
  pen_down : Z;
  dwell_ms : Z;
}.

(** The commands written for a resampled stroke; none when fewer than
    two points are left ([continue]). *)
Definition polyline_cmds (pen_settle_ms segment_dwell_ms : Z)
    (pts : list (point num)) : list PlotCmd :=
  if bool_decide (length pts < 2) then []
  else
    let '(sx, sy) := pts !!! 0 in
    let '(ex, ey) := default inhabitant (last pts) in
    [mkPlotCmd sx sy 0 0; mkPlotCmd sx sy 1 pen_settle_ms]
      ++ ((λ '(x, y), mkPlotCmd x y 1 segment_dwell_ms) <$> drop 1 pts)
      ++ [mkPlotCmd ex ey 0 0].

(** One round of the loop over the strokes; [None] when resampling
    raises. *)
Definition stroke_cmds (poly_step_mm : num) (pen_settle_ms segment_dwell_ms : Z)
    (st : Stroke num) : option (list PlotCmd) :=
  pts ← _resample_polyline (pts st) poly_step_mm;
  Some (polyline_cmds pen_settle_ms segment_dwell_ms pts).

Definition to_plot_cmds (strokes_mm : list (Stroke num)) (poly_step_mm : num)
    (pen_settle_ms segment_dwell_ms : Z) : option (list PlotCmd) :=
  foldlM (λ cmds st,
            c ← stroke_cmds poly_step_mm pen_settle_ms segment_dwell_ms st;
            Some (cmds ++ c))
         [] strokes_mm.

End export.

Arguments Path num : clear implicits.
Arguments PlotCmd num : clear implicits.
Arguments outline_state num : clear implicits.

(** Consecutive points are at most [max_step] apart, as [<=] on the
    computed distances sees it. *)
Definition fine_enough {num : Type} `{Arith num} (max_step : num)
    (points : list (point num)) : Prop :=
  ∀ i a b, points !! i = Some a → points !! S i = Some b →
           (_dist a b <=? max_step)%F = true.

(** A distance [d] at which a round of the resampling loop raises: it
    exceeds the step, and the step equals zero or the quotient has no
    ceiling. *)
Definition resample_raises {num : Type} `{Arith num} (max_step d : num)
    : Prop :=
  (d <=? max_step)%F = false
  ∧ ((max_step =? f_of_Z 0)%F = true ∨ f_ceil (d / max_step)%F = None).

(** Where [math.ceil] returns on a quotient [d / max_step] with
    [d > max_step > 0], it returns one at least (as it does on floats). *)
Definition ceil_law {num : Type} `{Arith num} (max_step : num) : Prop :=
  (max_step <=? f_of_Z 0)%F = false →
  ∀ (d : num) (n : Z), (d <=? max_step)%F = false →
                       f_ceil (d / max_step)%F = Some n → (1 ≤ n)%Z.

(** The pen changes state only where the head stands. *)
Definition still_when_pen_changes {num : Type} `{Arith num}
    (c1 c2 : PlotCmd num) : Prop :=
  pen_down c1 = pen_down c2 ∨ (x_mm c1 = x_mm c2 ∧ y_mm c1 = y_mm c2).

(** [R] holds of every two consecutive elements of [l]. *)
Definition linked {A} (R : A → A → Prop) (l : list A) : Prop :=
  ∀ i a b, l !! i = Some a → l !! S i = Some b → R a b.

(** A pen-up command does not dwell; the pen is up ([0]) or down ([1]). *)
Definition pen_ok {num : Type} `{Arith num} (c : PlotCmd num) : Prop :=
  (pen_down c = 0%Z ∧ dwell_ms c = 0%Z) ∨ pen_down c = 1%Z.

(** A well-formed plot program: it starts and ends with the pen up, and
    the pen changes state only where the head stands. *)
Definition pen_discipline {num : Type} `{Arith num} (cmds : list (PlotCmd num))
    : Prop :=
  linked still_when_pen_changes cmds
  ∧ (∀ c, head cmds = Some c → pen_down c = 0%Z)
  ∧ (∀ c, last cmds = Some c → pen_down c = 0%Z)
  ∧ Forall pen_ok cmds.

(** A path code that starts a curve. *)
Definition has_curve (cs : list path_code) : Prop := CURVE3 ∈ cs ∨ CURVE4 ∈ cs.

(** The segment count of some curve cannot be computed at this
    resolution. *)
Definition segment_count_raises {num : Type} `{Arith num}
    (curve_max_seg_len : num) : Prop :=
  ∃ length_est, _approx_segments_count length_est curve_max_seg_len 4 200 = None.

(** A square outline: move, three lines, close. *)
Definition square_path : Path Q :=
  mkPath [(0, 0); (1, 0); (1, 1); (0, 1); (0, 0)]%Q
         (Some [MOVETO; LINETO; LINETO; LINETO; CLOSEPOLY]).

(** The gap between the end of stroke [s] and the start of stroke [t], as
    the stitching test [_dist(cur[-1], st.pts[0]) <= stitch_mm] sees it. *)
Definition gap_within {num : Type} `{Arith num} (stitch_mm : num)
    (s t : Stroke num) : Prop :=
  ∃ a b, last (pts s) = Some a ∧ head (pts t) = Some b
         ∧ (_dist a b <=? stitch_mm)%F = true.
Definition gap_beyond {num : Type} `{Arith num} (stitch_mm : num)
    (s t : Stroke num) : Prop :=
  ∃ a b, last (pts s) = Some a ∧ head (pts t) = Some b
         ∧ (_dist a b <=? stitch_mm)%F = false.

(** ** [main] in one-line mode, from the rasterized mask on *)

(** The command-line options that the one-line branch of [main] reads. *)
Module Args.
Record t {num : Type} := mk {
  width_mm : num;
  height_mm : num;
  raster_mm : num;
  min_stroke_mm : num;
  thin_max_iter : Z;
  close_mm : num;
  skeleton_method : string;
  trace_mode : string;
  smooth_chaikin : Z;
  rdp_eps_mm : num;
  optimize_lr : bool;
  lr_penalty : num;
  force_lr : bool;
  optimize_tlbr : bool;
  tlbr_penalty_up : num;
  tlbr_penalty_left : num;
  stitch_mm : num;
  bridge_mm : num;
  poly_step_mm : num;
  pen_settle_ms : Z;
  segment_dwell_ms : Z;
}.
Arguments t num : clear implicits.
End Args.

(** The [RuntimeError]s of the one-line branch: those of the pipeline, and
    "No plot commands produced." *)
Inductive main_error := PipelineError (e : pipeline_error) | NoPlotCommands.

(** Pipeline, polish, route and export, as [main] chains them.  [inl] is
    a raised [RuntimeError]; [None] is any other exception (those of the
    float arithmetic in the closing, the simplification and the
    resampling). *)
Definition main_one_line {num : Type} `{Arith num} (args : Args.t num)
    (mask : grid bool) : option (main_error + list (PlotCmd num)) :=
  r ← text_to_centerline_strokes_mm mask
         (Args.width_mm args) (Args.height_mm args) (Args.raster_mm args)
         (Args.thin_max_iter args) (Args.min_stroke_mm args)
         (Args.close_mm args) (Args.skeleton_method args)
         (Args.trace_mode args);
  match r with
  | inl e => Some (inl (PipelineError e))
  | inr strokes_mm =>
    strokes_mm ← polish (Args.smooth_chaikin args) (Args.rdp_eps_mm args)
                        strokes_mm;
    strokes_mm ← route (Args.optimize_lr args) (Args.force_lr args)
                       (Args.optimize_tlbr args) (Args.lr_penalty args)
                       (Args.tlbr_penalty_up args) (Args.tlbr_penalty_left args)
                       (Args.stitch_mm args) (Args.bridge_mm args) strokes_mm;
    cmds ← to_plot_cmds strokes_mm (Args.poly_step_mm args)
                        (Args.pen_settle_ms args)
                        (Args.segment_dwell_ms args);
    if bool_decide (cmds = []) then Some (inl NoPlotCommands)
    else Some (inr cmds)
  end.

(** The default options of the command line, on a sheet of 8 x 8 with one
    pixel per unit. *)
Definition demo_args : Args.t Q :=
  Args.mk Q 8%Q 8%Q 1%Q (8 # 10)%Q 300 0%Q "thin" "segments" 2 (12 # 100)%Q
          false 15%Q false false 15%Q 15%Q (1 # 2)%Q 0%Q (7 # 10)%Q 50 0.

(** * Properties *)

(** ** Arrays *)

Section grid_facts.
Context {A : Type}.
Implicit Types (a b : grid A) (d : A).

Lemma rect_lookup h w a i row :
  rect h w a → a !! i = Some row → length row = w.
Proof. intros [_ Hall] Hi. by eapply (proj1 (Forall_lookup _ _) Hall). Qed.

Lemma rect_shape h w a : rect h w a → 0 < h → shape a = (h, w).
Proof.
  intros [Hlen Hall] Hh. unfold shape. destruct a as [|row a]; simpl in *.
  - lia.
  - f_equal; [done|]. by inversion Hall.
Qed.


Lemma rect_tabulate h w (f : nat → nat → A) : rect h w (tabulate h w f).
Proof.
  unfold tabulate. split.
  - by rewrite length_fmap, length_seq.
  - apply Forall_fmap, Forall_forall. intros i _. simpl.
    by rewrite length_fmap, length_seq.
Qed.

Lemma lookup_tabulate h w (f : nat → nat → A) i :
  i < h → tabulate h w f !! i = Some ((λ j, f i j) <$> seq 0 w).
Proof.
  intros Hi. unfold tabulate. by rewrite list_lookup_fmap, lookup_seq_lt.
Qed.

Lemma at2_tabulate d h w (f : nat → nat → A) i j :
  i < h → j < w → at2 d (tabulate h w f) i j = f i j.
Proof.
  intros Hi Hj. unfold at2. rewrite lookup_tabulate by done. simpl.
  by rewrite list_lookup_fmap, lookup_seq_lt.
Qed.

Lemma at2_lookup d a i j row x :
  a !! i = Some row → row !! j = Some x → at2 d a i j = x.
Proof. intros Hi Hj. unfold at2. by rewrite Hi; simpl; rewrite Hj. Qed.

Lemma at2_row d a i j row :
  a !! i = Some row → at2 d a i j = default d (row !! j).
Proof. intros Hi. unfold at2. by rewrite Hi. Qed.

Lemma at2_no_row d a i j : a !! i = None → at2 d a i j = d.
Proof. intros Hi. unfold at2. by rewrite Hi. Qed.

(** Two arrays of one shape with the same cells are the same array. *)
Lemma grid_ext d h w a b :
  rect h w a → rect h w b →
  (∀ i j, i < h → j < w → at2 d a i j = at2 d b i j) → a = b.
Proof.
  intros Ha Hb Heq.
  apply (list_eq_same_length _ _ h); [apply Hb | apply Ha |].
  intros i ra rb Hi Hra Hrb.
  pose proof (rect_lookup _ _ _ _ _ Ha Hra) as Hla.
  pose proof (rect_lookup _ _ _ _ _ Hb Hrb) as Hlb.
  apply (list_eq_same_length _ _ w); [done..|].
  intros j x y Hj Hx Hy.
  specialize (Heq i j Hi Hj).
  by rewrite (at2_lookup d a i j ra x), (at2_lookup d b i j rb y) in Heq.
Qed.

Lemma tabulate_ext h w (f g : nat → nat → A) :
  (∀ i j, i < h → j < w → f i j = g i j) → tabulate h w f = tabulate h w g.
Proof.
  intros Hfg. unfold tabulate. apply list_fmap_ext.
  intros k i Hk. apply lookup_seq in Hk as [-> Hk].
  apply list_fmap_ext. intros k' j Hk'. apply lookup_seq in Hk' as [-> Hk'].
  by apply Hfg.
Qed.


Lemma at2_slice2 d r0 r1 c0 c1 a i j :
  at2 d (slice2 r0 r1 c0 c1 a) i j =
  if decide (i < r1 - r0 ∧ j < c1 - c0) then at2 d a (r0 + i) (c0 + j) else d.
Proof.
  unfold at2, slice2. rewrite list_lookup_fmap, lookup_take, lookup_drop.
  destruct (decide (i < r1 - r0)) as [Hi|Hi].
  - destruct (a !! (r0 + i)) as [row|]; simpl.
    + rewrite lookup_take, lookup_drop.
      destruct (decide (j < c1 - c0)); by repeat case_decide; try lia.
    + by case_decide.
  - simpl. case_decide; [lia | done].
Qed.

Lemma rect_slice2 h w h' w' r0 c0 a :
  rect h' w' a → r0 + h ≤ h' → c0 + w ≤ w' →
  rect h w (slice2 r0 (r0 + h) c0 (c0 + w) a).
Proof.
  intros [Hlen Hall] Hr Hc. unfold slice2. split.
  - rewrite length_fmap, length_take, length_drop. lia.
  - apply Forall_fmap, Forall_forall. intros row Hrow. simpl.
    rewrite length_take, length_drop.
    assert (length row = w') as ->; [|lia].
    apply list_elem_of_lookup in Hrow as [k Hk].
    apply lookup_take_Some in Hk as [Hk _]. rewrite lookup_drop in Hk.
    by eapply (proj1 (Forall_lookup _ _) Hall).
Qed.
End grid_facts.

(** ** Morphology engine *)

Section morphology_facts.
Implicit Types (mask : grid bool) (h w : nat).

Lemma lookup_pad_row pad (row : list bool) b :
  default false ((replicate pad false ++ row ++ replicate pad false) !! b)
  = if decide (pad ≤ b) then default false (row !! (b - pad)) else false.
Proof.
  rewrite lookup_app. destruct (replicate pad false !! b) as [x|] eqn:Hb.
  - apply lookup_replicate in Hb as [-> Hb]. by case_decide; [lia|].
  - apply lookup_ge_None in Hb. rewrite length_replicate in Hb.
    rewrite length_replicate. case_decide; [|lia].
    rewrite lookup_app. destruct (row !! (b - pad)) as [x|] eqn:Hx; [done|].
    simpl. destruct (replicate pad false !! _) as [y|] eqn:Hy; [|done].
    by apply lookup_replicate in Hy as [-> _].
Qed.

Lemma at2_np_pad pad mask a b :
  at2 false (np_pad pad mask) a b =
  if decide (pad ≤ a ∧ pad ≤ b) then at2 false mask (a - pad) (b - pad)
  else false.
Proof.
  unfold np_pad. set (blank := replicate _ false).
  assert (Hblank : ∀ k n, default false
            (replicate n blank !! k ≫= λ row, row !! b) = false).
  { intros k n. destruct (replicate n blank !! k) as [row|] eqn:Hk; [|done].
    apply lookup_replicate in Hk as [-> _]. simpl. unfold blank.
    destruct (replicate _ false !! b) as [x|] eqn:Hx; [|done].
    by apply lookup_replicate in Hx as [-> _]. }
  unfold at2 at 1. rewrite lookup_app.
  destruct (replicate pad blank !! a) as [row|] eqn:Ha.
  - pose proof (Hblank a pad) as Hb. rewrite Ha in Hb. rewrite Hb.
    apply lookup_replicate in Ha as [_ Ha]. case_decide; [lia | done].
  - apply lookup_ge_None in Ha. rewrite length_replicate in Ha.
    rewrite length_replicate, lookup_app, list_lookup_fmap.
    destruct (mask !! (a - pad)) as [row|] eqn:Hrow; simpl.
    + rewrite lookup_pad_row. erewrite at2_row by done.
      by repeat case_decide; try lia.
    + rewrite Hblank. rewrite at2_no_row by done. by case_decide.
Qed.

Lemma rect_np_pad h w pad mask :
  rect h w mask → 0 < h → rect (pad + h + pad) (pad + w + pad) (np_pad pad mask).
Proof.
  intros Hm Hh. unfold np_pad. rewrite (rect_shape _ _ _ Hm Hh). simpl.
  destruct Hm as [Hlen Hall]. split.
  - rewrite !length_app, length_fmap, !length_replicate. lia.
  - repeat apply Forall_app_2.
    + apply Forall_replicate. by rewrite length_replicate.
    + apply Forall_fmap. eapply Forall_impl; [done|]. intros row Hrow. simpl in *.
      rewrite !length_app, !length_replicate. lia.
    + apply Forall_replicate. by rewrite length_replicate.
Qed.

Lemma rect_zeros_like {A} h w (a : grid A) : rect h w a → rect h w (zeros_like a).
Proof.
  intros [Hlen Hall]. split; unfold zeros_like.
  - by rewrite length_fmap.
  - apply Forall_fmap. eapply Forall_impl; [done|]. intros row Hrow. simpl.
    by rewrite length_fmap.
Qed.

Lemma zeros_like_tabulate {A} h w (a : grid A) :
  rect h w a → zeros_like a = tabulate h w (λ _ _, false).
Proof.
  intros Ha. apply (grid_ext false h w);
    [by apply rect_zeros_like | apply rect_tabulate |].
  intros i j Hi Hj. rewrite at2_tabulate by done.
  unfold at2, zeros_like. rewrite list_lookup_fmap.
  destruct (a !! i) as [row|]; [|done]. simpl. rewrite list_lookup_fmap.
  by destruct (row !! j).
Qed.

Lemma rect_not_grid h w mask : rect h w mask → rect h w (not_grid mask).
Proof.
  intros [Hlen Hall]. split; unfold not_grid.
  - by rewrite length_fmap.
  - apply Forall_fmap. eapply Forall_impl; [done|]. intros row Hrow. simpl.
    by rewrite length_fmap.
Qed.

Lemma at2_not_grid h w mask i j :
  rect h w mask → i < h → j < w →
  at2 false (not_grid mask) i j = negb (at2 false mask i j).
Proof.
  intros [Hlen Hall] Hi Hj. unfold at2, not_grid. rewrite list_lookup_fmap.
  destruct (mask !! i) as [row|] eqn:Hrow.
  - simpl. rewrite list_lookup_fmap.
    assert (length row = w) by by eapply (proj1 (Forall_lookup _ _) Hall).
    destruct (row !! j) as [x|] eqn:Hx; [done|].
    apply lookup_ge_None in Hx. lia.
  - apply lookup_ge_None in Hrow. lia.
Qed.

Lemma or_grid_tabulate h w (f g : nat → nat → bool) :
  or_grid (tabulate h w f) (tabulate h w g)
  = tabulate h w (λ i j, f i j || g i j).
Proof.
  apply (grid_ext false h w).
  - pose proof (rect_tabulate h w f) as [Hf1 Hf2].
    pose proof (rect_tabulate h w g) as [Hg1 Hg2].
    unfold or_grid. split.
    + rewrite length_zip_with. lia.
    + apply Forall_lookup. intros i row Hrow.
      rewrite lookup_zip_with in Hrow.
      destruct (tabulate h w f !! i) as [rf|] eqn:Hrf; [|done].
      destruct (tabulate h w g !! i) as [rg|] eqn:Hrg; [|done].
      simpl in Hrow. injection Hrow as <-. rewrite length_zip_with.
      rewrite (proj1 (Forall_lookup _ _) Hf2 _ _ Hrf).
      rewrite (proj1 (Forall_lookup _ _) Hg2 _ _ Hrg). lia.
  - apply rect_tabulate.
  - intros i j Hi Hj. rewrite at2_tabulate by done.
    unfold at2, or_grid. rewrite lookup_zip_with, !lookup_tabulate by done.
    simpl. rewrite lookup_zip_with, !list_lookup_fmap, lookup_seq_lt by done.
    done.
Qed.

(** A loop that ors one array per element into the accumulator. *)
Lemma foldl_or_tabulate {B} h w (G : grid bool → B → grid bool)
    (g : B → nat → nat → bool) (l : list B) (f : nat → nat → bool) :
  (∀ f d, d ∈ l →
     G (tabulate h w f) d = tabulate h w (λ i j, f i j || g d i j)) →
  foldl G (tabulate h w f) l
  = tabulate h w (λ i j, f i j || existsb (λ d, g d i j) l).
Proof.
  revert f. induction l as [|d l IH]; intros f HG; simpl.
  - apply tabulate_ext. intros. by rewrite orb_false_r.
  - rewrite HG by left. rewrite IH.
    + apply tabulate_ext. intros. by rewrite orb_assoc.
    + intros f' d' Hd'. apply HG. by right.
Qed.
End morphology_facts.

Section dilate_facts.
Implicit Types (mask : grid bool) (h w : nat) (r : Z).

Lemma at2_true_in_rect h w mask i j :
  rect h w mask → at2 false mask i j = true → i < h ∧ j < w.
Proof.
  intros [Hlen Hall] Hij. unfold at2 in Hij.
  destruct (mask !! i) as [row|] eqn:Hrow; [|done]. simpl in Hij.
  destruct (row !! j) as [x|] eqn:Hx; [|done].
  apply lookup_lt_Some in Hx.
  rewrite (proj1 (Forall_lookup _ _) Hall _ _ Hrow) in Hx.
  apply lookup_lt_Some in Hrow. lia.
Qed.

(** The window of the padded array at offset [(dr, dc)] is the mask
    shifted by that offset, false where the shift leaves the array. *)
Lemma slice2_np_pad h w mask r dr dc :
  rect h w mask → 0 < h → (- r ≤ dr ≤ r)%Z → (- r ≤ dc ≤ r)%Z →
  slice2 (Z.to_nat (r + dr)) (Z.to_nat (r + dr + Z.of_nat h))
         (Z.to_nat (r + dc)) (Z.to_nat (r + dc + Z.of_nat w))
         (np_pad (Z.to_nat r) mask)
  = tabulate h w (λ i j, atZ mask (Z.of_nat i + dr) (Z.of_nat j + dc)).
Proof.
  intros Hm Hh Hdr Hdc.
  replace (Z.to_nat (r + dr + Z.of_nat h)) with (Z.to_nat (r + dr) + h) by lia.
  replace (Z.to_nat (r + dc + Z.of_nat w)) with (Z.to_nat (r + dc) + w) by lia.
  apply (grid_ext false h w).
  - eapply rect_slice2; [by apply rect_np_pad | lia..].
  - apply rect_tabulate.
  - intros i j Hi Hj. rewrite at2_tabulate, at2_slice2, at2_np_pad by done.
    unfold atZ. repeat case_decide; repeat case_bool_decide; simpl;
      try lia; try done.
    f_equal; lia.
Qed.

Lemma foldl_or_nil {B C} (F : B → C → grid bool) (l : list B) (l' : list C) :
  foldl (λ out dr, foldl (λ out dc, or_grid out (F dr dc)) out l') [] l = [].
Proof.
  induction l as [|d l IH]; simpl; [done|].
  assert (foldl (λ out dc, or_grid out (F d dc)) [] l' = []) as ->; [|done].
  clear. induction l' as [|c l' IH]; simpl; done.
Qed.

(** Closed form of the dilation loop. *)
Lemma dilate_tabulate h w mask r :
  rect h w mask → (0 < r)%Z →
  _binary_dilate mask r = tabulate h w (dilate_cell mask r).
Proof.
  intros Hm Hr. unfold _binary_dilate.
  destruct (Z.leb_spec r 0) as [|_]; [lia|].
  destruct (decide (h = 0)) as [->|Hh].
  { destruct Hm as [Hlen _]. apply length_zero_iff_nil in Hlen as ->.
    simpl. by rewrite foldl_or_nil. }
  rewrite (rect_shape h w mask), (zeros_like_tabulate h w) by (done || lia).
  rewrite (foldl_or_tabulate h w _
    (λ dr i j, existsb (λ dc, atZ mask (Z.of_nat i + dr) (Z.of_nat j + dc))
                       (range (- r) (r + 1)))).
  { by apply tabulate_ext. }
  intros f dr Hdr. apply elem_of_seqZ in Hdr.
  rewrite (foldl_or_tabulate h w _
    (λ dc i j, atZ mask (Z.of_nat i + dr) (Z.of_nat j + dc))); [done|].
  intros f' dc Hdc. apply elem_of_seqZ in Hdc.
  rewrite (slice2_np_pad h w) by (done || lia).
  apply or_grid_tabulate.
Qed.

Lemma rect_dilate h w mask r : rect h w mask → rect h w (_binary_dilate mask r).
Proof.
  intros Hm. destruct (decide (0 < r)%Z).
  - rewrite (dilate_tabulate h w) by done. apply rect_tabulate.
  - unfold _binary_dilate. by destruct (Z.leb_spec r 0); [|lia].
Qed.

Lemma dilate_cell_true mask r i j :
  dilate_cell mask r i j = true ↔
  ∃ i' j', (chebyshev (i, j) (i', j') ≤ r)%Z ∧ at2 false mask i' j' = true.
Proof.
  unfold dilate_cell, chebyshev, range. simpl. split.
  - intros H. apply existsb_exists in H as (dr & Hdr & H).
    apply existsb_exists in H as (dc & Hdc & H).
    apply list_elem_of_In, elem_of_seqZ in Hdr, Hdc.
    unfold atZ in H. apply andb_prop in H as [H Hat].
    apply andb_prop in H as [H1 H2].
    apply bool_decide_eq_true in H1, H2.
    exists (Z.to_nat (Z.of_nat i + dr)), (Z.to_nat (Z.of_nat j + dc)).
    split; [lia | done].
  - intros (i' & j' & Hd & Hat).
    apply existsb_exists. exists (Z.of_nat i' - Z.of_nat i)%Z. split.
    { apply list_elem_of_In, elem_of_seqZ. lia. }
    apply existsb_exists. exists (Z.of_nat j' - Z.of_nat j)%Z. split.
    { apply list_elem_of_In, elem_of_seqZ. lia. }
    unfold atZ.
    replace (Z.of_nat i + (Z.of_nat i' - Z.of_nat i))%Z with (Z.of_nat i') by lia.
    replace (Z.of_nat j + (Z.of_nat j' - Z.of_nat j))%Z with (Z.of_nat j') by lia.
    rewrite !Nat2Z.id, Hat.
    by rewrite !bool_decide_eq_true_2 by lia.
Qed.

Lemma at2_dilate h w mask r i j :
  rect h w mask → (0 < r)%Z → i < h → j < w →
  at2 false (_binary_dilate mask r) i j = dilate_cell mask r i j.
Proof.
  intros Hm Hr Hi Hj. by rewrite (dilate_tabulate h w), at2_tabulate.
Qed.

Lemma rect_erode h w mask r : rect h w mask → rect h w (_binary_erode mask r).
Proof.
  intros Hm. unfold _binary_erode. destruct (r <=? 0)%Z; [done|].
  by apply rect_not_grid, rect_dilate, rect_not_grid.
Qed.

(** A cell survives erosion when its whole window inside the array is set. *)
Lemma at2_erode h w mask r i j :
  rect h w mask → (0 < r)%Z → i < h → j < w →
  at2 false (_binary_erode mask r) i j = true ↔
  ∀ i' j', i' < h → j' < w → (chebyshev (i, j) (i', j') ≤ r)%Z →
           at2 false mask i' j' = true.
Proof.
  intros Hm Hr Hi Hj. unfold _binary_erode.
  destruct (Z.leb_spec r 0) as [|_]; [lia|].
  rewrite (at2_not_grid h w) by (done || by apply rect_dilate, rect_not_grid).
  rewrite (at2_dilate h w) by (done || by apply rect_not_grid).
  rewrite negb_true_iff, <- not_true_iff_false, dilate_cell_true. split.
  - intros Hno i' j' Hi' Hj' Hd.
    destruct (at2 false mask i' j') eqn:Hat; [done|].
    exfalso. apply Hno. exists i', j'. split; [done|].
    by rewrite (at2_not_grid h w), Hat.
  - intros Hall (i' & j' & Hd & Hat).
    destruct (at2_true_in_rect h w _ _ _ (rect_not_grid _ _ _ Hm) Hat).
    rewrite (at2_not_grid h w) in Hat by done.
    by rewrite Hall in Hat.
Qed.
End dilate_facts.

Example demo_dilate :
  _binary_dilate demo_mask 1
  = [[true; true; true; false]; [true; true; true; true]; [true; true; true; true]].
Proof. reflexivity. Qed.

Example demo_close :
  _binary_close demo_mask 1
  = [[true; true; false; false]; [true; true; false; false]; [true; true; true; true]].
Proof. reflexivity. Qed.

Lemma rect_demo_mask : rect 3 4 demo_mask.
Proof. split; [reflexivity | repeat constructor]. Qed.

Lemma chebyshev_sym p q : chebyshev p q = chebyshev q p.
Proof. unfold chebyshev. lia. Qed.


Lemma at2_dilate_true h w mask r i j :
  rect h w mask → (0 < r)%Z → i < h → j < w →
  at2 false (_binary_dilate mask r) i j = true ↔
  ∃ i' j', i' < h ∧ j' < w ∧ (chebyshev (i, j) (i', j') ≤ r)%Z
           ∧ at2 false mask i' j' = true.
Proof.
  intros Hm Hr Hi Hj. rewrite (at2_dilate h w), dilate_cell_true by done. split.
  - intros (i' & j' & Hd & Hat). exists i', j'.
    destruct (at2_true_in_rect h w _ _ _ Hm Hat). done.
  - intros (i' & j' & _ & _ & Hd & Hat). by exists i', j'.
Qed.

Lemma rect_close h w mask r : rect h w mask → rect h w (_binary_close mask r).
Proof.
  intros Hm. unfold _binary_close. destruct (r <=? 0)%Z; [done|].
  by apply rect_erode, rect_dilate.
Qed.

(** A cell is set by closing when every cell of its window (inside the
    array) is within reach of a set cell of the mask. *)
Lemma at2_close h w mask r i j :
  rect h w mask → (0 < r)%Z → i < h → j < w →
  at2 false (_binary_close mask r) i j = true ↔
  ∀ i' j', i' < h → j' < w → (chebyshev (i, j) (i', j') ≤ r)%Z →
           at2 false (_binary_dilate mask r) i' j' = true.
Proof.
  intros Hm Hr Hi Hj. unfold _binary_close.
  destruct (Z.leb_spec r 0) as [|_]; [lia|].
  by rewrite (at2_erode h w) by (done || by apply rect_dilate).
Qed.

(** C8: dilation sets exactly the cells within Chebyshev distance
    [radius_px] of a set cell of the mask; erosion is the complement of the
    dilation of the complement; a radius of zero or less leaves the mask
    as it is under dilate, erode and close. *)
Theorem morphology_spec h w (mask : grid bool) (radius_px : Z) :
  rect h w mask →
  ((1 ≤ radius_px)%Z →
     (∀ i j, i < h → j < w →
        at2 false (_binary_dilate mask radius_px) i j = true ↔
        ∃ i' j', i' < h ∧ j' < w ∧ (chebyshev (i, j) (i', j') ≤ radius_px)%Z
                 ∧ at2 false mask i' j' = true)
     ∧ rect h w (_binary_dilate mask radius_px)
     ∧ _binary_erode mask radius_px
       = not_grid (_binary_dilate (not_grid mask) radius_px))
  ∧ ((radius_px ≤ 0)%Z →
       _binary_dilate mask radius_px = mask
       ∧ _binary_erode mask radius_px = mask
       ∧ _binary_close mask radius_px = mask).
Proof.
  intros Hm. split.
  - intros Hr. split; [|split].
    + intros i j Hi Hj. apply at2_dilate_true; (done || lia).
    + by apply rect_dilate.
    + unfold _binary_erode. by destruct (Z.leb_spec radius_px 0); [lia|].
  - intros Hr. unfold _binary_close, _binary_erode, _binary_dilate.
    by destruct (Z.leb_spec radius_px 0); [|lia].
Qed.

Lemma morphology_spec_witness :
  rect 3 4 demo_mask ∧
  (at2 false (_binary_dilate demo_mask 1) 0 0 = true ↔
   ∃ i' j', i' < 3 ∧ j' < 4 ∧ (chebyshev (0%nat, 0%nat) (i', j') ≤ 1)%Z
            ∧ at2 false demo_mask i' j' = true).
Proof.
  split; [exact rect_demo_mask|].
  apply (morphology_spec 3 4 demo_mask 1 rect_demo_mask); lia.
Defined.

(** C5: closing is idempotent. *)
Theorem close_idempotent h w (mask : grid bool) (radius_px : Z) :
  rect h w mask →
  _binary_close (_binary_close mask radius_px) radius_px
  = _binary_close mask radius_px.
Proof.
  intros Hm. destruct (decide (radius_px ≤ 0)%Z) as [Hr|Hr].
  { unfold _binary_close. by destruct (Z.leb_spec radius_px 0); [|lia]. }
  assert (0 < radius_px)%Z as Hpos by lia. clear Hr.
  pose proof (rect_close h w mask radius_px Hm) as Hc.
  apply (grid_ext false h w); [by apply rect_close | done |].
  intros i j Hi Hj. apply eq_true_iff_eq.
  rewrite !(at2_close h w) by done. split.
  - (* every window cell q is reached from a closed cell s; the window of s
       contains q, and the window of a closed cell lies in the dilation *)
    intros H i' j' Hi' Hj' Hd.
    specialize (H i' j' Hi' Hj' Hd).
    apply (at2_dilate_true h w) in H as (si & sj & Hsi & Hsj & Hs & Hat);
      [|done..].
    apply (proj1 (at2_close h w mask radius_px si sj Hm Hpos Hsi Hsj) Hat);
      [done..|]. by rewrite chebyshev_sym.
  - (* the cell itself is closed, and it reaches its whole window *)
    intros H i' j' Hi' Hj' Hd.
    apply (at2_dilate_true h w); [done..|].
    exists i, j. split; [done|]. split; [done|].
    split; [by rewrite chebyshev_sym|].
    by apply (at2_close h w).
Qed.

Lemma close_idempotent_witness :
  rect 3 4 demo_mask ∧
  _binary_close (_binary_close demo_mask 1) 1 = _binary_close demo_mask 1.
Proof.
  split; [exact rect_demo_mask|].
  exact (close_idempotent 3 4 demo_mask 1 rect_demo_mask).
Defined.

(** ** Thinning *)

Lemma length_roll {T} k (l : list T) : length (roll k l) = length l.
Proof.
  unfold roll. case_decide; [done|].
  rewrite length_app, length_drop, length_take. lia.
Qed.

Lemma Forall_roll {T} (P : T → Prop) k l : Forall P l → Forall P (roll k l).
Proof.
  intros Hl. unfold roll. case_decide; [done|].
  apply Forall_app_2; [by apply Forall_drop | by apply Forall_take].
Qed.


Section shape_facts.
Context {A B C : Type}.

Lemma rect_map2d h w (f : A → B) (a : grid A) : rect h w a → rect h w (map2d f a).
Proof.
  intros [Hlen Hall]. split; unfold map2d.
  - by rewrite length_fmap.
  - apply Forall_fmap. eapply Forall_impl; [done|]. intros row Hrow.
    simpl in *. by rewrite length_fmap.
Qed.

Lemma rect_zip2d h w (f : A → B → C) (a : grid A) (b : grid B) :
  rect h w a → rect h w b → rect h w (zip2d f a b).
Proof.
  intros [Ha1 Ha2] [Hb1 Hb2]. unfold zip2d. split.
  - rewrite length_zip_with. lia.
  - apply Forall_lookup. intros i row Hrow.
    rewrite lookup_zip_with in Hrow.
    destruct (a !! i) as [ra|] eqn:Hra; [|done].
    destruct (b !! i) as [rb|] eqn:Hrb; [|done].
    simpl in Hrow. injection Hrow as <-. rewrite length_zip_with.
    rewrite (proj1 (Forall_lookup _ _) Ha2 _ _ Hra).
    rewrite (proj1 (Forall_lookup _ _) Hb2 _ _ Hrb). lia.
Qed.

Lemma rect_roll0 h w k (a : grid A) : rect h w a → rect h w (roll0 k a).
Proof.
  intros [Hlen Hall]. unfold roll0. split.
  - by rewrite length_roll.
  - by apply Forall_roll.
Qed.

Lemma rect_roll1 h w k (a : grid A) : rect h w a → rect h w (roll1 k a).
Proof.
  intros [Hlen Hall]. unfold roll1. split.
  - by rewrite length_fmap.
  - apply Forall_fmap. eapply Forall_impl; [done|]. intros row Hrow.
    cbn beta in *. unfold compose. by rewrite length_roll.
Qed.

Lemma at2_map2d (d : A) (e : B) (f : A → B) (a : grid A) i j :
  e = f d → at2 e (map2d f a) i j = f (at2 d a i j).
Proof.
  intros ->. unfold at2, map2d. rewrite list_lookup_fmap.
  destruct (a !! i) as [row|]; [|done]. simpl. rewrite list_lookup_fmap.
  by destruct (row !! j).
Qed.
End shape_facts.

Ltac solve_rect :=
  repeat first
    [ assumption
    | apply rect_zip2d | apply rect_map2d | apply rect_roll0 | apply rect_roll1 ].

Lemma rect_removable h w second img : rect h w img → rect h w (removable second img).
Proof.
  intros Himg. unfold removable, neighbors8.
  cbn [foldl seq lookup_total list_lookup_total].
  unfold and_grid, eq_c, ge_c, le_c, add_u8, mul_u8, astype_u8.
  destruct second; solve_rect.
Qed.

Section cleared_facts.
Implicit Types (a b c : grid Z) (row : list Z).

Let R := (λ v' v : Z, v' = 0%Z ∨ v' = v).

Lemma cleared_refl a : cleared a a.
Proof.
  unfold cleared. apply Forall2_same_length_lookup. split; [done|].
  intros i x y Hx Hy. assert (x = y) as -> by congruence.
  apply Forall2_same_length_lookup. split; [done|].
  intros j u v Hu Hv. right. congruence.
Qed.

Lemma cleared_trans a b c : cleared a b → cleared b c → cleared a c.
Proof.
  unfold cleared. intros Hab Hbc.
  eapply Forall2_trans; [|done..].
  intros ra rb rc Hrab Hrbc. eapply Forall2_trans; [|done..].
  intros x y z [-> | ->] Hyz; [by left | done].
Qed.

Lemma cleared_rect h w a b : cleared a b → rect h w b → rect h w a.
Proof.
  unfold cleared. intros Hab [Hlen Hall]. split.
  - by rewrite (Forall2_length _ _ _ Hab).
  - apply Forall_lookup. intros i ra Hra.
    destruct (Forall2_lookup_l _ _ _ _ _ Hab Hra) as (rb & Hrb & Hrow).
    rewrite (Forall2_length _ _ _ Hrow).
    by eapply (proj1 (Forall_lookup _ _) Hall).
Qed.

(** A cell that is still set was set before, with the same value. *)
Lemma cleared_at2 a b i j :
  cleared a b → at2 0%Z a i j ≠ 0%Z → at2 0%Z a i j = at2 0%Z b i j.
Proof.
  unfold cleared, at2. intros Hab Hne.
  destruct (a !! i) as [ra|] eqn:Hra; [|done].
  destruct (Forall2_lookup_l _ _ _ _ _ Hab Hra) as (rb & Hrb & Hrow).
  rewrite Hrb. simpl in *.
  destruct (ra !! j) as [x|] eqn:Hx; [|done].
  destruct (Forall2_lookup_l _ _ _ _ _ Hrow Hx) as (y & Hy & [-> | ->]);
    [done|]. by rewrite Hy.
Qed.

Lemma row_count_le (ra rb : list Z) :
  Forall2 R ra rb →
  length (filter (λ x, x ≠ 0%Z) ra) ≤ length (filter (λ x, x ≠ 0%Z) rb).
Proof.
  induction 1 as [|x y ra rb Hxy _ IH]; [done|].
  rewrite !filter_cons. destruct Hxy as [-> | ->].
  - repeat case_decide; simpl; (done || lia).
  - repeat case_decide; simpl; (done || lia).
Qed.

(** Clearing cells never raises the foreground count. *)
Lemma cleared_fg_count a b : cleared a b → fg_count a ≤ fg_count b.
Proof.
  unfold cleared, fg_count. induction 1 as [|ra rb a b Hrow _ IH]; [done|].
  rewrite !fmap_cons. simpl. pose proof (row_count_le _ _ Hrow). lia.
Qed.

Lemma cleared_fmap (f : list Z → list Z) a :
  (∀ row, Forall2 R (f row) row) → cleared (f <$> a) a.
Proof.
  intros Hf. unfold cleared. apply Forall2_fmap_l, Forall_Forall2_diag.
  apply Forall_forall. intros row _. apply Hf.
Qed.

Lemma cleared_alter (f : list Z → list Z) k a :
  (∀ row, Forall2 R (f row) row) → cleared (alter f k a) a.
Proof.
  intros Hf. unfold cleared. apply Forall2_same_length_lookup.
  split; [by rewrite length_alter|].
  intros i x y Hx Hy. rewrite list_lookup_alter in Hx.
  case_decide; subst.
  - rewrite Hy in Hx. simpl in Hx. injection Hx as <-. apply Hf.
  - assert (x = y) as -> by congruence. apply Forall_Forall2_diag.
    apply Forall_forall. intros. by right.
Qed.

Lemma row_zero row : Forall2 R ((λ _, 0%Z) <$> row) row.
Proof.
  apply Forall2_fmap_l, Forall_Forall2_diag, Forall_forall.
  intros x _. by left.
Qed.

Lemma row_insert_zero k row : Forall2 R (<[k := 0%Z]> row) row.
Proof.
  apply Forall2_same_length_lookup. split; [by rewrite length_insert|].
  intros i x y Hx Hy. rewrite list_lookup_insert in Hx.
  case_decide; [left | right]; congruence.
Qed.

Lemma cleared_clear_borders a a' : clear_borders a = Some a' → cleared a' a.
Proof.
  unfold clear_borders. destruct (shape a) as [h w]. case_decide; [done|].
  intros [= <-].
  eapply cleared_trans; [apply cleared_fmap, row_insert_zero|].
  eapply cleared_trans; [apply cleared_fmap, row_insert_zero|].
  eapply cleared_trans; [apply cleared_alter, row_zero|].
  apply cleared_alter, row_zero.
Qed.

Lemma cleared_clear_where h w a (m : grid bool) :
  rect h w a → rect h w m → cleared (clear_where a m) a.
Proof.
  intros [Ha1 Ha2] [Hm1 Hm2]. unfold cleared, clear_where, zip2d.
  apply Forall2_same_length_lookup. split.
  { rewrite length_zip_with. lia. }
  intros i x ra Hx Hra. rewrite lookup_zip_with, Hra in Hx. simpl in Hx.
  destruct (m !! i) as [rm|] eqn:Hrm; [|done]. simpl in Hx. injection Hx as <-.
  apply Forall2_same_length_lookup. split.
  { rewrite length_zip_with.
    rewrite (proj1 (Forall_lookup _ _) Ha2 _ _ Hra).
    rewrite (proj1 (Forall_lookup _ _) Hm2 _ _ Hrm). lia. }
  intros j u v Hu Hv. rewrite lookup_zip_with, Hv in Hu. simpl in Hu.
  destruct (rm !! j) as [[|]|]; simpl in Hu; [left | right | done]; congruence.
Qed.

Lemma clear_borders_is_Some h w a :
  rect h w a → 0 < h → 0 < w → is_Some (clear_borders a).
Proof.
  intros Ha Hh Hw. unfold clear_borders. rewrite (rect_shape h w) by done.
  rewrite decide_False by lia. done.
Qed.

(** After [clear_borders] only interior cells can be set. *)
Lemma clear_borders_interior h w a a' i j :
  rect h w a → clear_borders a = Some a' → at2 0%Z a' i j ≠ 0%Z →
  0 < i ∧ i + 1 < h ∧ 0 < j ∧ j + 1 < w.
Proof.
  intros Ha Hcb Hne. unfold clear_borders in Hcb.
  destruct (decide (h = 0)) as [->|Hh].
  { destruct Ha as [Hlen _]. apply length_zero_iff_nil in Hlen as ->. done. }
  rewrite (rect_shape h w) in Hcb by (done || lia).
  case_decide; [done|]. injection Hcb as <-.
  set (zero := λ row : list Z, (λ _, 0%Z) <$> row) in *.
  set (b := alter zero (h - 1) (alter zero 0 a)) in *.
  assert (∀ row : list Z, Forall (λ x, x = 0%Z) (zero row)) as Hzero.
  { intros row. apply Forall_fmap, Forall_forall. done. }
  assert (∀ row, b !! i = Some row →
            length row = w ∧ (i = 0 ∨ i = h - 1 → Forall (λ x, x = 0%Z) row))
    as Hb.
  { intros row. unfold b. rewrite !list_lookup_alter.
    destruct Ha as [Hlen Hall].
    pose proof (proj1 (Forall_lookup _ _) Hall) as Hlk. intros Hrow.
    repeat case_decide; subst;
      repeat match goal with
             | H : _ <$> ?o = Some _ |- _ =>
                 let E := fresh in destruct o eqn:E; simplify_eq/=
             end;
      (split; [ unfold zero; rewrite ?length_fmap; by eapply Hlk
              | intros; (apply Hzero || lia) ]). }
  unfold at2 in Hne. rewrite !list_lookup_fmap in Hne.
  destruct (b !! i) as [row|] eqn:Hrow; [|done]. simpl in Hne.
  destruct (Hb row eq_refl) as [Hw Hz].
  rewrite !list_lookup_insert, !length_insert in Hne.
  pose proof (lookup_lt_Some _ _ _ Hrow) as Hi.
  unfold b in Hi. rewrite !length_alter in Hi. destruct Ha as [Hlen _].
  destruct (row !! j) as [x|] eqn:Hx.
  2:{ repeat case_decide; simpl in Hne; done. }
  pose proof (lookup_lt_Some _ _ _ Hx) as Hj.
  repeat case_decide; simpl in Hne; try done.
  assert (¬ (i = 0 ∨ i = h - 1)) as Hmid.
  { intros Hbor. specialize (Hz Hbor).
    apply Hne. by apply (proj1 (Forall_lookup _ _) Hz _ _ Hx). }
  lia.
Qed.
End cleared_facts.

Section thin_loop_facts.
Variables h w : nat.
Hypothesis Hh : 0 < h.
Hypothesis Hw : 0 < w.

Lemma clear_step (second : bool) img :
  rect h w img →
  let m := removable second img in
  rect h w (clear_where img m) ∧ cleared (clear_where img m) img.
Proof.
  intros Himg m.
  assert (cleared (clear_where img m) img) as Hc.
  { apply (cleared_clear_where h w); [done | by apply rect_removable]. }
  split; [by eapply cleared_rect | done].
Qed.

(** One pass of the loop body: it cannot raise on a non-empty image, keeps
    the shape, only clears cells, and counts one iteration. *)
Lemma thin_body_spec st :
  rect h w (thin_img st) →
  ∃ st', thin_body st = Some st'
         ∧ rect h w (thin_img st')
         ∧ cleared (thin_img st') (thin_img st)
         ∧ interior h w (thin_img st')
         ∧ thin_it st' = (thin_it st + 1)%Z.
Proof.
  intros Himg. unfold thin_body.
  set (img1 := if np_any (removable false (thin_img st))
               then (clear_where (thin_img st) (removable false (thin_img st)), true)
               else (thin_img st, false)).
  assert (rect h w img1.1 ∧ cleared img1.1 (thin_img st)) as [Hr1 Hc1].
  { unfold img1. destruct (np_any _); simpl.
    - by apply clear_step.
    - split; [done | apply cleared_refl]. }
  destruct img1 as [i1 ch1]. simpl in *.
  destruct (clear_borders_is_Some h w i1 Hr1 Hh Hw) as [i2 Hi2].
  rewrite Hi2. simpl.
  pose proof (cleared_clear_borders _ _ Hi2) as Hc2.
  pose proof (cleared_rect h w _ _ Hc2 Hr1) as Hr2.
  set (img3 := if np_any (removable true i2)
               then (clear_where i2 (removable true i2), true)
               else (i2, ch1)).
  assert (rect h w img3.1 ∧ cleared img3.1 i2) as [Hr3 Hc3].
  { unfold img3. destruct (np_any _); simpl.
    - by apply clear_step.
    - split; [done | apply cleared_refl]. }
  destruct img3 as [i3 ch3]. simpl in *.
  destruct (clear_borders_is_Some h w i3 Hr3 Hh Hw) as [i4 Hi4].
  rewrite Hi4. simpl.
  pose proof (cleared_clear_borders _ _ Hi4) as Hc4.
  pose proof (cleared_rect h w _ _ Hc4 Hr3) as Hr4.
  eexists. split; [done|]. simpl. split; [done|]. split; [|split; [|done]].
  - eauto using cleared_trans.
  - intros i j. by apply (clear_borders_interior h w i3).
Qed.

(** The loop never runs out of fuel once the fuel covers the iterations
    left below the cap, and the final state is bounded by the cap. *)
Lemma thin_while_spec max_iter fuel st :
  rect h w (thin_img st) → interior h w (thin_img st) →
  (max_iter - thin_it st ≤ Z.of_nat fuel)%Z →
  ∃ st', thin_while fuel max_iter st = Some st'
         ∧ rect h w (thin_img st')
         ∧ cleared (thin_img st') (thin_img st)
         ∧ interior h w (thin_img st')
         ∧ (thin_it st ≤ thin_it st' ≤ Z.max (thin_it st) max_iter)%Z.
Proof.
  revert st. induction fuel as [|fuel IH]; intros st Himg Hint Hfuel.
  - simpl. destruct (thin_changed st); simpl.
    + rewrite bool_decide_eq_false_2 by lia.
      exists st. split_and!; try done; try lia; apply cleared_refl.
    + exists st. split_and!; try done; try lia; apply cleared_refl.
  - simpl.
    destruct (thin_changed st && bool_decide (thin_it st < max_iter)%Z) eqn:Hc.
    + apply andb_prop in Hc as [_ Hlt]. apply bool_decide_eq_true in Hlt.
      destruct (thin_body_spec st Himg) as (st1 & -> & Hr1 & Hc1 & Hi1 & Hit).
      simpl. destruct (IH st1 Hr1 Hi1) as (st2 & -> & Hr2 & Hc2 & Hi2 & Hit2);
        [lia|].
      exists st2. split_and!; try done; try lia.
      by eapply cleared_trans.
    + exists st. split_and!; try done; try lia; apply cleared_refl.
Qed.

Lemma zhang_suen_run_spec mask max_iter :
  rect h w mask →
  ∃ img0 st, clear_borders (astype_u8 mask) = Some img0
         ∧ zhang_suen_run mask max_iter = Some st
         ∧ rect h w (thin_img st)
         ∧ cleared (thin_img st) img0
         ∧ interior h w (thin_img st)
         ∧ (0 ≤ thin_it st ≤ Z.max 0 max_iter)%Z.
Proof.
  intros Hm. unfold zhang_suen_run.
  assert (rect h w (astype_u8 mask)) as Hu by by apply rect_map2d.
  destruct (clear_borders_is_Some h w _ Hu Hh Hw) as [img0 Himg0].
  rewrite Himg0. simpl.
  pose proof (cleared_clear_borders _ _ Himg0) as Hc0.
  pose proof (cleared_rect h w _ _ Hc0 Hu) as Hr0.
  destruct (thin_while_spec max_iter (Z.to_nat max_iter) (ThinState img0 true 0))
    as (st & Hst & Hr & Hc & Hi & Hit); simpl; try done; try lia.
  { intros i j. by apply (clear_borders_interior h w (astype_u8 mask)). }
  exists img0, st. done.
Qed.
End thin_loop_facts.

Lemma rect_bar_mask : rect 8 8 bar_mask.
Proof. apply rect_tabulate. Qed.

(** C2: every pass of the thinning loop only clears cells, so the foreground
    count never grows from one iteration to the next, and the loop runs at
    most [max_iter] passes (none when [max_iter] is not positive) before it
    returns. *)
Theorem thinning_clears_and_stops h w (mask : grid bool) (max_iter : Z) :
  rect h w mask → 0 < h → 0 < w →
  (∀ st, rect h w (thin_img st) →
     ∃ st', thin_body st = Some st'
            ∧ cleared (thin_img st') (thin_img st)
            ∧ fg_count (thin_img st') ≤ fg_count (thin_img st)
            ∧ thin_it st' = (thin_it st + 1)%Z)
  ∧ ∃ st, zhang_suen_run mask max_iter = Some st
          ∧ _zhang_suen_thin mask max_iter = Some (astype_bool (thin_img st))
          ∧ (0 ≤ thin_it st ≤ Z.max 0 max_iter)%Z
          ∧ fg_count (thin_img st) ≤ fg_count (astype_u8 mask).
Proof.
  intros Hm Hh Hw. split.
  - intros st Hst.
    destruct (thin_body_spec h w Hh Hw st Hst) as (st' & Hb & _ & Hc & _ & Hit).
    exists st'. split_and!; try done. by apply cleared_fg_count.
  - destruct (zhang_suen_run_spec h w Hh Hw mask max_iter Hm)
      as (img0 & st & Hcb & Hrun & _ & Hc & _ & Hit).
    exists st. split; [done|]. split.
    { unfold _zhang_suen_thin. by rewrite Hrun. }
    split; [done|].
    etrans; [by apply cleared_fg_count|].
    by apply cleared_fg_count, cleared_clear_borders.
Qed.

Lemma thinning_clears_and_stops_witness :
  ∃ st, zhang_suen_run bar_mask 10 = Some st
        ∧ _zhang_suen_thin bar_mask 10 = Some (astype_bool (thin_img st))
        ∧ (0 ≤ thin_it st ≤ Z.max 0 10)%Z
        ∧ fg_count (thin_img st) ≤ fg_count (astype_u8 bar_mask).
Proof.
  apply (thinning_clears_and_stops 8 8 bar_mask 10 rect_bar_mask); lia.
Defined.

(** ** Skeleton pixels *)

Lemma foldl_invariant {A B} (P : A → Prop) (f : A → B → A) (l : list B) (a : A) :
  P a → (∀ a x, x ∈ l → P a → P (f a x)) → P (foldl f a l).
Proof.
  revert a. induction l as [|x l IH]; intros a Ha Hf; simpl; [done|].
  apply IH.
  - apply Hf; [left | done].
  - intros a' y Hy. apply Hf. by right.
Qed.

Lemma at2_set2 {A} (d : A) (a : grid A) r c v i j :
  at2 d (set2 a r c v) i j = at2 d a i j
  ∨ (i = r ∧ j = c ∧ at2 d (set2 a r c v) i j = v).
Proof.
  unfold at2, set2. rewrite list_lookup_alter. case_decide; [|by left]. subst.
  destruct (a !! i) as [row|]; [|by left]. simpl.
  rewrite list_lookup_insert.
  destruct (decide (c = j ∧ c < length row)) as [[-> _]|_]; [|by left].
  by right.
Qed.

Lemma at2_zeros_like {A} (a : grid A) i j : at2 false (zeros_like a) i j = false.
Proof.
  unfold at2, zeros_like. rewrite list_lookup_fmap.
  destruct (a !! i) as [row|]; [|done]. simpl. rewrite list_lookup_fmap.
  by destruct (row !! j).
Qed.

Lemma at2_astype_bool img i j :
  at2 false (astype_bool img) i j = true ↔ at2 0%Z img i j ≠ 0%Z.
Proof.
  unfold astype_bool. rewrite (at2_map2d 0%Z false).
  - apply bool_decide_eq_true.
  - reflexivity.
Qed.

Lemma at2_astype_u8 mask i j :
  at2 0%Z (astype_u8 mask) i j ≠ 0%Z ↔ at2 false mask i j = true.
Proof.
  unfold astype_u8. rewrite (at2_map2d false 0%Z) by done.
  by destruct (at2 false mask i j).
Qed.

(** Thinning returns a subset of the mask, off the one-pixel border. *)
Lemma thin_subset_interior h w mask max_iter :
  rect h w mask → 0 < h → 0 < w →
  ∃ skel, _zhang_suen_thin mask max_iter = Some skel
          ∧ rect h w skel
          ∧ ∀ i j, at2 false skel i j = true →
                   at2 false mask i j = true
                   ∧ 0 < i ∧ i + 1 < h ∧ 0 < j ∧ j + 1 < w.
Proof.
  intros Hm Hh Hw.
  destruct (zhang_suen_run_spec h w Hh Hw mask max_iter Hm)
    as (img0 & st & Hcb & Hrun & Hr & Hc & Hint & _).
  unfold _zhang_suen_thin. rewrite Hrun. simpl. eexists. split; [done|].
  split; [by apply rect_map2d|].
  intros i j Hij. apply at2_astype_bool in Hij. split; [|by apply Hint].
  apply at2_astype_u8.
  pose proof (cleared_clear_borders _ _ Hcb) as Hc0.
  rewrite <- (cleared_at2 _ _ i j Hc0).
  - by rewrite <- (cleared_at2 _ _ i j Hc).
  - by rewrite <- (cleared_at2 _ _ i j Hc).
Qed.

Lemma rect_set2 {A} h w (a : grid A) r c v : rect h w a → rect h w (set2 a r c v).
Proof.
  intros [Hlen Hall]. unfold set2. split; [by rewrite length_alter|].
  apply Forall_lookup. intros i row Hrow. rewrite list_lookup_alter in Hrow.
  pose proof (proj1 (Forall_lookup _ _) Hall) as Hlk. case_decide; subst.
  - destruct (a !! i) as [row'|] eqn:Hr; simplify_eq/=.
    rewrite length_insert. by eapply Hlk.
  - by eapply Hlk.
Qed.

(** The ridge loop marks only mask cells off the one-pixel border. *)
Lemma ridge_subset_interior h w mask dist :
  rect h w mask → 0 < h →
  rect h w (_ridge_skeleton_from_dist mask dist)
  ∧ ∀ i j, at2 false (_ridge_skeleton_from_dist mask dist) i j = true →
           at2 false mask i j = true ∧ 0 < i ∧ i + 1 < h ∧ 0 < j ∧ j + 1 < w.
Proof.
  intros Hm Hh. unfold _ridge_skeleton_from_dist.
  rewrite (rect_shape h w) by done.
  apply (foldl_invariant (λ skel, rect h w skel ∧ ∀ i j, at2 false skel i j = true →
           at2 false mask i j = true ∧ 0 < i ∧ i + 1 < h ∧ 0 < j ∧ j + 1 < w)).
  { split; [by apply rect_zeros_like|]. intros i j. by rewrite at2_zeros_like. }
  intros skel r Hr Hskel.
  apply list_elem_of_fmap in Hr as (zr & -> & Hzr). apply elem_of_seqZ in Hzr.
  apply foldl_invariant; [done|].
  intros skel' c Hc [Hrect Hskel'].
  apply list_elem_of_fmap in Hc as (zc & -> & Hzc). apply elem_of_seqZ in Hzc.
  destruct (at2 false mask (Z.to_nat zr) (Z.to_nat zc)) eqn:Hmask; simpl; [|done].
  case_decide; [done|]. case_decide; [|done].
  split; [by apply rect_set2|].
  intros i j Hij.
  destruct (at2_set2 false skel' (Z.to_nat zr) (Z.to_nat zc) true i j)
    as [Heq|(-> & -> & _)].
  - apply Hskel'. by rewrite <- Heq.
  - split; [done | lia].
Qed.

Lemma rect_blob3 : rect 8 8 blob3.
Proof. apply rect_tabulate. Qed.

Example thin_blob3 :
  skeletonize "thin" blob3 300
  = Some (tabulate 8 8 (λ i j, bool_decide ((i, j) = (3, 3)))).
Proof. vm_compute. reflexivity. Qed.

(** C4, as stated, fails: a filled 3 x 3 square (nine foreground pixels)
    is reduced by thinning, and by the ridge extraction, to the single
    pixel (3, 3), which has no set 8-neighbour in the skeleton. *)
Lemma skeleton_pixel_without_neighbour :
  ¬ (∀ (method : string) (mask skel : grid bool) (thin_max_iter : Z) i j,
       skeletonize method mask thin_max_iter = Some skel →
       at2 false skel i j = true →
       nbrs skel (Z.of_nat i) (Z.of_nat j) ≠ [] ∨ count_true mask = 1).
Proof.
  intros Hclaim.
  destruct (Hclaim "thin" blob3 (tabulate 8 8 (λ i j, bool_decide ((i, j) = (3, 3))))
              300%Z 3 3 thin_blob3 eq_refl) as [Hn|Hc].
  - by apply Hn.
  - vm_compute in Hc. lia.
Qed.

Example ridge_blob3 :
  skeletonize "ridge" blob3 0
  = Some (tabulate 8 8 (λ i j, bool_decide ((i, j) = (3, 3)))).
Proof. vm_compute. reflexivity. Qed.

Example thin_two_dots : skeletonize "thin" two_dots 300 = Some two_dots.
Proof. vm_compute. reflexivity. Qed.

(** The skeleton step returns on a non-empty rectangular mask, keeps the
    shape, and sets only mask pixels off the one-pixel border. *)
Lemma skeletonize_spec h w (mask : grid bool) (method : string)
    (thin_max_iter : Z) :
  rect h w mask → 0 < h → 0 < w →
  ∃ skel, skeletonize method mask thin_max_iter = Some skel
          ∧ rect h w skel
          ∧ ∀ i j, at2 false skel i j = true →
                   at2 false mask i j = true
                   ∧ 0 < i ∧ i + 1 < h ∧ 0 < j ∧ j + 1 < w.
Proof.
intros Hm Hh Hw. unfold skeletonize.
destruct (String.eqb method "ridge").
- destruct (ridge_subset_interior h w mask (_distance_transform_chamfer mask)
              Hm Hh) as [Hrect Hridge].
  destruct (0 <? thin_max_iter)%Z.
  + destruct (thin_subset_interior h w _ thin_max_iter Hrect Hh Hw)
      as (skel & -> & Hr & Hskel).
    exists skel. split; [done|]. split; [done|].
    intros i j Hij. destruct (Hskel i j Hij) as [Hin Hpos].
    split; [|done]. by apply Hridge.
  + eexists. split; [done|]. split; [done|]. apply Hridge.
- by apply thin_subset_interior.
Qed.

(** C4, amended: every pixel set in the skeleton, by thinning or by the
    ridge extraction (with or without its thinning pass), is a foreground
    pixel of the mask and lies off the one-pixel border of the image.  No
    8-neighbour is promised. *)
Theorem skeleton_inside_mask h w (mask : grid bool) (method : string)
    (thin_max_iter : Z) :
  rect h w mask → 0 < h → 0 < w →
  ∃ skel, skeletonize method mask thin_max_iter = Some skel
          ∧ ∀ i j, at2 false skel i j = true →
                   at2 false mask i j = true
                   ∧ 0 < i ∧ i + 1 < h ∧ 0 < j ∧ j + 1 < w.
Proof.
intros Hm Hh Hw.
destruct (skeletonize_spec h w mask method thin_max_iter Hm Hh Hw)
  as (skel & Hskel & _ & Hsub).
by exists skel.
Qed.

Lemma skeleton_inside_mask_witness :
  ∃ skel, skeletonize "ridge" blob3 300 = Some skel
          ∧ ∀ i j, at2 false skel i j = true →
                   at2 false blob3 i j = true
                   ∧ 0 < i ∧ i + 1 < 8 ∧ 0 < j ∧ j + 1 < 8.
Proof.
  apply (skeleton_inside_mask 8 8 blob3 "ridge" 300 rect_blob3); lia.
Defined.

(** ** Path tracer: segment policy *)

Lemma nbrs_spec skel r c p :
  p ∈ nbrs skel r c →
  p ≠ (r, c) ∧ (0 ≤ p.1)%Z ∧ (0 ≤ p.2)%Z ∧ at_px false skel p = true.
Proof.
unfold nbrs. destruct (shape skel) as [Hh Ww]. revert p.
apply (foldl_invariant (λ out : list pixel, ∀ p, p ∈ out →
         p ≠ (r, c) ∧ (0 ≤ p.1)%Z ∧ (0 ≤ p.2)%Z ∧ at_px false skel p = true)).
{ intros p Hp. by apply elem_of_nil in Hp. }
intros out dr _ Hout.
apply foldl_invariant; [done|].
intros out' dc _ Hout'.
case_bool_decide as Hzero; [done|].
destruct (_ && _) eqn:Hcond; [|done].
intros p Hp. apply elem_of_app in Hp as [Hp|Hp]; [by apply Hout'|].
apply list_elem_of_singleton in Hp as ->.
apply andb_prop in Hcond as [Hcond Hat]. apply andb_prop in Hcond as [Hr Hc].
apply bool_decide_eq_true in Hr, Hc. simpl.
split; [intros [= ? ?]; apply Hzero; lia|].
split; [lia|]. split; [lia | done].
Qed.

Section visited_facts.
Implicit Types (visited : grid bool) (row : list bool).

Lemma row_unvisited_insert row c :
  row !! c = Some false →
  S (length (filter (λ b : bool, b = false) (<[c := true]> row)))
  = length (filter (λ b : bool, b = false) row).
Proof.
revert c. induction row as [|b row IH]; intros c Hc; [done|].
destruct c as [|c]; simpl in *.
- simplify_eq. rewrite !filter_cons.
  rewrite decide_False by done. by rewrite decide_True by done.
- rewrite !filter_cons. destruct (decide (b = false)); simpl; by rewrite IH.
Qed.

(** Marking a fresh cell lowers the count of unmarked cells by one. *)
Lemma unvisited_set2 visited r c row :
  visited !! r = Some row → row !! c = Some false →
  S (unvisited (set2 visited r c true)) = unvisited visited.
Proof.
unfold unvisited, set2. revert r.
induction visited as [|row0 visited IH]; intros r Hr Hc; [done|].
destruct r as [|r]; simpl in *.
- simplify_eq. by rewrite <- (row_unvisited_insert row c).
- rewrite <- Nat.add_succ_r. f_equal. exact (IH r Hr Hc).
Qed.

Lemma same_shape_zeros_like {A} (a : grid A) : same_shape a (zeros_like a).
Proof.
unfold same_shape, zeros_like. apply Forall2_fmap_r, Forall_Forall2_diag.
apply Forall_forall. intros row _. simpl. by rewrite length_fmap.
Qed.

Lemma same_shape_set2 {A} (a : grid A) visited r c v :
  same_shape a visited → same_shape a (set2 visited r c v).
Proof.
unfold same_shape, set2. intros Hs.
apply Forall2_same_length_lookup. split.
{ rewrite length_alter. by eapply Forall2_length. }
intros i x y Hx Hy. rewrite list_lookup_alter in Hy.
case_decide; subst.
- destruct (visited !! i) as [row|] eqn:Hrow; simplify_eq/=.
  rewrite length_insert.
  by destruct (Forall2_lookup_l _ _ _ _ _ Hs Hx) as (y & ? & ?); simplify_eq.
- by destruct (Forall2_lookup_l _ _ _ _ _ Hs Hx) as (y' & ? & ?); simplify_eq.
Qed.

(** A set cell of the skeleton has a cell in any array of its shape. *)
Lemma same_shape_cell (skel visited : grid bool) r c :
  same_shape skel visited → at2 false skel r c = true →
  ∃ row b, visited !! r = Some row ∧ row !! c = Some b.
Proof.
unfold same_shape, at2. intros Hs Hat.
destruct (skel !! r) as [srow|] eqn:Hsrow; [|done]. simpl in Hat.
destruct (srow !! c) as [x|] eqn:Hx; [|done].
destruct (Forall2_lookup_l _ _ _ _ _ Hs Hsrow) as (row & Hrow & Hlen).
destruct (lookup_lt_is_Some_2 row c) as [b Hb].
{ rewrite <- Hlen. by eapply lookup_lt_Some. }
by exists row, b.
Qed.
End visited_facts.

Section walk_facts.
Variables (skel : grid bool) (deg : grid Z) (start : pixel).

(** A round that continues marks one fresh cell and appends it. *)
Lemma walk_step_continue st st' :
  same_shape skel (w_visited st) →
  walk_step skel deg start st = inl st' →
  same_shape skel (w_visited st')
  ∧ S (unvisited (w_visited st')) = unvisited (w_visited st)
  ∧ ∃ nxt, w_path st' = w_path st ++ [nxt].
Proof.
intros Hs Hstep. destruct st as [path visited prev cur]. simpl in *.
destruct (_ && _); [done|].
set (n := nbrs skel cur.1 cur.2) in *.
match type of Hstep with
| context [match ?f with Some c => Some c | None => ?o end] =>
    set (fresh := f) in *; set (other := o) in *
end.
assert (∀ nxt, match fresh with Some c => Some c | None => other end = Some nxt →
               nxt ∈ n) as Hin.
{ intros nxt Hn. apply list_elem_of_In.
  destruct fresh as [c|] eqn:Hf.
  - simplify_eq. by apply find_some in Hf as [? _].
  - unfold other in Hn. by apply find_some in Hn as [? _]. }
destruct (match fresh with Some c => Some c | None => other end) as [nxt|];
  [|done].
specialize (Hin nxt eq_refl).
destruct (at_px false visited nxt) eqn:Hvis; [done|].
injection Hstep as <-. simpl.
apply nbrs_spec in Hin as (_ & _ & _ & Hat).
destruct (same_shape_cell skel visited _ _ Hs Hat) as (row & b & Hrow & Hb).
assert (b = false) as ->.
{ unfold at_px, at2 in Hvis. by rewrite Hrow in Hvis; simpl in Hvis;
    rewrite Hb in Hvis. }
split; [by apply same_shape_set2|]. split; [|by eexists].
by apply (unvisited_set2 _ _ _ row).
Qed.

(** A round that stops returns the path, possibly closed by one pixel. *)
Lemma walk_step_break st path visited :
  walk_step skel deg start st = inr (path, visited) →
  visited = w_visited st ∧ ∃ more, path = w_path st ++ more.
Proof.
intros Hstep. destruct st as [path0 visited0 prev cur]. simpl in *.
destruct (_ && _).
{ simplify_eq. split; [done|]. exists []. by rewrite app_nil_r. }
destruct (match List.find _ _ with Some c => Some c | None => _ end) as [nxt|].
- destruct (at_px false visited0 nxt); [|done]. simplify_eq.
  split; [done|]. case_bool_decide; [by eexists|].
  exists []. by rewrite app_nil_r.
- simplify_eq. split; [done|]. exists []. by rewrite app_nil_r.
Qed.

(** The walk always returns: the unmarked cells are fuel enough. *)
Lemma walk_loop_total fuel : ∀ st,
  same_shape skel (w_visited st) → unvisited (w_visited st) < fuel →
  ∃ path visited,
    walk_loop fuel skel deg start st = Some (path, visited)
    ∧ same_shape skel visited
    ∧ ∃ more, path = w_path st ++ more.
Proof.
induction fuel as [|fuel IH]; intros st Hs Hfuel; [lia|].
simpl. destruct (walk_step skel deg start st) as [st'|[path visited]] eqn:Hstep.
- destruct (walk_step_continue _ _ Hs Hstep) as (Hs' & Hcount & nxt & Hpath).
  destruct (IH st' Hs') as (path & visited & -> & Hsv & more & ->); [lia|].
  exists (w_path st' ++ more), visited. split; [done|]. split; [done|].
  exists (nxt :: more). rewrite Hpath. by rewrite <- app_assoc.
- destruct (walk_step_break _ _ _ Hstep) as (-> & more & ->).
  exists (w_path st ++ more), (w_visited st). split; [done|]. split; [done|].
  by exists more.
Qed.

Lemma walk_total visited :
  same_shape skel visited →
  ∃ path visited', walk skel deg visited start = Some (path, visited')
                   ∧ same_shape skel visited'.
Proof.
intros Hs. unfold walk.
destruct (walk_loop_total (S (unvisited (set_px visited start true)))
            (WalkState [start] (set_px visited start true) None start))
  as (path & visited' & Hrun & Hs' & _); simpl.
- by apply same_shape_set2.
- lia.
- by exists path, visited'.
Qed.
End walk_facts.

Section trace_walks_facts.
Variables (skel : grid bool) (deg : grid Z).

Lemma walk_from_ok acc p :
  walks_ok skel acc → walks_ok skel (walk_from skel deg acc p).
Proof.
intros (pix & visited & -> & Hs & Hall). unfold walk_from. simpl.
destruct (at_px false visited p).
{ by exists pix, visited. }
destruct (walk_total skel deg p visited Hs) as (q & visited' & -> & Hs').
simpl. eexists _, visited'. split; [done|]. split; [done|].
case_bool_decide; [|done].
apply Forall_app. split; [done|]. by constructor.
Qed.

Lemma foldl_walk_from_ok acc seeds :
  walks_ok skel acc → walks_ok skel (foldl (walk_from skel deg) acc seeds).
Proof.
intros Hacc. apply foldl_invariant; [done|].
intros acc' p _. apply walk_from_ok.
Qed.
End trace_walks_facts.

(** The segment tracer always returns its walks, each of two pixels or
    more. *)
Lemma trace_walks_total skel :
  ∃ walks, trace_walks skel = Some walks
           ∧ Forall (λ q : list pixel, 2 ≤ length q) walks.
Proof.
unfold trace_walks.
destruct (foldl_walk_from_ok skel (_skeleton_degrees skel)
            (Some ([], zeros_like skel))
            (np_where (and_grid skel (eq_c (_skeleton_degrees skel) 1))))
  as (pix1 & visited1 & -> & Hs1 & Hall1).
{ exists [], (zeros_like skel). split; [done|].
  split; [apply same_shape_zeros_like | constructor]. }
simpl.
destruct (foldl_walk_from_ok skel (_skeleton_degrees skel)
            (Some (pix1, visited1))
            (np_where (and_grid skel (not_grid visited1))))
  as (pix2 & visited2 & -> & Hs2 & Hall2).
{ by exists pix1, visited1. }
simpl. by exists pix2.
Qed.

(** ** Path tracer: single-walk policy *)

Section single_walk_facts.
Variable nbr : pixel → list pixel.
Variable nodes : list pixel.
Let adj : list (pixel * list pixel) := (λ p, (p, nbr p)) <$> nodes.
Implicit Types (edges : gset edge) (a b : pixel).

(** Reading the dict at a key gives the neighbour list stored with it. *)
Lemma adj_get_node a : a ∈ nodes → adj_get adj a = nbr a.
Proof.
unfold adj, adj_get. induction nodes as [|p l IH]; intros Ha.
{ by apply elem_of_nil in Ha. }
simpl. case_bool_decide as Hp; simpl in *; [by subst|].
apply IH. apply elem_of_cons in Ha as [->|Ha]; done.
Qed.

Lemma elem_of_adj a ns : (a, ns) ∈ adj ↔ a ∈ nodes ∧ ns = nbr a.
Proof.
unfold adj. rewrite list_elem_of_fmap. split.
- intros (p & [= -> ->] & Hp). done.
- intros [Ha ->]. by exists a.
Qed.

Lemma elem_of_remaining_nodes edges a :
  a ∈ remaining_nodes adj edges ↔
  a ∈ nodes ∧ existsb (has_edge edges a) (nbr a) = true.
Proof.
unfold remaining_nodes. rewrite list_elem_of_fmap. split.
- intros ([a' ns] & -> & Hin). apply list_elem_of_In, filter_In in Hin as [Hin Hex].
  apply list_elem_of_In, elem_of_adj in Hin as [Ha ->]. done.
- intros [Ha Hex]. exists (a, nbr a). split; [done|].
  apply list_elem_of_In, filter_In. split; [|done].
  apply list_elem_of_In, elem_of_adj. done.
Qed.

Lemma remaining_has_edge edges a :
  a ∈ remaining_nodes adj edges → has_remaining_edge adj edges a = true.
Proof.
intros Ha. apply elem_of_remaining_nodes in Ha as [Ha Hex].
unfold has_remaining_edge. by rewrite adj_get_node.
Qed.

Lemma nearest_node_elem a c0 cs : nearest_node a c0 cs ∈ c0 :: cs.
Proof.
unfold nearest_node.
assert (∀ init : pixel * Z, init.1 ∈ c0 :: cs →
          (foldl (λ '(best, best_d) c,
                    if bool_decide (sq_dist a c < best_d)%Z
                    then (c, sq_dist a c) else (best, best_d)) init cs).1
          ∈ c0 :: cs) as Hgen; [|apply Hgen; by left].
assert (∀ c, c ∈ cs → c ∈ c0 :: cs) as Hsub by (intros; by right).
revert Hsub. generalize (c0 :: cs). intros all Hsub.
induction cs as [|c cs IH]; intros [best best_d] Hinit; simpl; [done|].
apply IH.
- intros c' Hc'. apply Hsub. by right.
- case_bool_decide; simpl; [apply Hsub; by left | done].
Qed.

Lemma pick_start_elem edges cur :
  pick_start adj edges = Some cur → cur ∈ remaining_nodes adj edges.
Proof.
unfold pick_start. destruct (remaining_nodes adj edges) as [|c0 cs] eqn:Hc;
  [done|].
set (endpoints := List.filter _ (c0 :: cs)).
assert (∀ e, e ∈ endpoints → e ∈ c0 :: cs) as Hend.
{ intros e He. apply list_elem_of_In, filter_In in He as [He _].
  by apply list_elem_of_In. }
destruct endpoints as [|e rest]; intros [= <-]; [by left|].
apply Hend. by left.
Qed.

Lemma pick_start_None edges :
  pick_start adj edges = None ↔ remaining_nodes adj edges = [].
Proof.
unfold pick_start. by destruct (remaining_nodes adj edges).
Qed.

(** A jump lands on a node with an unused edge and appends it. *)
Lemma sw_jump_continue st st' :
  sw_jump adj st = inl st' →
  sw_edges st' = sw_edges st
  ∧ has_remaining_edge adj (sw_edges st') (sw_cur st') = true
  ∧ sw_path st' = sw_path st ++ [sw_cur st'].
Proof.
unfold sw_jump.
destruct (remaining_nodes adj (sw_edges st)) as [|c0 cs] eqn:Hc; [done|].
intros [= <-]. simpl. split; [done|]. split; [|done].
apply remaining_has_edge. rewrite Hc. apply nearest_node_elem.
Qed.

(** Every round that continues lowers the measure and appends one node;
    a round that takes an edge moves to a neighbour of the current node. *)
Lemma sw_step_continue st st' :
  sw_step adj st = inl st' →
  sw_measure adj st' < sw_measure adj st
  ∧ sw_path st' = sw_path st ++ [sw_cur st']
  ∧ (has_remaining_edge adj (sw_edges st) (sw_cur st) = true →
     sw_cur st' ∈ adj_get adj (sw_cur st)).
Proof.
destruct st as [path cur edges]. unfold sw_step, sw_measure.
case_bool_decide as Hempty; [done|].
destruct (has_remaining_edge adj edges cur) eqn:Hrem; simpl.
- destruct (List.find (has_edge edges cur) (adj_get adj cur)) as [nxt|] eqn:Hf.
  + intros [= <-]. simpl. apply find_some in Hf as [Hin Hkey].
    apply bool_decide_eq_true in Hkey.
    assert (size (edges ∖ {[edge_key cur nxt]}) = size edges - 1) as ->.
    { rewrite size_difference by by apply singleton_subseteq_l.
      by rewrite size_singleton. }
    assert (0 < size edges).
    { destruct (decide (size edges = 0)) as [Hz|]; [|lia].
      apply size_empty_iff, leibniz_equiv in Hz. done. }
    split; [rewrite Hrem;
            destruct (has_remaining_edge adj (edges ∖ _) nxt); lia|].
    split; [done|].
    intros _. by apply list_elem_of_In.
  + exfalso. unfold has_remaining_edge in Hrem.
    apply existsb_exists in Hrem as (b & Hb & Hkey).
    by rewrite (find_none _ _ Hf b Hb) in Hkey.
- intros Hj. apply sw_jump_continue in Hj as (He & Hr & Hp). simpl in *.
  rewrite Hr, He, Hrem. split; [lia|]. split; [done|]. done.
Qed.

Lemma sw_step_break st path :
  sw_step adj st = inr path → path = sw_path st.
Proof.
destruct st as [path0 cur edges]. unfold sw_step, sw_jump. simpl.
repeat case_match; by intros [= <-].
Qed.

(** The loop returns once the fuel exceeds the measure; the path it
    returns extends the one it started from. *)
Lemma sw_loop_total fuel : ∀ st,
  sw_measure adj st < fuel →
  ∃ more, sw_loop fuel adj st = Some (sw_path st ++ more).
Proof.
induction fuel as [|fuel IH]; intros st Hfuel; [lia|].
simpl. destruct (sw_step adj st) as [st'|path] eqn:Hstep.
- apply sw_step_continue in Hstep as (Hlt & Hpath & _).
  destruct (IH st') as [more ->]; [lia|].
  exists (sw_cur st' :: more). by rewrite Hpath, <- app_assoc.
- apply sw_step_break in Hstep as ->. exists []. by rewrite app_nil_r.
Qed.

(** Started at a node with an unused edge, the walk visits at least one
    neighbour of the start. *)
Lemma sw_loop_from_start fuel cur edges :
  has_remaining_edge adj edges cur = true →
  2 * size edges < fuel →
  ∃ nxt more, sw_loop fuel adj (SwState [cur] cur edges)
              = Some (cur :: nxt :: more)
              ∧ nxt ∈ adj_get adj cur.
Proof.
intros Hrem Hfuel. destruct fuel as [|fuel]; [lia|]. cbn [sw_loop].
destruct (sw_step adj (SwState [cur] cur edges)) as [st'|path] eqn:Hstep.
- apply sw_step_continue in Hstep as (Hlt & Hpath & Hnb). simpl in *.
  unfold sw_measure in Hlt at 2. simpl in Hlt. rewrite Hrem in Hlt.
  destruct (sw_loop_total fuel st') as [more ->]; [lia|].
  exists (sw_cur st'), more. rewrite Hpath. split; [done | by apply Hnb].
- exfalso. unfold sw_step in Hstep.
  case_bool_decide as Hempty.
  { subst. unfold has_remaining_edge, has_edge in Hrem.
    apply existsb_exists in Hrem as (b & _ & Hkey).
    apply bool_decide_eq_true in Hkey. set_solver. }
  rewrite Hrem in Hstep. simpl in Hstep.
  destruct (List.find _ _) eqn:Hf; [done|].
  unfold has_remaining_edge in Hrem.
  apply existsb_exists in Hrem as (b & Hb & Hkey).
  by rewrite (find_none _ _ Hf b Hb) in Hkey.
Qed.
End single_walk_facts.

Lemma dedup_adjacent_two p0 p1 (rest : list pixel) :
  p1 ≠ p0 → 2 ≤ length (dedup_adjacent (p0 :: p1 :: rest)).
Proof.
intros Hne. unfold dedup_adjacent. simpl.
rewrite bool_decide_eq_true_2 by congruence. simpl.
apply (foldl_invariant (λ d : list pixel, 2 ≤ length d)); [simpl; lia|].
intros d p _ Hd. case_bool_decide; [|done].
rewrite length_app. simpl. lia.
Qed.

Lemma edges_inner_fold (a : pixel) (ns : list pixel) : ∀ (E : gset edge) e,
  e ∈ foldl (λ edges b, edges ∪ {[edge_key a b]}) E ns
  ↔ e ∈ E ∨ ∃ b, b ∈ ns ∧ e = edge_key a b.
Proof.
induction ns as [|b ns IH]; intros E e; simpl.
- split; [by left | intros [?|(b & Hb & _)]; [done | by apply elem_of_nil in Hb]].
- rewrite IH, elem_of_union, elem_of_singleton. split.
  + intros [[?| ->]|(b' & Hb' & ->)].
    * by left.
    * right. exists b. split; [by left | done].
    * right. exists b'. split; [by right | done].
  + intros [?|(b' & Hb' & ->)]; [by left; left|].
    apply elem_of_cons in Hb' as [->|Hb']; [left; by right|].
    right. by exists b'.
Qed.

(** The edge set built from [adj] holds the key of every adjacency. *)
Lemma edges_outer_fold (adj : list (pixel * list pixel)) : ∀ (E : gset edge) e,
  e ∈ foldl (λ edges '(a, ns),
               foldl (λ edges b, edges ∪ {[edge_key a b]}) edges ns) E adj
  ↔ e ∈ E ∨ ∃ a ns b, (a, ns) ∈ adj ∧ b ∈ ns ∧ e = edge_key a b.
Proof.
induction adj as [|[a ns] adj IH]; intros E e; simpl.
- split; [by left|]. intros [?|(a & ns & b & Hin & _)]; [done|].
  by apply elem_of_nil in Hin.
- rewrite IH, edges_inner_fold. split.
  + intros [[?|(b & Hb & ->)]|(a' & ns' & b & Hin & Hb & ->)].
    * by left.
    * right. exists a, ns, b. split; [by left | done].
    * right. exists a', ns', b. split; [by right | done].
  + intros [?|(a' & ns' & b & Hin & Hb & ->)]; [by left; left|].
    apply elem_of_cons in Hin as [[= -> ->]|Hin].
    * left. right. by exists b.
    * right. by exists a', ns', b.
Qed.

Section walk_edges_facts.
Variable nbr : pixel → list pixel.
Variable nodes : list pixel.
Let adj : list (pixel * list pixel) := (λ p, (p, nbr p)) <$> nodes.

Lemma build_edges_complete a b :
  a ∈ nodes → b ∈ nbr a → has_edge (build_edges adj) a b = true.
Proof.
intros Ha Hb. apply bool_decide_eq_true. unfold build_edges.
apply edges_outer_fold. right. exists a, (nbr a), b.
split; [|done]. by apply elem_of_adj.
Qed.

(** With every adjacency in the edge set and no node adjacent to itself,
    the walk returns nothing when no node has a neighbour and a path of two
    pixels or more otherwise. *)
Lemma walk_edges_spec :
  (∀ a b, a ∈ nodes → b ∈ nbr a → b ≠ a) →
  ∃ r, walk_edges adj (build_edges adj) = Some r
       ∧ match r with
         | None => ∀ p, p ∈ nodes → nbr p = []
         | Some dedup => 2 ≤ length dedup ∧ ¬ (∀ p, p ∈ nodes → nbr p = [])
         end.
Proof.
intros Hirr. unfold walk_edges. set (edges := build_edges adj).
destruct (pick_start adj edges) as [cur|] eqn:Hstart.
- apply pick_start_elem in Hstart.
  pose proof (remaining_has_edge nbr nodes edges cur Hstart) as Hrem.
  apply elem_of_remaining_nodes in Hstart as [Hcur _].
  destruct (sw_loop_from_start nbr nodes (2 * size edges + 2) cur edges Hrem)
    as (nxt & more & Hrun & Hnxt); [lia|].
  fold adj in Hrun. rewrite Hrun. simpl.
  rewrite adj_get_node in Hnxt by done.
  eexists. split; [done|]. split.
  + apply dedup_adjacent_two. by apply Hirr.
  + intros Hiso. rewrite (Hiso cur Hcur) in Hnxt.
    by apply elem_of_nil in Hnxt.
- exists None. split; [done|].
  apply pick_start_None in Hstart. intros p Hp.
  destruct (nbr p) as [|b ns] eqn:Hnb; [done|]. exfalso.
  assert (p ∈ remaining_nodes adj edges) as Hin.
  { apply elem_of_remaining_nodes. split; [done|].
    apply existsb_exists. exists b. rewrite Hnb.
    split; [by left|]. apply build_edges_complete; [done|].
    rewrite Hnb. by left. }
  fold adj in Hstart. rewrite Hstart in Hin. by apply elem_of_nil in Hin.
Qed.
End walk_edges_facts.

(** The single-walk tracer always returns: no path when no skeleton pixel
    has a neighbour, and otherwise a deduplicated path of two pixels or
    more. *)
Lemma single_walk_path_spec skel :
  ∃ r, single_walk_path skel = Some r
       ∧ match r with
         | None => all_isolated skel
         | Some dedup => 2 ≤ length dedup ∧ ¬ all_isolated skel
         end.
Proof.
unfold single_walk_path, all_isolated.
case_bool_decide as Hnodes.
{ exists None. split; [done|]. intros p Hp. rewrite Hnodes in Hp.
  by apply elem_of_nil in Hp. }
apply (walk_edges_spec (λ p : pixel, nbrs skel p.1 p.2) (np_where skel)).
intros a b _ Hb. apply nbrs_spec in Hb as [Hne _]. by destruct a.
Qed.

Section tracer_facts.
Context {num : Type} `{Arith num}.
Variables (pixel_mm width_mm height_mm min_stroke_mm : num).

Let keep_long := λ (out : list (Stroke num)) (pix : list pixel),
  let pts := to_mm pixel_mm width_mm height_mm <$> pix in
  if (polyline_length pts <? min_stroke_mm)%F then out
  else out ++ [mkStroke pts].

Lemma keep_long_nil walks : ∀ out,
  foldl keep_long out walks = [] ↔ out = [] ∧ Forall (too_short pixel_mm width_mm height_mm min_stroke_mm) walks.
Proof.
induction walks as [|pix walks IH]; intros out; simpl.
- split; [intros ->; by split | by intros [-> _]].
- rewrite IH. unfold keep_long at 1. rewrite Forall_cons.
  unfold too_short at 2. simpl.
  destruct (polyline_length _ <? min_stroke_mm)%F eqn:Hshort.
  + tauto.
  + split.
    * intros [Hnil _]. by destruct out.
    * intros [_ [Hs _]]. congruence.
Qed.

Lemma keep_long_two walks out :
  Forall (λ q : list pixel, 2 ≤ length q) walks →
  Forall (λ s : Stroke num, 2 ≤ length (pts s)) out →
  Forall (λ s : Stroke num, 2 ≤ length (pts s)) (foldl keep_long out walks).
Proof.
intros Hwalks Hout. apply foldl_invariant; [done|].
intros out' pix Hpix Hout'. unfold keep_long.
destruct (_ <? _)%F; [done|].
apply Forall_app. split; [done|]. constructor; [|done]. simpl.
rewrite length_fmap. by apply (proj1 (Forall_forall _ _) Hwalks).
Qed.

(** The segment tracer returns, with strokes of two points or more, and
    with none exactly when every walk is too short. *)
Lemma trace_to_strokes_spec skel :
  ∃ walks strokes,
    trace_walks skel = Some walks
    ∧ _trace_skeleton_to_strokes skel pixel_mm width_mm height_mm min_stroke_mm
      = Some strokes
    ∧ Forall (λ s : Stroke num, 2 ≤ length (pts s)) strokes
    ∧ (strokes = [] ↔ Forall (too_short pixel_mm width_mm height_mm min_stroke_mm) walks).
Proof.
destruct (trace_walks_total skel) as (walks & Hwalks & Hall).
unfold _trace_skeleton_to_strokes. rewrite Hwalks. simpl.
exists walks. eexists. split; [done|]. split; [done|]. split.
- by apply keep_long_two.
- fold keep_long. rewrite keep_long_nil. tauto.
Qed.

(** The single-walk tracer returns, with one stroke of two points or more
    unless no skeleton pixel has a neighbour. *)
Lemma trace_to_single_stroke_spec skel :
  ∃ strokes,
    _trace_skeleton_to_single_stroke skel pixel_mm width_mm height_mm
    = Some strokes
    ∧ Forall (λ s : Stroke num, 2 ≤ length (pts s)) strokes
    ∧ (strokes = [] ↔ all_isolated skel).
Proof.
destruct (single_walk_path_spec skel) as (r & Hr & Hspec).
unfold _trace_skeleton_to_single_stroke. rewrite Hr. simpl.
eexists. split; [done|]. destruct r as [dedup|].
- destruct Hspec as [Hlen Hiso]. split.
  + constructor; [|done]. simpl. by rewrite length_fmap.
  + split; [done | intros; by exfalso].
- split; [constructor | done].
Qed.
End tracer_facts.

(** ** The one-line pipeline *)

Lemma count_true_pos h w (mask : grid bool) :
  rect h w mask → count_true mask ≠ 0 → 0 < h ∧ 0 < w.
Proof.
intros [Hlen Hall] Hcount.
destruct (decide (h = 0)) as [->|].
{ apply length_zero_iff_nil in Hlen as ->. done. }
destruct (decide (w = 0)) as [->|]; [|lia].
exfalso. apply Hcount. unfold count_true. clear Hlen Hcount.
induction Hall as [|row mask Hrow _ IH]; [done|].
apply length_zero_iff_nil in Hrow as ->. simpl. exact IH.
Qed.

Section pipeline_facts.
Context {num : Type} `{Arith num}.
Variables (width_mm height_mm raster_mm min_stroke_mm close_mm : num).

Lemma rect_close_step h w mask closed :
  close_step mask close_mm raster_mm = Some closed →
  rect h w mask → rect h w closed.
Proof.
unfold close_step. intros Hc Hm. destruct (_ >? _)%F; [|by simplify_eq].
destruct (py_div _ _) as [q|]; [|done]. simpl in Hc.
destruct (f_ceil q) as [radius_px|]; [|done]. simpl in Hc.
injection Hc as <-. destruct (0 <? _)%Z; [by apply rect_close | done].
Qed.

(** The closing step raises exactly when its radius cannot be computed. *)
Lemma close_step_None mask :
  close_step mask close_mm raster_mm = None
  ↔ closing_raises close_mm raster_mm.
Proof.
unfold close_step, closing_raises, py_div.
destruct (_ >? _)%F; [|split; [done | intros [? _]; done]].
destruct (raster_mm =? _)%F; simpl.
{ split; [intros _; split; [done | by left] | done]. }
destruct (f_ceil _); simpl.
- split; [done | intros [_ [?|?]]; done].
- split; [intros _; split; [done | by right] | done].
Qed.

(** The chosen tracer returns; it returns no stroke exactly when there is
    nothing to trace, and its strokes have two points or more. *)
Lemma trace_step_spec skel trace_mode :
  ∃ strokes,
    trace_step skel trace_mode raster_mm width_mm height_mm min_stroke_mm
    = Some strokes
    ∧ Forall (λ s : Stroke num, 2 ≤ length (pts s)) strokes
    ∧ (strokes = [] ↔
       nothing_to_trace skel trace_mode raster_mm width_mm height_mm
                        min_stroke_mm).
Proof.
unfold trace_step, nothing_to_trace. destruct (String.eqb trace_mode "walk").
- apply trace_to_single_stroke_spec.
- destruct (trace_to_strokes_spec raster_mm width_mm height_mm min_stroke_mm skel)
    as (walks & strokes & Hwalks & Hstrokes & Htwo & Hnil).
  exists strokes. split; [done|]. split; [done|]. rewrite Hnil. split.
  + intros Hall. by exists walks.
  + intros (walks' & Hw' & Hall). congruence.
Qed.
End pipeline_facts.


Example short_segment_strokes_are_dropped :
  text_to_centerline_strokes_mm line3 8%Q 8%Q 1%Q 300 100%Q 0%Q "thin" "segments"
  = Some (inl NoUsableStrokes).
Proof. vm_compute. reflexivity. Qed.


Lemma rect_line3 : rect 8 8 line3.
Proof. apply rect_tabulate. Qed.


(** C9: both tracers return, and every stroke they return, hence every
    stroke the pipeline returns under either policy, has two points or
    more. *)
Theorem traced_strokes_have_two_points {num : Type} `{Arith num}
    (skel : grid bool) (raster_mm width_mm height_mm min_stroke_mm : num) :
  (∃ strokes,
     _trace_skeleton_to_strokes skel raster_mm width_mm height_mm min_stroke_mm
     = Some strokes
     ∧ Forall (λ s : Stroke num, 2 ≤ length (pts s)) strokes)
  ∧ (∃ strokes,
       _trace_skeleton_to_single_stroke skel raster_mm width_mm height_mm
       = Some strokes
       ∧ Forall (λ s : Stroke num, 2 ≤ length (pts s)) strokes)
  ∧ ∀ (mask : grid bool) (thin_max_iter : Z) (close_mm : num)
      (skeleton_method trace_mode : string) strokes,
      text_to_centerline_strokes_mm mask width_mm height_mm raster_mm
        thin_max_iter min_stroke_mm close_mm skeleton_method trace_mode
      = Some (inr strokes) →
      Forall (λ s : Stroke num, 2 ≤ length (pts s)) strokes.
Proof.
split; [|split].
- destruct (trace_to_strokes_spec raster_mm width_mm height_mm min_stroke_mm skel)
    as (walks & strokes & _ & Hstrokes & Htwo & _).
  by exists strokes.
- destruct (trace_to_single_stroke_spec raster_mm width_mm height_mm skel)
    as (strokes & Hstrokes & Htwo & _).
  by exists strokes.
- intros mask thin_max_iter close_mm skeleton_method trace_mode strokes.
  unfold text_to_centerline_strokes_mm.
  case_bool_decide; [done|].
  destruct (close_step _ _ _) as [closed|]; [|done]. simpl.
  destruct (skeletonize _ _ _) as [skel'|]; [|done]. simpl.
  case_bool_decide; [done|].
  destruct (trace_step_spec width_mm height_mm raster_mm min_stroke_mm skel'
              trace_mode) as (strokes' & -> & Htwo & _).
  simpl. case_bool_decide; [done|]. by intros [= <-].
Qed.

Lemma traced_strokes_have_two_points_witness :
  Forall (λ s : Stroke Q, 2 ≤ length (pts s))
         [mkStroke [(7 # 2, 7 # 2); (9 # 2, 7 # 2); (11 # 2, 7 # 2)]%Q].
Proof.
apply (proj2 (proj2 (traced_strokes_have_two_points
                       line3 1%Q 8%Q 8%Q (8 # 10)%Q))
         line3 300%Z 0%Q "thin" "segments").
vm_compute. reflexivity.
Defined.

(** ** Curve polisher *)

Section polish_facts.
Context {num : Type} `{Arith num}.
Implicit Types (pts out : list (point num)).

Lemma head_lookup_total out : out ≠ [] → head out = Some (out !!! 0).
Proof. by destruct out. Qed.

(** One round of corner cutting keeps both ends. *)
Lemma chaikin_round_ends out (g : list (point num) → nat → list (point num)) :
  out ≠ [] →
  (∀ acc i, ∃ more, g acc i = acc ++ more) →
  let new_pts := foldl g [out !!! 0] (seq 0 (length out - 1))
                 ++ [default inhabitant (last out)] in
  new_pts ≠ [] ∧ head new_pts = head out ∧ last new_pts = last out.
Proof.
  intros Hne Hg new_pts. unfold new_pts.
  assert (∃ rest, foldl g [out !!! 0] (seq 0 (length out - 1))
                  = out !!! 0 :: rest) as [rest ->].
  { apply (foldl_invariant (λ acc, ∃ rest, acc = out !!! 0 :: rest)).
    - by exists [].
    - intros acc i _ [rest ->]. destruct (Hg (out !!! 0 :: rest) i) as [more ->].
      by exists (rest ++ more). }
  split; [done|]. split.
  - simpl. by rewrite head_lookup_total.
  - rewrite last_snoc. destruct (last out) eqn:Hl; [done|].
    by apply last_None in Hl.
Qed.
End polish_facts.

(** C7: smoothing keeps the first and the last point of a non-empty point
    list as they are, whatever the iteration count.  The points are compared
    with Leibniz equality on an arbitrary carrier, so no arithmetic touches
    them. *)
Theorem chaikin_keeps_endpoints {num : Type} `{Arith num}
    (pts : list (point num)) (iters : Z) :
  pts ≠ [] →
  head (chaikin_smooth pts iters) = head pts
  ∧ last (chaikin_smooth pts iters) = last pts.
Proof.
  intros Hne. unfold chaikin_smooth.
  destruct (bool_decide (iters ≤ 0)%Z || bool_decide (length pts < 3)); [done|].
  apply (foldl_invariant
           (λ out, out ≠ [] ∧ head out = head pts ∧ last out = last pts)
           _ (range 0 iters) pts); [done|].
  intros out _ _ (Hout & Hhd & Hlast).
  rewrite <- Hhd, <- Hlast.
  apply chaikin_round_ends; [done|].
  intros acc i. destruct (out !!! i) as [x0 y0], (out !!! (i + 1)) as [x1 y1].
  by eexists.
Qed.

Example chaikin_corner :
  chaikin_smooth corner 1
  = [(0, 0); (1 # 4, 0); (3 # 4, 0); (1, 1 # 4); (1, 3 # 4); (1, 1)]%Q.
Proof. vm_compute. reflexivity. Qed.

Lemma chaikin_keeps_endpoints_witness :
  head (chaikin_smooth corner 2) = head corner
  ∧ last (chaikin_smooth corner 2) = last corner.
Proof. by apply (chaikin_keeps_endpoints corner 2). Defined.
(** ** Loops whose body may raise *)

Section foldlM_facts.
Context {A B : Type}.
Implicit Types (f : A → B → option A) (l : list B) (a : A).

Lemma foldlM_app f l1 l2 a :
  foldlM f a (l1 ++ l2) = foldlM f a l1 ≫= λ a', foldlM f a' l2.
Proof.
revert a. induction l1 as [|x l1 IH]; intros a; simpl; [done|].
destruct (f a x) as [a'|]; simpl; [apply IH | done].
Qed.

(** What holds before the loop and is kept by every round that returns
    holds of the result. *)
Lemma foldlM_invariant (P : A → Prop) f l a r :
  P a → (∀ a x a', x ∈ l → P a → f a x = Some a' → P a') →
  foldlM f a l = Some r → P r.
Proof.
revert a. induction l as [|x l IH]; intros a Ha Hf Hr; simpl in Hr.
{ by injection Hr as <-. }
destruct (f a x) as [a'|] eqn:Hx; [|done]. simpl in Hr.
apply (IH a'); [|intros a1 y a2 Hy; apply Hf; by right|done].
eapply Hf; [left | done | done].
Qed.

(** The loop returns when every round does. *)
Lemma foldlM_is_Some (P : A → Prop) f l a :
  P a → (∀ a x, x ∈ l → P a → ∃ a', f a x = Some a' ∧ P a') →
  ∃ r, foldlM f a l = Some r ∧ P r.
Proof.
revert a. induction l as [|x l IH]; intros a Ha Hf; simpl.
{ by exists a. }
destruct (Hf a x) as (a' & -> & Ha'); [left | done |]. simpl.
apply IH; [done|]. intros a1 y Hy. apply Hf. by right.
Qed.

(** A loop that raises stopped in a round that raised. *)
Lemma foldlM_None (P : A → Prop) f l a :
  P a → (∀ a x a', x ∈ l → P a → f a x = Some a' → P a') →
  foldlM f a l = None → ∃ a' x, x ∈ l ∧ P a' ∧ f a' x = None.
Proof.
revert a. induction l as [|x l IH]; intros a Ha Hf Hr; simpl in Hr; [done|].
destruct (f a x) as [a'|] eqn:Hx.
- simpl in Hr. destruct (IH a') as (a1 & y & Hy & Ha1 & Hnone);
    [by eapply Hf; [left|..] | intros a1 y a2 Hy; apply Hf; by right | done |].
  exists a1, y. split; [by right | done].
- exists a, x. split; [left | done].
Qed.
End foldlM_facts.
(** ** Simplification: what the scan and the recursion do *)

Section rdp_shape.
Context {num : Type} `{Arith num}.
Implicit Types (pts : list (point num)) (keep : list bool) (eps : num).

(** [_perp_dist] raises exactly on a degenerate chord. *)
Lemma perp_dist_None (p a b : point num) :
  _perp_dist p a b = None ↔ degenerate_chord a b.
Proof.
destruct p as [x y], a as [x1 y1], b as [x2 y2].
unfold _perp_dist, degenerate_chord, py_div. simpl.
destruct ((x2 - x1 =? f_of_Z 0)%F && (y2 - y1 =? f_of_Z 0)%F).
{ split; [done | intros [? _]; done]. }
destruct (_ =? _)%F; simpl; [done|].
split; [done | intros [_ ?]; done].
Qed.

Lemma py_index_in_range pts (i : Z) :
  (0 ≤ i < Z.of_nat (length pts))%Z →
  default inhabitant (py_index pts i) = pts !!! Z.to_nat i.
Proof.
intros Hi. unfold py_index. rewrite bool_decide_eq_true_2 by lia.
by rewrite list_lookup_total_alt.
Qed.

Lemma deviation_in_range pts (i a b : Z) :
  (0 ≤ a)%Z → (a < i < b)%Z → (b < Z.of_nat (length pts))%Z →
  deviation pts i a b
  = _perp_dist (pts !!! Z.to_nat i) (pts !!! Z.to_nat a) (pts !!! Z.to_nat b).
Proof.
intros Ha Hi Hb. unfold deviation. by rewrite !py_index_in_range by lia.
Qed.

Lemma deviation_is_Some pts (i a b : Z) :
  sound_chords pts →
  (0 ≤ a)%Z → (a < i < b)%Z → (b < Z.of_nat (length pts))%Z →
  is_Some (deviation pts i a b).
Proof.
intros Hs Ha Hi Hb. rewrite deviation_in_range by done.
destruct (_perp_dist _ _ _) eqn:Hd; [done|]. exfalso.
apply perp_dist_None in Hd. revert Hd.
apply Hs; apply list_elem_of_lookup_total_2; lia.
Qed.

(** The position returned by the scan is [-1] or lies strictly between
    the two ends, whatever the comparisons answer. *)
Lemma rdp_scan_idx pts a b r :
  rdp_scan pts a b = Some r → r.2 = (-1)%Z ∨ (a < r.2 < b)%Z.
Proof.
unfold rdp_scan.
apply (foldlM_invariant (λ r : num * Z, r.2 = (-1)%Z ∨ (a < r.2 < b)%Z));
  [by left|].
intros [max_d idx] i r' Hi Hr. unfold range in Hi.
apply elem_of_seqZ in Hi. unfold scan_step.
destruct (deviation pts i a b) as [d|]; [|done]. simpl.
destruct (_ >? _)%F; intros [= <-]; [|done]. right. simpl. lia.
Qed.

(** The scan returns when no chord is degenerate. *)
Lemma rdp_scan_is_Some pts a b :
  sound_chords pts → (0 ≤ a)%Z → (b < Z.of_nat (length pts))%Z →
  is_Some (rdp_scan pts a b).
Proof.
intros Hs Ha Hb. unfold rdp_scan.
destruct (foldlM_is_Some (λ _, True) (scan_step pts a b) (range (a + 1) b)
            (f_of_Q (-1), (-1)%Z)) as (r & -> & _); [done| |done].
intros [max_d idx] i Hi _. unfold range in Hi. apply elem_of_seqZ in Hi.
unfold scan_step.
destruct (deviation_is_Some pts i a b) as [d ->]; [done|done|lia|done|].
simpl. by eexists.
Qed.

(** [rec] only raises flags. *)
Lemma rdp_rec_flags pts eps fuel : ∀ (a b : Z) keep keep',
  rdp_rec fuel pts eps a b keep = Some keep' →
  length keep' = length keep
  ∧ ∀ k, keep !! k = Some true → keep' !! k = Some true.
Proof.
induction fuel as [|fuel IH]; intros a b keep keep' Hrec; [done|].
cbn [rdp_rec] in Hrec.
destruct (rdp_scan pts a b) as [[max_d idx]|]; [|done]. simpl in Hrec.
destruct ((max_d >? eps)%F && bool_decide (idx ≠ (-1)%Z));
  [|by injection Hrec as <-].
destruct (rdp_rec fuel pts eps a idx _) as [k1|] eqn:H1; [|done].
simpl in Hrec.
apply IH in H1 as [Hl1 Hk1]. apply IH in Hrec as [Hl2 Hk2].
split; [by rewrite Hl2, Hl1, length_insert|].
intros k Hk. apply Hk2, Hk1.
destruct (decide (k = Z.to_nat idx)) as [->|Hneq].
- apply list_lookup_insert_eq. by apply lookup_lt_Some in Hk.
- by rewrite list_lookup_insert_ne.
Qed.

(** [rec] returns when no chord is degenerate: the fuel is enough. *)
Lemma rdp_rec_returns pts eps fuel : ∀ (a b : Z) keep,
  sound_chords pts →
  (0 ≤ a < b)%Z → (b < Z.of_nat (length pts))%Z →
  (b - a ≤ Z.of_nat fuel)%Z →
  is_Some (rdp_rec fuel pts eps a b keep).
Proof.
induction fuel as [|fuel IH]; intros a b keep Hs Hab Hb Hfuel; [lia|].
cbn [rdp_rec].
destruct (rdp_scan_is_Some pts a b) as [[max_d idx] Hscan]; [done|lia|done|].
rewrite Hscan. simpl.
destruct ((max_d >? eps)%F && bool_decide (idx ≠ (-1)%Z)) eqn:Hgo; [|done].
apply andb_true_iff in Hgo as [_ Hne]. apply bool_decide_eq_true in Hne.
destruct (rdp_scan_idx pts a b _ Hscan) as [?|Hidx]; [done|]. simpl in Hidx.
destruct (IH a idx (<[Z.to_nat idx := true]> keep)) as [k1 ->]; [done|lia..|].
simpl. apply IH; [done|lia..].
Qed.

End rdp_shape.

Section rdp_facts.
Context {num : Type} `{FloatOrder num}.
Implicit Types (pts : list (point num)) (keep : list bool) (eps : num).

Lemma zero_number : f_number (f_of_Z 0 : num).
Proof. exact (proj2 (fo_leb_number _ _ fo_neg_one_le_zero)). Qed.

Lemma neg_one_number : f_number (f_of_Q (-1) : num).
Proof. exact (proj1 (fo_leb_number _ _ fo_neg_one_le_zero)). Qed.

(** The scan returns an upper bound of the deviations it has seen, as
    long as they are numbers. *)
Lemma scan_fold pts a b (l : list Z) (m0 : num) (i0 : Z) r :
  f_number m0 →
  (∀ i d, i ∈ l → deviation pts i a b = Some d → f_number d) →
  foldlM (scan_step pts a b) (m0, i0) l = Some r →
  (∀ i, i ∈ l → ∃ d, deviation pts i a b = Some d ∧ f_leb d r.1 = true)
  ∧ f_leb m0 r.1 = true
  ∧ (r = (m0, i0) ∨ r.2 ∈ l).
Proof.
revert m0 i0. induction l as [|x l IH]; intros m0 i0 Hm0 Hnum Hr; simpl in Hr.
{ injection Hr as <-. split; [intros i Hi; by apply elem_of_nil in Hi|].
  split; [done | by left]. }
destruct (deviation pts x a b) as [d|] eqn:Hd; [|done]. simpl in Hr.
assert (f_number d) as Hnd by (eapply Hnum; [left | done]).
assert (∀ i d', i ∈ l → deviation pts i a b = Some d' → f_number d') as Hnum'.
{ intros i d' Hi. apply Hnum. by right. }
destruct (d >? m0)%F eqn:Hgt.
- destruct (IH d x Hnd Hnum' Hr) as (Hall & Hle & Hidx).
  split; [|split].
  + intros i Hi. apply elem_of_cons in Hi as [->|Hi]; [|by apply Hall].
    by exists d.
  + eapply fo_leb_trans; [by apply fo_lt_le | done].
  + right. destruct Hidx as [->|Hin]; [left | by right].
- destruct (IH m0 i0 Hm0 Hnum' Hr) as (Hall & Hle & Hidx).
  split; [|split].
  + intros i Hi. apply elem_of_cons in Hi as [->|Hi]; [|by apply Hall].
    exists d. split; [done|].
    apply (fo_leb_trans _ m0); [by apply fo_not_gt_le | done].
  + done.
  + destruct Hidx as [Hsame|Hin]; [by left | right; by right].
Qed.

Lemma rdp_scan_spec pts a b r :
  (∀ i d, (a < i < b)%Z → deviation pts i a b = Some d → f_number d) →
  rdp_scan pts a b = Some r →
  (∀ i, (a < i < b)%Z →
        ∃ d, deviation pts i a b = Some d ∧ f_leb d r.1 = true)
  ∧ ((r.2 = (-1)%Z ∧ r.1 = f_of_Q (-1)) ∨ (a < r.2 < b)%Z).
Proof.
intros Hnum Hr. unfold rdp_scan in Hr.
apply scan_fold in Hr as (Hall & _ & Hidx); [|apply neg_one_number|].
2: { intros i d Hi. apply Hnum. apply elem_of_seqZ in Hi. lia. }
split.
- intros i Hi. apply Hall. apply elem_of_seqZ. lia.
- destruct Hidx as [->|Hin]; [by left|]. right.
  apply elem_of_seqZ in Hin. lia.
Qed.

(** With [eps > 0] in force and [eps] a number, the initial bound [-1.0]
    is below [eps]. *)
Lemma neg_one_le_eps eps :
  f_number eps → f_leb eps (f_of_Z 0) = false →
  f_leb (f_of_Q (-1)) eps = true.
Proof.
intros Hn Heps. apply fo_not_gt_le; [apply neg_one_number | done |].
destruct (f_ltb eps (f_of_Q (-1))) eqn:Hlt; [|done].
rewrite <- Heps. symmetry.
eapply fo_leb_trans; [by apply fo_lt_le | apply fo_neg_one_le_zero].
Qed.

Lemma rdp_rec_spec pts eps fuel : ∀ (a b : Z) keep keep',
  rdp_rec fuel pts eps a b keep = Some keep' →
  f_leb eps (f_of_Z 0) = false → f_number eps → number_deviations pts →
  (0 ≤ a < b)%Z → (b < Z.of_nat (length keep))%Z →
  (b < Z.of_nat (length pts))%Z →
  keep !! Z.to_nat a = Some true → keep !! Z.to_nat b = Some true →
  (∀ k, (a < k < b)%Z → keep !! Z.to_nat k = Some false) →
  length keep' = length keep
  ∧ (∀ k : nat, ¬ (a < Z.of_nat k < b)%Z → keep' !! k = keep !! k)
  ∧ (∀ i, (a < i < b)%Z → keep' !! Z.to_nat i = Some false →
          chord_bounded pts eps keep' a b i).
Proof.
induction fuel as [|fuel IH];
  intros a b keep keep' Hrec Heps Hneps Hnum Hab Hb Hbp Ha Hbk Hmid; [done|].
cbn [rdp_rec] in Hrec.
destruct (rdp_scan pts a b) as [[max_d idx]|] eqn:Hscan; [|done].
simpl in Hrec.
edestruct (rdp_scan_spec pts a b) as [Hdev Hidx]; [|exact Hscan|].
{ intros i d Hi. rewrite deviation_in_range by lia.
  apply Hnum; lia. }
simpl in Hdev, Hidx.
destruct ((max_d >? eps)%F && bool_decide (idx ≠ (-1)%Z)) eqn:Hcond.
- apply andb_prop in Hcond as [_ Hne]. apply bool_decide_eq_true in Hne.
  destruct Hidx as [[? _]|Hidx]; [done|].
  set (keep1 := <[Z.to_nat idx := true]> keep) in *.
  assert (length keep1 = length keep) as Hl1 by apply length_insert.
  assert (∀ k : nat, k ≠ Z.to_nat idx → keep1 !! k = keep !! k) as Hk1.
  { intros k Hk. unfold keep1. by rewrite list_lookup_insert_ne. }
  assert (keep1 !! Z.to_nat idx = Some true) as Hidx1.
  { unfold keep1. apply list_lookup_insert_eq. lia. }
  destruct (rdp_rec fuel pts eps a idx keep1) as [keep2|] eqn:H2; [|done].
  simpl in Hrec.
  destruct (IH a idx keep1 keep2 H2) as (Hl2 & Hout2 & Hin2);
    try done; try lia.
  { rewrite Hk1 by lia. done. }
  { intros k Hk. rewrite Hk1 by lia. apply Hmid. lia. }
  destruct (IH idx b keep2 keep' Hrec) as (Hl3 & Hout3 & Hin3);
    try done; try lia.
  { rewrite Hout2 by lia. done. }
  { rewrite Hout2, Hk1 by lia. done. }
  { intros k Hk. rewrite Hout2, Hk1 by lia. apply Hmid. lia. }
  split; [lia|]. split.
  + intros k Hk. rewrite Hout3, Hout2, Hk1 by lia. done.
  + intros i Hi Hfalse.
    assert (keep' !! Z.to_nat idx = Some true) as Hidx3.
    { rewrite Hout3, Hout2 by lia. done. }
    destruct (Z.lt_trichotomy i idx) as [Hlt|[->|Hgt]].
    * destruct (Hin2 i) as (a' & b' & Ha' & Hb' & Hka & Hkb & Hkm & Hd);
        [lia | by rewrite <- Hout3 by lia |].
      exists a', b'. split; [lia|]. split; [lia|].
      rewrite !Hout3 by lia. split; [done|]. split; [done|]. split; [|done].
      intros k Hk. rewrite Hout3 by lia. by apply Hkm.
    * congruence.
    * destruct (Hin3 i) as (a' & b' & Ha' & Hb' & Hka & Hkb & Hkm & Hd);
        [lia | done |].
      exists a', b'. split; [lia|]. split; [lia|]. done.
- injection Hrec as <-. split; [done|]. split; [done|].
  intros i Hi _. exists a, b. split; [lia|]. split; [lia|].
  split; [done|]. split; [done|]. split; [done|].
  destruct (Hdev i Hi) as (d & Hd & Hle). exists d. split; [done|].
  eapply fo_leb_trans; [done|].
  apply andb_false_iff in Hcond as [Hle'|Hneg].
  + apply fo_not_gt_le; [|done|done].
    exact (proj2 (fo_leb_number _ _ Hle)).
  + apply bool_decide_eq_false in Hneg.
    destruct Hidx as [[_ ->]|Hidx].
    * by apply neg_one_le_eps.
    * exfalso. apply Hneg. lia.
Qed.
End rdp_facts.

Lemma f_leb_refl {num : Type} `{ArithOrder num} (x : num) : f_leb x x = true.
Proof.
destruct (f_ltb x x) eqn:Hlt; [by apply f_lt_le | by apply f_not_gt_le].
Qed.
(** ** The comparison laws on binary64 *)

Section spec_float_order.
Import SpecFloat.
Implicit Types (a b c : spec_float).

Ltac cmp_cases :=
  repeat match goal with
  | |- context [Z.compare ?x ?y] => destruct (Z.compare_spec x y); subst
  | |- context [Pos.compare_cont Eq ?x ?y] =>
      change (Pos.compare_cont Eq x y) with (Pos.compare x y);
      destruct (Pos.compare_spec x y); subst
  end; simpl; try done; try lia.

Lemma SFleb_trans a b c :
  SFleb a b = true → SFleb b c = true → SFleb a c = true.
Proof.
unfold SFleb, SFcompare.
destruct a as [[]|[]| |[] ma ea], b as [[]|[]| |[] mb eb],
         c as [[]|[]| |[] mc ec]; try done; cmp_cases.
Qed.

(** Only NaN fails [x <= x], and no comparison with NaN holds. *)
Lemma SFleb_number a b :
  SFleb a b = true → SFleb a a = true ∧ SFleb b b = true.
Proof.
unfold SFleb, SFcompare.
destruct a as [[]|[]| |[] ma ea], b as [[]|[]| |[] mb eb]; try done;
  intros _; split; cmp_cases.
Qed.

Lemma SFleb_total a b :
  SFleb a a = true → SFleb b b = true → SFltb b a = false → SFleb a b = true.
Proof.
unfold SFleb, SFltb, SFcompare.
destruct a as [[]|[]| |[] ma ea], b as [[]|[]| |[] mb eb]; try done;
  intros _ _; cmp_cases.
Qed.

Lemma SFltb_leb a b : SFltb a b = true → SFleb a b = true.
Proof.
unfold SFleb, SFltb, SFcompare.
destruct a as [[]|[]| |[] ma ea], b as [[]|[]| |[] mb eb]; try done; cmp_cases.
Qed.
End spec_float_order.

(** The comparisons of binary64 obey [FloatOrder]: the primitive
    comparisons are those of the specification floats. *)
#[export] Instance F64_float_order : FloatOrder PrimFloat.float.
Proof.
split; unfold f_number; simpl.
- intros x y z. rewrite !FloatAxioms.leb_spec. apply SFleb_trans.
- intros x y. rewrite !FloatAxioms.leb_spec. apply SFleb_number.
- intros x y. rewrite !FloatAxioms.leb_spec, FloatAxioms.ltb_spec.
  apply SFleb_total.
- intros x y. rewrite FloatAxioms.ltb_spec, FloatAxioms.leb_spec.
  apply SFltb_leb.
- vm_compute. reflexivity.
Qed.

(** NaN is not a number, and [math.hypot] of the examples. *)
Example F64_numbers :
  f_leb F64.nan F64.nan = false
  ∧ f_leb F64.infinity F64.infinity = true
  ∧ f_hypot (f_of_Z 3) (f_of_Z 4) = (f_of_Z 5 : PrimFloat.float)
  ∧ f_hypot (f_of_Z (10 ^ 200)) (f_of_Z 0) = (f_of_Z (10 ^ 200) : PrimFloat.float)
  ∧ f_hypot F64.nan F64.infinity = F64.infinity
  ∧ f_leb (f_hypot F64.nan (f_of_Z 1)) (f_hypot F64.nan (f_of_Z 1)) = false.
Proof. repeat split; vm_compute; reflexivity. Qed.

Section select_facts.
Context {A : Type}.
Implicit Types (l : list A) (keep : list bool).

Lemma select_app keep1 keep2 l1 l2 :
  length l1 = length keep1 →
  select (keep1 ++ keep2) (l1 ++ l2) = select keep1 l1 ++ select keep2 l2.
Proof.
intros Hlen. unfold select. rewrite zip_with_app by done.
by rewrite bind_app.
Qed.

Lemma select_all l : select (replicate (length l) true) l = l.
Proof.
induction l as [|x l IH]; [done|]. simpl. unfold select in *. simpl.
f_equal. exact IH.
Qed.

Lemma select_head keep l :
  l ≠ [] → keep !! 0 = Some true → head (select keep l) = head l.
Proof. intros Hl Hk. destruct l as [|x l], keep as [|k keep]; by simplify_eq/=. Qed.

Lemma select_last keep l :
  l ≠ [] → length keep = length l → keep !! (length l - 1) = Some true →
  last (select keep l) = last l.
Proof.
intros Hl Hlen Hk.
destruct (exists_last Hl) as (l1 & x & ->).
rewrite length_app in Hlen, Hk. simpl in *.
replace (length l1 + 1 - 1) with (length l1) in Hk by lia.
rewrite <- (take_drop (length l1) keep).
assert (drop (length l1) keep = [true]) as ->.
{ apply list_eq. intros [|i]; rewrite lookup_drop.
  - by rewrite Nat.add_0_r.
  - simpl. apply lookup_ge_None. lia. }
rewrite select_app by (rewrite length_take; lia).
unfold select at 2. simpl. by rewrite !last_snoc.
Qed.
End select_facts.

Section rdp_simplify_facts.
Context {num : Type} `{Arith num}.
Implicit Types (pts : list (point num)) (keep : list bool) (eps : num).

(** The flags before the recursion: both ends and nothing else. *)
Lemma rdp_keep_init pts :
  let n := length pts in
  let keep0 := <[n - 1 := true]> (<[0 := true]> (replicate n false)) in
  3 ≤ n →
  length keep0 = n ∧ keep0 !! 0 = Some true ∧ keep0 !! (n - 1) = Some true
  ∧ ∀ k, 0 < k < n - 1 → keep0 !! k = Some false.
Proof.
intros n keep0 Hn. split; [|split; [|split]].
- unfold keep0. by rewrite !length_insert, length_replicate.
- unfold keep0. rewrite list_lookup_insert_ne by lia.
  apply list_lookup_insert_eq. rewrite length_replicate. lia.
- unfold keep0. apply list_lookup_insert_eq.
  rewrite length_insert, length_replicate. lia.
- intros k Hk. unfold keep0. rewrite !list_lookup_insert_ne by lia.
  apply lookup_replicate_2. lia.
Qed.

(** Simplification returns when no chord is degenerate. *)
Lemma rdp_simplify_returns pts eps :
  sound_chords pts → is_Some (rdp_simplify pts eps).
Proof.
intros Hs. unfold rdp_simplify.
destruct ((eps <=? f_of_Z 0)%F || bool_decide (length pts < 3)) eqn:Hguard;
  [done|].
apply orb_false_iff in Hguard as [_ Hlen]. apply bool_decide_eq_false in Hlen.
unfold rdp_keep.
destruct (rdp_rec_returns pts eps (length pts) 0 (Z.of_nat (length pts) - 1)
            (<[length pts - 1 := true]>
               (<[0 := true]> (replicate (length pts) false))))
  as [keep ->]; [done|lia..|].
done.
Qed.

(** What simplification returns is selected by flags that are set at both
    ends. *)
Lemma rdp_simplify_keep pts eps out :
  rdp_simplify pts eps = Some out →
  ∃ keep, length keep = length pts ∧ out = select keep pts
    ∧ (pts ≠ [] →
       keep !! 0 = Some true ∧ keep !! (length pts - 1) = Some true)
    ∧ ((eps <=? f_of_Z 0)%F || bool_decide (length pts < 3) = true
       ∧ keep = replicate (length pts) true
       ∨ (eps <=? f_of_Z 0)%F = false ∧ 3 ≤ length pts
         ∧ rdp_keep pts eps = Some keep).
Proof.
unfold rdp_simplify.
destruct ((eps <=? f_of_Z 0)%F || bool_decide (length pts < 3)) eqn:Hguard.
{ intros [= <-]. exists (replicate (length pts) true).
  split; [by rewrite length_replicate|]. split; [by rewrite select_all|].
  split; [|by left]. intros Hne. destruct pts as [|p pts]; [done|]. simpl.
  split; [done|]. rewrite Nat.sub_0_r.
  apply (lookup_replicate_2 (S (length pts))). lia. }
apply orb_false_iff in Hguard as [Heps Hlen].
apply bool_decide_eq_false in Hlen.
destruct (rdp_keep pts eps) as [keep|] eqn:Hkeep; [|done].
intros [= <-]. exists keep.
destruct (rdp_keep_init pts) as (Hl0 & Hfirst0 & Hlast0 & _); [lia|].
unfold rdp_keep in Hkeep.
destruct (rdp_rec_flags _ _ _ _ _ _ _ Hkeep) as [Hl Hmono].
split; [lia|]. split; [done|]. split.
- intros _. split; by apply Hmono.
- right. split; [done|]. split; [lia | done].
Qed.
End rdp_simplify_facts.


#[export] Instance Q_arith_order : ArithOrder Q.
Proof.
split; simpl.
- intros x y z Hxy Hyz. apply Qle_bool_iff in Hxy, Hyz.
  apply Qle_bool_iff. by apply (Qle_trans x y z).
- intros x y Hlt. by apply negb_false_iff in Hlt.
- intros x y Hlt. apply negb_true_iff in Hlt.
  apply Qle_bool_iff. apply Qlt_le_weak, Qnot_le_lt.
  intros Hle. apply Qle_bool_iff in Hle. congruence.
- reflexivity.
Qed.

(** Every rational is a number, and no chord of rationals is degenerate:
    a sum of two squares is zero only when both are. *)
Lemma Q_number (x : Q) : f_number x.
Proof. apply Qle_bool_iff, Qle_refl. Qed.

#[export] Instance Q_float_order : FloatOrder Q.
Proof.
split.
- apply f_leb_trans.
- intros x y _. split; apply Q_number.
- intros x y _ _. apply f_not_gt_le.
- apply f_lt_le.
- apply f_neg_one_le_zero.
Qed.

Lemma Q_squares_zero (a b : Q) : a * a + b * b == 0 → a == 0 ∧ b == 0.
Proof.
destruct a as [na da], b as [nb db]. unfold Qeq. simpl. intros Hz. nia.
Qed.

Lemma Q_sound_chords (pts : list (point Q)) : sound_chords pts.
Proof.
intros [x1 y1] [x2 y2] _ _. unfold degenerate_chord. simpl.
set (dx := Qred (x2 - x1)). set (dy := Qred (y2 - y1)).
intros [Hne Hz]. apply Qeq_bool_iff in Hz.
rewrite !Qred_correct in Hz. apply Q_squares_zero in Hz as [Hx Hy].
apply Qeq_bool_iff in Hx, Hy.
change (inject_Z 0) with 0%Q in Hne. by rewrite Hx, Hy in Hne.
Qed.

Example rdp_ripple :
  rdp_simplify ripple (1 # 10) = Some [(0, 0); (4, 0)]%Q.
Proof. vm_compute. reflexivity. Qed.

Example rdp_bend :
  rdp_simplify bend (f_of_Q 0.1) = Some [(f_of_Z 0, f_of_Z 0); (f_of_Z 2, f_of_Z 0)].
Proof. vm_compute. reflexivity. Qed.

Lemma bend_number_deviations : number_deviations bend.
Proof.
intros i a b d Hi Hb. simpl in Hb.
assert (a = 0 ∧ i = 1 ∧ b = 2) as (-> & -> & ->) by lia.
vm_compute. intros [= <-]. reflexivity.
Qed.



(** ** Route planner *)

Section py_list_facts.
Context {A : Type}.
Implicit Types (l : list A).

Lemma py_pop_Permutation l i x l' : py_pop l i = Some (x, l') → l ≡ₚ x :: l'.
Proof.
unfold py_pop. case_bool_decide; [|done].
set (j := if bool_decide (i < 0)%Z then _ else _).
destruct (l !! Z.to_nat j) as [y|] eqn:Hy; [|done]. simpl.
intros [= <- <-]. by apply delete_Permutation.
Qed.

Lemma py_pop_length l i x l' : py_pop l i = Some (x, l') → length l = S (length l').
Proof. intros Hpop. by rewrite (py_pop_Permutation _ _ _ _ Hpop). Qed.

Lemma py_pop_is_Some l i :
  (- Z.of_nat (length l) ≤ i < Z.of_nat (length l))%Z → is_Some (py_pop l i).
Proof.
intros Hi. unfold py_pop.
set (j := if bool_decide (i < 0)%Z then _ else _).
assert (0 ≤ j < Z.of_nat (length l))%Z as Hj.
{ unfold j. case_bool_decide; lia. }
rewrite bool_decide_eq_true_2 by done.
destruct (lookup_lt_is_Some_2 l (Z.to_nat j)) as [x ->]; [lia|]. done.
Qed.

Lemma py_index_last l : l ≠ [] → is_Some (py_index l (-1)).
Proof.
intros Hl. unfold py_index.
assert (0 < length l) by (destruct l; [done | simpl; lia]).
rewrite bool_decide_eq_false_2 by lia.
rewrite bool_decide_eq_true_2 by lia.
apply lookup_lt_is_Some. lia.
Qed.

Lemma py_index_first l : l ≠ [] → is_Some (py_index l 0).
Proof.
intros Hl. unfold py_index.
assert (0 < length l) by (destruct l; [done | simpl; lia]).
rewrite bool_decide_eq_true_2 by lia.
apply lookup_lt_is_Some. lia.
Qed.
End py_list_facts.

Section sort_facts.
Context {K A : Type} (lt : K → K → bool).

Lemma insert_by_Permutation (x : K * A) l : insert_by lt x l ≡ₚ x :: l.
Proof.
induction l as [|y l IH]; simpl; [done|].
destruct (lt y.1 x.1); [|done].
rewrite IH. apply Permutation_swap.
Qed.

(** Sorting rearranges, and nothing else. *)
Lemma py_sort_by_Permutation (l : list (K * A)) : py_sort_by lt l ≡ₚ l.*2.
Proof.
unfold py_sort_by. apply fmap_Permutation.
induction l as [|x l IH]; simpl; [done|].
by rewrite insert_by_Permutation, IH.
Qed.
End sort_facts.

Section route_facts.
Context {num : Type} `{Arith num}.
Implicit Types (st : Stroke num) (strokes remaining ordered : list (Stroke num)).

Let kept_or_reversed := λ o s : Stroke num, o = s ∨ pts o = reverse (pts s).

Lemma pick_best_range (costs : list (num * num)) :
  (-1 ≤ best_i (pick_best costs) < Z.of_nat (length costs))%Z
  ∨ (costs = [] ∧ best_i (pick_best costs) = (-1)%Z).
Proof.
destruct costs as [|c costs]; [by right|]. left.
unfold pick_best. set (l := c :: costs).
apply (foldl_invariant (λ b, (-1 ≤ best_i b < Z.of_nat (length l))%Z)).
{ simpl. lia. }
intros b [i [cost_f cost_r]] Hin Hb.
apply elem_of_lookup_imap in Hin as (i' & y & Heq & Hlk).
apply lookup_lt_Some in Hlk. simplify_eq.
unfold l in *. repeat case_match; simpl in *; lia.
Qed.

Lemma stroke_endpoints_is_Some st : pts st ≠ [] → is_Some (stroke_endpoints st).
Proof.
intros Hne. unfold stroke_endpoints.
destruct (py_index_first _ Hne) as [a ->], (py_index_last _ Hne) as [b ->].
done.
Qed.

Lemma reorder_loop_unfold cost fuel remaining ordered cur_pt :
  remaining ≠ [] →
  reorder_loop cost (S fuel) remaining ordered cur_pt
  = (costs ← mapM (λ st, '(a, b) ← stroke_endpoints st;
                         Some (cost cur_pt a, cost cur_pt b)) remaining;
     let b := pick_best costs in
     '(nxt, remaining) ← py_pop remaining (best_i b);
     let nxt := if best_rev b then mkStroke (reverse (pts nxt)) else nxt in
     cur_pt ← py_index (pts nxt) (-1);
     reorder_loop cost fuel remaining (ordered ++ [nxt]) cur_pt).
Proof. by destruct remaining. Qed.

(** The greedy loop hands out every remaining stroke once, as it is or
    reversed, after what was already ordered. *)
Lemma reorder_loop_sound cost fuel : ∀ remaining ordered cur_pt out,
  reorder_loop cost fuel remaining ordered cur_pt = Some out →
  ∃ l out', out = ordered ++ out' ∧ remaining ≡ₚ l
            ∧ Forall2 kept_or_reversed out' l.
Proof.
induction fuel as [|fuel IH]; intros remaining ordered cur_pt out Hrun.
- destruct remaining; simplify_eq/=. exists [], [].
  rewrite app_nil_r. split_and!; [done | done | constructor].
- destruct remaining as [|s0 rest].
  { simplify_eq/=. exists [], [].
    rewrite app_nil_r. split_and!; [done | done | constructor]. }
  set (remaining := s0 :: rest) in *.
  rewrite reorder_loop_unfold in Hrun by done. cbn zeta in Hrun.
  destruct (mapM _ remaining) as [costs|]; [|done]. simpl in Hrun.
  destruct (py_pop remaining _) as [[nxt remaining']|] eqn:Hpop; [|done].
  simpl in Hrun.
  set (nxt' := if best_rev (pick_best costs)
               then mkStroke (reverse (pts nxt)) else nxt) in *.
  destruct (py_index (pts nxt') (-1)) as [cur_pt'|]; [|done]. simpl in Hrun.
  destruct (IH _ _ _ _ Hrun) as (l & out' & -> & Hperm & Hall).
  exists (nxt :: l), (nxt' :: out'). split; [by rewrite <- app_assoc|].
  split.
  + rewrite (py_pop_Permutation _ _ _ _ Hpop). by constructor.
  + constructor; [|done]. unfold kept_or_reversed, nxt'.
    destruct (best_rev _); [by right | by left].
Qed.

(** The loop cannot raise on strokes that have points, and never runs out
    of fuel. *)
Lemma reorder_loop_total cost fuel : ∀ remaining ordered cur_pt,
  Forall (λ s, pts s ≠ []) remaining → length remaining ≤ fuel →
  is_Some (reorder_loop cost fuel remaining ordered cur_pt).
Proof.
induction fuel as [|fuel IH]; intros remaining ordered cur_pt Hne Hfuel.
- destruct remaining; [done | simpl in Hfuel; lia].
- destruct remaining as [|s0 rest]; [done|].
  set (remaining := s0 :: rest) in *.
  rewrite reorder_loop_unfold by done. cbn zeta.
  destruct (mapM_is_Some_2
              (λ st, '(a, b) ← stroke_endpoints st;
                     Some (cost cur_pt a, cost cur_pt b)) remaining)
    as [costs Hcosts].
  { eapply Forall_impl; [done|]. intros st Hst. simpl.
    destruct (stroke_endpoints_is_Some st Hst) as [[a b] ->]. done. }
  rewrite Hcosts. simpl.
  pose proof (length_mapM _ _ _ Hcosts) as Hlen.
  destruct (py_pop_is_Some remaining (best_i (pick_best costs)))
    as [[nxt remaining'] Hpop].
  { destruct (pick_best_range costs) as [Hr|[-> _]].
    - assert (0 < length remaining) by (simpl; lia). lia.
    - done. }
  rewrite Hpop. simpl.
  pose proof (py_pop_Permutation _ _ _ _ Hpop) as Hperm.
  rewrite Hperm in Hne. apply Forall_cons in Hne as [Hnxt Hne'].
  set (nxt' := if best_rev (pick_best costs)
               then mkStroke (reverse (pts nxt)) else nxt).
  assert (pts nxt' ≠ []) as Hnxt'.
  { unfold nxt'. destruct (best_rev _); [|done]. simpl.
    intros Hr. apply Hnxt.
    apply (f_equal reverse) in Hr. by rewrite reverse_involutive in Hr. }
  destruct (py_index_last _ Hnxt') as [cur_pt' ->]. simpl.
  apply IH; [done|]. apply py_pop_length in Hpop. lia.
Qed.

(** Both reorderings share the prologue: key, sort, pop the first. *)
Lemma reorder_prologue {K} (lt : K → K → bool) (key : Stroke num → option K)
    strokes keyed :
  mapM (λ s, k ← key s; Some (k, s)) strokes = Some keyed →
  py_sort_by lt keyed ≡ₚ strokes.
Proof.
intros Hk. rewrite py_sort_by_Permutation.
assert (keyed.*2 = strokes) as ->; [|done].
apply mapM_Some_1 in Hk. induction Hk as [|s ks strokes keyed Hs _ IH]; [done|].
simpl. f_equal; [|done].
destruct (key s); by simplify_eq/=.
Qed.
End route_facts.

Section reorder_claim.
Context {num : Type} `{Arith num}.
Implicit Types (st : Stroke num) (strokes : list (Stroke num)).

Lemma py_min_is_Some (xs : list num) : xs ≠ [] → is_Some (py_min xs).
Proof. by destruct xs. Qed.

Lemma py_max_is_Some (xs : list num) : xs ≠ [] → is_Some (py_max xs).
Proof. by destruct xs. Qed.

Lemma stroke_bbox_x_is_Some st : pts st ≠ [] → is_Some (stroke_bbox_x st).
Proof.
intros Hne. unfold stroke_bbox_x.
assert (fst <$> pts st ≠ []) as Hxs by by destruct (pts st).
destruct (py_min_is_Some _ Hxs) as [lo ->], (py_max_is_Some _ Hxs) as [hi ->].
done.
Qed.

Lemma stroke_bbox_y_is_Some st : pts st ≠ [] → is_Some (stroke_bbox_y st).
Proof.
intros Hne. unfold stroke_bbox_y.
assert (snd <$> pts st ≠ []) as Hys by by destruct (pts st).
destruct (py_min_is_Some _ Hys) as [lo ->], (py_max_is_Some _ Hys) as [hi ->].
done.
Qed.

Lemma same_strokes_nil : same_strokes_up_to_reversal (@nil (Stroke num)) [].
Proof. exists []. split; [done | constructor]. Qed.

(** After the sort: pop the first stroke and run the greedy loop. *)
Lemma reorder_epilogue cost (sorted strokes : list (Stroke num)) :
  sorted ≡ₚ strokes → strokes ≠ [] → Forall (λ s, pts s ≠ []) strokes →
  ∃ out,
    ('(cur, remaining) ← py_pop sorted 0;
     cur_pt ← py_index (pts cur) (-1);
     reorder_loop cost (length remaining) remaining [cur] cur_pt) = Some out
    ∧ same_strokes_up_to_reversal strokes out.
Proof.
intros Hperm Hnonnil Hne. rewrite <- Hperm in Hne.
assert (0 < length sorted) as Hlen.
{ rewrite Hperm. destruct strokes; [done | simpl; lia]. }
destruct (py_pop_is_Some sorted 0) as [[cur remaining] Hpop]; [lia|].
rewrite Hpop. simpl.
pose proof (py_pop_Permutation _ _ _ _ Hpop) as Hp.
rewrite Hp in Hne. apply Forall_cons in Hne as [Hcur Hrem].
destruct (py_index_last _ Hcur) as [cur_pt ->]. simpl.
destruct (reorder_loop_total cost (length remaining) remaining [cur] cur_pt)
  as [out Hout]; [done | done |].
exists out. split; [done|].
destruct (reorder_loop_sound _ _ _ _ _ _ Hout) as (l & out' & -> & Hl & Hall).
exists (cur :: l). split.
- by rewrite <- Hperm, Hp, Hl.
- simpl. constructor; [by left | done].
Qed.
End reorder_claim.

(** C6: both reorderings return the input strokes, each exactly once, each
    with its point sequence as it was or reversed.  (A stroke without
    points makes the bounding-box key raise; strokes have at least two.) *)
Theorem reorder_keeps_strokes {num : Type} `{Arith num}
    (strokes : list (Stroke num)) (lr_penalty up_penalty left_penalty : num) :
  Forall (λ s, pts s ≠ []) strokes →
  ∃ out_lr out_tlbr,
    reorder_strokes_lr strokes lr_penalty = Some out_lr
    ∧ reorder_strokes_tlbr strokes up_penalty left_penalty = Some out_tlbr
    ∧ same_strokes_up_to_reversal strokes out_lr
    ∧ same_strokes_up_to_reversal strokes out_tlbr.
Proof.
intros Hne.
destruct strokes as [|s0 rest].
{ exists [], []. split_and!; try done; apply same_strokes_nil. }
set (strokes := s0 :: rest) in *.
assert (strokes ≠ []) as Hnonnil by done.
assert (∃ out, reorder_strokes_lr strokes lr_penalty = Some out
               ∧ same_strokes_up_to_reversal strokes out) as (o1 & Ho1 & Hs1).
{ unfold reorder_strokes_lr. fold strokes.
  destruct (mapM_is_Some_2
              (λ s, bbx ← stroke_bbox_x s; Some (bbx.1, s)) strokes)
    as [keyed Hkeyed].
  { eapply Forall_impl; [done|]. intros st Hst. simpl.
    destruct (stroke_bbox_x_is_Some st Hst) as [bx ->]. done. }
  change (mapM _ strokes) with
    (mapM (λ s, bbx ← stroke_bbox_x s; Some (bbx.1, s)) strokes).
  rewrite Hkeyed. simpl.
  apply reorder_epilogue; [|done..].
  apply (reorder_prologue f_ltb (λ s, bbx ← stroke_bbox_x s; Some bbx.1)).
  rewrite <- Hkeyed. apply mapM_ext. intros s.
  by destruct (stroke_bbox_x s). }
assert (∃ out, reorder_strokes_tlbr strokes up_penalty left_penalty = Some out
               ∧ same_strokes_up_to_reversal strokes out) as (o2 & Ho2 & Hs2).
{ unfold reorder_strokes_tlbr. fold strokes.
  destruct (mapM_is_Some_2
              (λ s, bby ← stroke_bbox_y s; bbx ← stroke_bbox_x s;
                    Some ((- bby.2, bbx.1)%F, s)) strokes)
    as [keyed Hkeyed].
  { eapply Forall_impl; [done|]. intros st Hst. simpl.
    destruct (stroke_bbox_y_is_Some st Hst) as [bby ->].
    destruct (stroke_bbox_x_is_Some st Hst) as [bbx ->]. done. }
  change (mapM _ strokes) with
    (mapM (λ s, bby ← stroke_bbox_y s; bbx ← stroke_bbox_x s;
                Some ((- bby.2, bbx.1)%F, s)) strokes).
  rewrite Hkeyed. simpl.
  apply reorder_epilogue; [|done..].
  apply (reorder_prologue pair_ltb
           (λ s, bby ← stroke_bbox_y s; bbx ← stroke_bbox_x s;
                 Some (- bby.2, bbx.1)%F)).
  rewrite <- Hkeyed. apply mapM_ext. intros s.
  destruct (stroke_bbox_y s); [|done]. simpl. by destruct (stroke_bbox_x s). }
by exists o1, o2.
Qed.

Example reorder_lr_three :
  reorder_strokes_lr three_strokes 2%Q
  = Some [mkStroke [(0, 0); (0, 1)]%Q; mkStroke [(1, 0); (3, 0)]%Q;
          mkStroke [(5, 0); (6, 0)]%Q].
Proof. vm_compute. reflexivity. Qed.

Lemma reorder_keeps_strokes_witness :
  ∃ out_lr out_tlbr,
    reorder_strokes_lr three_strokes 2%Q = Some out_lr
    ∧ reorder_strokes_tlbr three_strokes 1%Q 1%Q = Some out_tlbr
    ∧ same_strokes_up_to_reversal three_strokes out_lr
    ∧ same_strokes_up_to_reversal three_strokes out_tlbr.
Proof.
apply (reorder_keeps_strokes three_strokes 2%Q 1%Q 1%Q).
repeat constructor; discriminate.
Defined.

(** C10: stitching and bridging are the same function of the stroke list
    and the threshold: same merge test, same bridging point, same result
    (and the same exception) on every input. *)
Theorem stitch_bridge_equal {num : Type} `{Arith num}
    (strokes : list (Stroke num)) (threshold : num) :
  stitch_strokes strokes threshold = bridge_strokes strokes threshold.
Proof.
unfold stitch_strokes, bridge_strokes.
destruct ((threshold <=? f_of_Z 0)%F || bool_decide (strokes = [])); [done|].
destruct (py_index strokes 0) as [st0|]; [|done]. simpl.
assert (∀ (l : list (Stroke num)) acc,
          foldl (stitch_step threshold) acc l
          = foldl (bridge_step threshold) acc l) as ->; [|done].
induction l as [|st l IH]; intros acc; simpl; [done|].
rewrite IH. f_equal.
Qed.

(** Scenario C: a 0.4 gap is merged at threshold 0.5 and kept at 0.3. *)
Example stitch_gap_merged :
  stitch_strokes gap_strokes (1 # 2)
  = Some [mkStroke [(0, 0); (1, 0); (14 # 10, 0); (2, 0)]%Q].
Proof. vm_compute. reflexivity. Qed.

Example stitch_gap_kept :
  stitch_strokes gap_strokes (3 # 10) = Some gap_strokes.
Proof. vm_compute. reflexivity. Qed.

Example stitch_zero_noop :
  stitch_strokes gap_strokes 0%Q = Some gap_strokes
  ∧ bridge_strokes gap_strokes 0%Q = Some gap_strokes.
Proof. split; reflexivity. Qed.

(** ** Order properties of the morphology engine *)

Section morph_order.
Variables h w : nat.
Implicit Types (mask a b : grid bool) (r : Z).

Lemma mask_le_refl a : mask_le a a.
Proof. by intros i j. Qed.

Lemma mask_le_trans a b c : mask_le a b → mask_le b c → mask_le a c.
Proof. intros Hab Hbc i j Ha. by apply Hbc, Hab. Qed.

Lemma chebyshev_self p : chebyshev p p = 0%Z.
Proof. unfold chebyshev. lia. Qed.

Lemma erode_le_mask mask r : rect h w mask → mask_le (_binary_erode mask r) mask.
Proof.
  intros Hm i j Hij. destruct (Z.leb_spec r 0) as [Hr|Hr].
  - unfold _binary_erode in Hij.
    by destruct (Z.leb_spec r 0) as [_|?]; [|lia].
  - destruct (at2_true_in_rect h w _ _ _ (rect_erode h w mask r Hm) Hij) as [Hi Hj].
    apply (proj1 (at2_erode h w mask r i j Hm Hr Hi Hj) Hij); [done..|].
    rewrite chebyshev_self. lia.
Qed.

Lemma mask_le_dilate mask r : rect h w mask → mask_le mask (_binary_dilate mask r).
Proof.
  intros Hm i j Hij. destruct (Z.leb_spec r 0) as [Hr|Hr].
  - unfold _binary_dilate. by destruct (Z.leb_spec r 0) as [_|?]; [|lia].
  - destruct (at2_true_in_rect h w _ _ _ Hm Hij) as [Hi Hj].
    apply (at2_dilate_true h w); [done..|].
    exists i, j. rewrite chebyshev_self. repeat split; (done || lia).
Qed.

Lemma mask_le_close mask r : rect h w mask → mask_le mask (_binary_close mask r).
Proof.
  intros Hm i j Hij. destruct (Z.leb_spec r 0) as [Hr|Hr].
  - unfold _binary_close. by destruct (Z.leb_spec r 0) as [_|?]; [|lia].
  - destruct (at2_true_in_rect h w _ _ _ Hm Hij) as [Hi Hj].
    apply (at2_close h w); [done..|]. intros i' j' Hi' Hj' Hd.
    apply (at2_dilate_true h w); [done..|].
    exists i, j. rewrite chebyshev_sym. done.
Qed.

Lemma close_le_dilate mask r :
  rect h w mask → mask_le (_binary_close mask r) (_binary_dilate mask r).
Proof.
  intros Hm i j Hij. destruct (Z.leb_spec r 0) as [Hr|Hr].
  - unfold _binary_close in Hij. unfold _binary_dilate.
    by destruct (Z.leb_spec r 0) as [_|?]; [|lia].
  - destruct (at2_true_in_rect h w _ _ _ (rect_close h w mask r Hm) Hij) as [Hi Hj].
    apply (proj1 (at2_close h w mask r i j Hm Hr Hi Hj) Hij); [done..|].
    rewrite chebyshev_self. lia.
Qed.

(** Rows of set cells can only gain set cells. *)
Lemma row_count_true_le (ra rb : list bool) :
  Forall2 (λ x y : bool, x = true → y = true) ra rb →
  length (filter (λ x : bool, x = true) ra)
  ≤ length (filter (λ x : bool, x = true) rb).
Proof.
  induction 1 as [|x y ra rb Hxy _ IH]; [done|].
  rewrite !filter_cons. destruct x, y; repeat case_decide; simpl; try lia;
    try done; by specialize (Hxy eq_refl).
Qed.

Lemma count_true_le a b :
  rect h w a → rect h w b → mask_le a b → count_true a ≤ count_true b.
Proof.
  intros Ha Hb Hab.
  assert (Forall2 (Forall2 (λ x y : bool, x = true → y = true)) a b) as HF.
  { apply Forall2_same_length_lookup. split; [by rewrite (proj1 Ha), (proj1 Hb)|].
    intros i ra rb Hra Hrb.
    apply Forall2_same_length_lookup. split.
    { by rewrite (rect_lookup h w a i ra), (rect_lookup h w b i rb). }
    intros j x y Hx Hy ->. specialize (Hab i j).
    rewrite (at2_lookup false a i j ra true), (at2_lookup false b i j rb y) in Hab
      by done.
    by apply Hab. }
  unfold count_true. clear Ha Hb Hab.
  induction HF as [|ra rb a b Hr _ IH]; [done|].
  rewrite !fmap_cons. simpl. pose proof (row_count_true_le ra rb Hr). lia.
Qed.

End morph_order.

(** Erosion shrinks, closing grows, and closing stays inside the dilation:
    [erode(mask) <= mask <= close(mask) <= dilate(mask)] cell by cell, for
    every radius. *)
Theorem morphology_sandwich h w (mask : grid bool) (radius_px : Z) :
  rect h w mask →
  mask_le (_binary_erode mask radius_px) mask
  ∧ mask_le mask (_binary_close mask radius_px)
  ∧ mask_le (_binary_close mask radius_px) (_binary_dilate mask radius_px).
Proof.
  intros Hm. split; [|split].
  - by apply (erode_le_mask h w).
  - by apply (mask_le_close h w).
  - by apply (close_le_dilate h w).
Qed.

Lemma morphology_sandwich_witness :
  mask_le (_binary_erode demo_mask 1) demo_mask
  ∧ mask_le demo_mask (_binary_close demo_mask 1)
  ∧ mask_le (_binary_close demo_mask 1) (_binary_dilate demo_mask 1).
Proof. apply (morphology_sandwich 3 4), rect_demo_mask. Defined.

(** Dilation is monotone: a larger mask or a larger radius can only set
    more cells. *)
Theorem dilate_monotone h w (a b : grid bool) (r r' : Z) :
  rect h w a → rect h w b → mask_le a b → (r ≤ r')%Z →
  mask_le (_binary_dilate a r) (_binary_dilate b r').
Proof.
  intros Ha Hb Hab Hr i j Hij.
  destruct (Z.leb_spec r 0) as [Hr0|Hr0].
  - apply (mask_le_dilate h w b r' Hb), Hab.
    unfold _binary_dilate in Hij.
    by destruct (Z.leb_spec r 0) as [_|?]; [|lia].
  - destruct (at2_true_in_rect h w _ _ _ (rect_dilate h w a r Ha) Hij) as [Hi Hj].
    destruct (proj1 (at2_dilate_true h w a r i j Ha Hr0 Hi Hj) Hij)
      as (i' & j' & Hi' & Hj' & Hd & Hat).
    apply (at2_dilate_true h w); [done|lia|done..|].
    exists i', j'. repeat split; [done..|lia|by apply Hab].
Qed.

Lemma dilate_monotone_witness :
  rect 3 4 demo_mask
  ∧ mask_le (_binary_dilate demo_mask 1) (_binary_dilate demo_mask 2).
Proof.
  split; [apply rect_demo_mask|].
  apply (dilate_monotone 3 4); [apply rect_demo_mask..|apply mask_le_refl|lia].
Defined.

(** The optional closing of the pipeline never loses a foreground pixel:
    the closed mask, when the step returns one, has at least as many set
    cells as the raster mask. *)
Theorem close_step_keeps_foreground {num : Type} `{Arith num} h w
    (mask closed : grid bool) (close_mm raster_mm : num) :
  rect h w mask →
  close_step mask close_mm raster_mm = Some closed →
  mask_le mask closed ∧ count_true mask ≤ count_true closed.
Proof.
  intros Hm Hc.
  assert (mask_le mask closed) as Hle.
  { unfold close_step in Hc. destruct (_ >? _)%F.
    2: { injection Hc as <-. apply mask_le_refl. }
    destruct (py_div _ _) as [q|]; [|done]. simpl in Hc.
    destruct (f_ceil q) as [radius_px|]; [|done]. simpl in Hc.
    injection Hc as <-.
    destruct (0 <? _)%Z; [|apply mask_le_refl].
    by apply (mask_le_close h w). }
  split; [done|].
  apply (count_true_le h w); [done| |done]. by eapply rect_close_step.
Qed.

Lemma close_step_keeps_foreground_witness :
  ∃ closed,
    close_step demo_mask 1%Q 1%Q = Some closed
    ∧ mask_le demo_mask closed
    ∧ count_true demo_mask ≤ count_true closed.
Proof.
  eexists. split; [vm_compute; reflexivity|].
  apply (close_step_keeps_foreground 3 4 _ _ 1%Q 1%Q);
    [apply rect_demo_mask | vm_compute; reflexivity].
Defined.

(** ** Further properties of the curve polisher *)

Section chaikin_length.
Context {num : Type} `{Arith num}.
Implicit Types (pts out : list (point num)).

Lemma cut_fold_length (g : list (point num) → nat → list (point num)) l :
  (∀ acc i, ∃ q r, g acc i = acc ++ [q; r]) →
  ∀ acc, length (foldl g acc l) = length acc + 2 * length l.
Proof.
  intros Hg. induction l as [|i l IH]; intros acc; simpl; [lia|].
  rewrite IH. destruct (Hg acc i) as (q & r & ->).
  rewrite length_app. simpl. lia.
Qed.

(** A round of corner cutting on [n >= 1] points leaves [2 n] points and
    keeps both ends. *)
Lemma chaikin_round_spec out (g : list (point num) → nat → list (point num)) :
  out ≠ [] →
  (∀ acc i, ∃ q r, g acc i = acc ++ [q; r]) →
  let new_pts := foldl g [out !!! 0] (seq 0 (length out - 1))
                 ++ [default inhabitant (last out)] in
  new_pts ≠ [] ∧ head new_pts = head out ∧ last new_pts = last out
  ∧ length new_pts = 2 * length out.
Proof.
  intros Hne Hg new_pts.
  destruct (chaikin_round_ends out g Hne) as (H1 & H2 & H3).
  { intros acc i. destruct (Hg acc i) as (q & r & ->). by eexists. }
  repeat split; [done..|]. unfold new_pts.
  rewrite length_app, cut_fold_length, length_seq by done. simpl.
  destruct out; [done|]. simpl. lia.
Qed.

Lemma chaikin_smooth_spec pts iters :
  pts ≠ [] →
  head (chaikin_smooth pts iters) = head pts
  ∧ last (chaikin_smooth pts iters) = last pts
  ∧ length (chaikin_smooth pts iters)
    = if bool_decide (iters ≤ 0)%Z || bool_decide (length pts < 3)
      then length pts else length pts * 2 ^ Z.to_nat iters.
Proof.
  intros Hne. unfold chaikin_smooth.
  destruct (bool_decide (iters ≤ 0)%Z || bool_decide (length pts < 3)); [done|].
  replace (Z.to_nat iters) with (length (range 0 iters))
    by (unfold range; rewrite length_seqZ; lia).
  generalize (range 0 iters). intros l. revert pts Hne.
  induction l as [|i l IH]; intros pts Hne.
  { simpl. repeat split; lia. }
  cbn [foldl].
  match goal with
  | |- context [foldl ?f (foldl ?g ?a ?s ++ ?e) l] =>
    destruct (chaikin_round_spec pts g Hne) as (Hn & Hh & Hl & Hlen)
  end.
  { intros acc k. destruct (pts !!! k) as [x0 y0], (pts !!! (k + 1)) as [x1 y1].
    by eexists _, _. }
  cbn zeta in Hn, Hh, Hl, Hlen.
  destruct (IH _ Hn) as (IH1 & IH2 & IH3).
  split; [exact (eq_trans IH1 Hh)|]. split; [exact (eq_trans IH2 Hl)|].
  etrans; [exact IH3|]. rewrite Hlen. simpl. lia.
Qed.

End chaikin_length.

(** Every smoothing round doubles the point count: [iters >= 1] rounds on
    [n >= 3] points return [n * 2^iters] points (which is why the
    simplification runs after the smoothing). *)
Theorem chaikin_doubles_points {num : Type} `{Arith num}
    (pts : list (point num)) (iters : Z) :
  (0 < iters)%Z → 3 ≤ length pts →
  length (chaikin_smooth pts iters) = length pts * 2 ^ Z.to_nat iters.
Proof.
  intros Hi Hn. destruct (chaikin_smooth_spec pts iters) as (_ & _ & ->).
  { intros ->. simpl in Hn. lia. }
  rewrite bool_decide_false, bool_decide_false by lia. done.
Qed.

Lemma chaikin_doubles_points_witness :
  length (chaikin_smooth corner 2) = length corner * 2 ^ Z.to_nat 2.
Proof. apply chaikin_doubles_points; [lia|simpl; lia]. Defined.

Section rdp_shape.
Context {num : Type} `{Arith num}.
Implicit Types (pts : list (point num)) (keep : list bool) (eps : num).

Lemma select_sublist {A} keep (l : list A) : select keep l `sublist_of` l.
Proof.
  unfold select. revert keep.
  induction l as [|x l IH]; intros [|[] keep]; simpl;
    try apply sublist_nil_l.
  - apply sublist_skip, IH.
  - apply sublist_cons, IH.
Qed.

Lemma select_two {A} keep (l : list A) :
  2 ≤ length l → length keep = length l →
  keep !! 0 = Some true → keep !! (length l - 1) = Some true →
  2 ≤ length (select keep l).
Proof.
  intros Hl Hlen H0 Hlast.
  destruct l as [|x l]; [simpl in Hl; lia|].
  destruct keep as [|k keep]; [done|]. simpl in H0. injection H0 as ->.
  change (select (true :: keep) (x :: l)) with (x :: select keep l).
  assert (l ≠ []) as Hne by (destruct l; [simpl in Hl; lia|done]).
  assert (last (select keep l) = last l) as HL.
  { apply select_last; [done|simpl in Hlen; lia|].
    simpl in Hlast. destruct l; [done|]. simpl in *.
    by rewrite Nat.sub_0_r in *. }
  destruct (select keep l) eqn:Hs; [|simpl; lia].
  simpl in HL. symmetry in HL. by apply last_None in HL.
Qed.

(** What simplification returns is a subsequence of the input that keeps
    both ends, and two points or more of a polyline that had two. *)
Lemma rdp_simplify_shape pts eps out :
  rdp_simplify pts eps = Some out →
  out `sublist_of` pts
  ∧ head out = head pts ∧ last out = last pts
  ∧ (2 ≤ length pts → 2 ≤ length out).
Proof.
  intros Hout.
  destruct (rdp_simplify_keep pts eps out Hout)
    as (keep & Hlen & -> & Hends & _).
  split; [apply select_sublist|].
  destruct (decide (pts = [])) as [->|Hne].
  { destruct keep; [|done]. split; [done|]. split; [done|]. simpl. lia. }
  destruct (Hends Hne) as [Hfirst Hlast].
  split; [by apply select_head|].
  split; [apply select_last; (done || lia)|].
  intros Hn. by apply select_two.
Qed.

End rdp_shape.


Section polish_stage.
Context {num : Type} `{Arith num}.

Lemma smooth_step_spec smooth_chaikin (pts : list (point num)) :
  let p1 := smooth_step smooth_chaikin pts in
  head p1 = head pts ∧ last p1 = last pts
  ∧ (2 ≤ length pts → 2 ≤ length p1).
Proof.
  unfold smooth_step. destruct (0 <? smooth_chaikin)%Z; [|done].
  destruct (decide (pts = [])) as [He|Hne].
  { rewrite He. unfold chaikin_smooth.
    by rewrite orb_true_r || (simpl; rewrite orb_true_r). }
  destruct (chaikin_smooth_spec pts smooth_chaikin Hne) as (-> & -> & ->).
  repeat split. intros Hn. destruct (_ || _); [done|].
  pose proof (Nat.pow_nonzero 2 (Z.to_nat smooth_chaikin)). nia.
Qed.

Lemma polish_stroke_spec smooth_chaikin (rdp_eps_mm : num) (st o : Stroke num) :
  polish_stroke smooth_chaikin rdp_eps_mm st = Some o →
  head (pts o) = head (pts st) ∧ last (pts o) = last (pts st)
  ∧ (2 ≤ length (pts st) → 2 ≤ length (pts o)).
Proof.
  unfold polish_stroke.
  destruct (smooth_step_spec smooth_chaikin (pts st)) as (Hh & Hl & Hn).
  destruct (rdp_eps_mm >? f_of_Z 0)%F.
  - destruct (rdp_simplify _ _) as [out|] eqn:Hout; [|done].
    intros [= <-]. simpl.
    apply rdp_simplify_shape in Hout as (_ & Hh' & Hl' & Hn').
    rewrite Hh', Hl'. repeat split; [done..|]. intros ?. by apply Hn', Hn.
  - intros [= <-]. simpl. done.
Qed.

Lemma polish_stroke_returns smooth_chaikin (rdp_eps_mm : num) (st : Stroke num) :
  (rdp_eps_mm >? f_of_Z 0)%F = false
  ∨ sound_chords (smooth_step smooth_chaikin (pts st)) →
  is_Some (polish_stroke smooth_chaikin rdp_eps_mm st).
Proof.
  unfold polish_stroke. intros Hc.
  destruct (rdp_eps_mm >? f_of_Z 0)%F; [|done].
  destruct Hc as [?|Hs]; [done|].
  destruct (rdp_simplify_returns _ rdp_eps_mm Hs) as [out ->]. done.
Qed.

End polish_stage.

Lemma polish_spec {num : Type} `{Arith num}
    (smooth_chaikin : Z) (rdp_eps_mm : num)
    (strokes_mm polished : list (Stroke num)) :
  polish smooth_chaikin rdp_eps_mm strokes_mm = Some polished →
  Forall2 (λ o st, head (pts o) = head (pts st)
                   ∧ last (pts o) = last (pts st)
                   ∧ (2 ≤ length (pts st) → 2 ≤ length (pts o)))
          polished strokes_mm.
Proof.
  unfold polish. intros Hp. apply mapM_Some_1 in Hp.
  apply Forall2_flip. eapply Forall2_impl; [exact Hp|].
  intros st o. apply polish_stroke_spec.
Qed.

Lemma polish_returns {num : Type} `{Arith num}
    (smooth_chaikin : Z) (rdp_eps_mm : num) (strokes_mm : list (Stroke num)) :
  (rdp_eps_mm >? f_of_Z 0)%F = false
  ∨ Forall (λ st, sound_chords (smooth_step smooth_chaikin (pts st)))
           strokes_mm →
  is_Some (polish smooth_chaikin rdp_eps_mm strokes_mm).
Proof.
  intros Hc. unfold polish. apply mapM_is_Some. apply Forall_forall.
  intros st Hst. apply polish_stroke_returns.
  destruct Hc as [?|Hall]; [by left | right].
  by apply (proj1 (Forall_forall _ _) Hall).
Qed.


(** ** Further properties of the route planner *)

Section py_index_ends.
Context {A : Type}.
Implicit Types (l : list A).

Lemma py_index_0 l : py_index l 0 = head l.
Proof.
  unfold py_index. destruct l as [|x l]; [done|].
  rewrite bool_decide_eq_true_2; [done|]. simpl. lia.
Qed.

Lemma py_index_m1 l : py_index l (-1) = last l.
Proof.
  unfold py_index. destruct (decide (l = [])) as [-> | Hne]; [done|].
  assert (0 < length l) by (destruct l; [done|simpl; lia]).
  rewrite bool_decide_eq_false_2 by lia.
  rewrite bool_decide_eq_true_2 by lia.
  rewrite last_lookup. f_equal. lia.
Qed.

End py_index_ends.

Section force_facts.
Context {num : Type} `{Arith num}.
Implicit Types (st o : Stroke num) (strokes : list (Stroke num)).

Let kept_or_reversed := λ o st : Stroke num, o = st ∨ pts o = reverse (pts st).

Let turn := λ st : Stroke num,
  '(a, b) ← stroke_endpoints st;
  Some (if (a.1 <=? b.1)%F then st else mkStroke (reverse (pts st))).

Lemma stroke_endpoints_ends st :
  stroke_endpoints st = (a ← head (pts st); b ← last (pts st); Some (a, b)).
Proof. unfold stroke_endpoints. by rewrite py_index_0, py_index_m1. Qed.

Lemma stroke_endpoints_reverse st a b :
  stroke_endpoints st = Some (a, b) →
  stroke_endpoints (mkStroke (reverse (pts st))) = Some (b, a).
Proof.
  rewrite !stroke_endpoints_ends. simpl. rewrite head_reverse, last_reverse.
  destruct (head (pts st)), (last (pts st)); simpl; congruence.
Qed.

Lemma turn_spec st :
  pts st ≠ [] →
  ∃ o, turn st = Some o ∧ kept_or_reversed o st ∧ pts o ≠ [].
Proof.
  intros Hne. unfold turn.
  destruct (stroke_endpoints_is_Some st Hne) as [[a b] ->]. simpl.
  destruct (a.1 <=? b.1)%F; eexists; (split; [done|]); split;
    [by left|done|by right|].
  simpl. intros Hr. apply Hne. by rewrite <- (reverse_involutive (pts st)), Hr.
Qed.

Lemma turn_directed st o :
  (∀ x y : num, f_leb x y = false → f_leb y x = true) →
  turn st = Some o →
  (∃ a b, stroke_endpoints o = Some (a, b) ∧ f_leb a.1 b.1 = true)
  ∧ turn o = Some o.
Proof.
  intros Htotal. unfold turn.
  destruct (stroke_endpoints st) as [[a b]|] eqn:He; [|done]. simpl.
  destruct (a.1 <=? b.1)%F eqn:Hab; intros [= <-].
  - split; [by exists a, b|]. by rewrite He; simpl; rewrite Hab.
  - apply stroke_endpoints_reverse in He. apply Htotal in Hab.
    split; [by exists b, a|]. by rewrite He; simpl; rewrite Hab.
Qed.

Lemma force_left_to_right_mapM strokes :
  force_left_to_right strokes = mapM turn strokes.
Proof. by destruct strokes. Qed.

Lemma force_left_to_right_spec strokes :
  Forall (λ s, pts s ≠ []) strokes →
  ∃ out, force_left_to_right strokes = Some out
         ∧ Forall2 kept_or_reversed out strokes
         ∧ Forall (λ s, pts s ≠ []) out.
Proof.
  rewrite force_left_to_right_mapM.
  induction 1 as [|st l Hst _ (out & IH & HF & Hne)]; [by exists []|].
  destruct (turn_spec st Hst) as (o & Ho & Hk & Hn).
  exists (o :: out). split; [|by split; constructor].
  simpl. fold turn. rewrite Ho. simpl. by rewrite IH.
Qed.

Lemma force_left_to_right_directed strokes out :
  (∀ x y : num, f_leb x y = false → f_leb y x = true) →
  force_left_to_right strokes = Some out →
  Forall (λ o, ∃ a b, stroke_endpoints o = Some (a, b) ∧ f_leb a.1 b.1 = true)
         out
  ∧ force_left_to_right out = Some out.
Proof.
  intros Htotal. rewrite !force_left_to_right_mapM. intros Hout.
  apply mapM_Some_1 in Hout.
  induction Hout as [|st o l out Ho _ [IH1 IH2]]; [done|].
  destruct (turn_directed st o Htotal Ho) as [Hd Hi].
  split; [by constructor|]. simpl. fold turn. rewrite Hi. simpl.
  by rewrite IH2.
Qed.

End force_facts.

(** [force_left_to_right] returns the strokes in their order, each as it
    was or with its points reversed.  (A stroke without points makes
    [stroke_endpoints] raise.) *)
Theorem force_lr_keeps_strokes {num : Type} `{Arith num}
    (strokes : list (Stroke num)) :
  Forall (λ s, pts s ≠ []) strokes →
  ∃ out, force_left_to_right strokes = Some out
         ∧ Forall2 (λ o st, o = st ∨ pts o = reverse (pts st)) out strokes.
Proof.
  intros Hne.
  destruct (force_left_to_right_spec strokes Hne) as (out & Ho & HF & _).
  by exists out.
Qed.

Lemma force_lr_keeps_strokes_witness :
  ∃ out, force_left_to_right three_strokes = Some out
         ∧ Forall2 (λ o st, o = st ∨ pts o = reverse (pts st)) out three_strokes.
Proof. apply force_lr_keeps_strokes. by repeat constructor. Defined.


Lemma Q_leb_total (x y : Q) : f_leb x y = false → f_leb y x = true.
Proof.
  simpl. intros Hxy. apply Qle_bool_iff.
  destruct (Qlt_le_dec y x) as [Hlt|Hle]; [by apply Qlt_le_weak|].
  apply Qle_bool_iff in Hle. congruence.
Qed.


Section stitch_facts.
Context {num : Type} `{Arith num}.
Variable stitch_mm : num.
Variable k : nat.
Hypothesis Hk : 1 ≤ k.
Implicit Types (st : Stroke num) (out : list (Stroke num))
               (cur : list (point num)).

Let long := λ st : Stroke num, k ≤ length (pts st).

Lemma stitch_step_spec out cur st :
  k ≤ length cur → long st → Forall long out →
  ∃ out' cur',
    stitch_step stitch_mm (Some (out, cur)) st = Some (out', cur')
    ∧ k ≤ length cur' ∧ Forall long out'
    ∧ length out' ≤ S (length out)
    ∧ concat (pts <$> out') ++ cur'
      `sublist_of` (concat (pts <$> out) ++ cur) ++ pts st.
Proof.
  intros Hcur Hst Hout. unfold stitch_step. simpl.
  rewrite py_index_m1, py_index_0. unfold long in Hst.
  destruct (last cur) as [cur_last|] eqn:Hl;
    [|apply last_None in Hl; subst cur; simpl in Hcur; lia].
  destruct (pts st) as [|st0 rest] eqn:Hp; [simpl in Hst; lia|]. simpl.
  destruct (_dist cur_last st0 <=? stitch_mm)%F.
  - destruct (_dist cur_last st0 >? f_of_Q 1e-9)%F; eexists _, _;
      (split; [done|]); rewrite ?length_app; simpl;
      (split; [lia|]); (split; [done|]); (split; [lia|]).
    + rewrite <- !(assoc_L (++)). simpl. done.
    + rewrite <- !(assoc_L (++)). apply sublist_app; [done|].
      apply sublist_app; [done|]. by apply sublist_cons.
  - eexists _, _. split; [done|]. split; [done|]. split.
    { apply Forall_app. split; [done|]. by repeat constructor. }
    split; [rewrite length_app; simpl; lia|].
    rewrite fmap_app, concat_app. simpl. by rewrite app_nil_r.
Qed.

Lemma stitch_fold_spec (l : list (Stroke num)) : ∀ out cur,
  k ≤ length cur → Forall long out → Forall long l →
  ∃ out' cur',
    foldl (stitch_step stitch_mm) (Some (out, cur)) l = Some (out', cur')
    ∧ k ≤ length cur' ∧ Forall long out'
    ∧ length out' ≤ length out + length l
    ∧ concat (pts <$> out') ++ cur'
      `sublist_of` (concat (pts <$> out) ++ cur) ++ concat (pts <$> l).
Proof.
  induction l as [|st l IH]; intros out cur Hcur Hout Hl.
  { exists out, cur. simpl. rewrite app_nil_r. repeat split; (done || lia). }
  apply Forall_cons in Hl as [Hst Hl].
  destruct (stitch_step_spec out cur st Hcur Hst Hout)
    as (out1 & cur1 & Hstep & Hcur1 & Hout1 & Hlen1 & Hsub1).
  destruct (IH out1 cur1 Hcur1 Hout1 Hl)
    as (out2 & cur2 & Hfold & Hcur2 & Hout2 & Hlen2 & Hsub2).
  exists out2, cur2. cbn [foldl]. rewrite Hstep.
  split; [done|]. split; [done|]. split; [done|].
  split; [simpl; lia|].
  etrans; [exact Hsub2|].
  rewrite fmap_cons. simpl. rewrite (assoc_L (++) _ (pts st)).
  by apply sublist_app.
Qed.

Lemma stitch_strokes_spec (strokes : list (Stroke num)) :
  Forall long strokes →
  ∃ out, stitch_strokes strokes stitch_mm = Some out
         ∧ length out ≤ length strokes
         ∧ (strokes ≠ [] → out ≠ [])
         ∧ Forall long out
         ∧ concat (pts <$> out) `sublist_of` concat (pts <$> strokes).
Proof.
  intros Hl. unfold stitch_strokes.
  destruct ((stitch_mm <=? f_of_Z 0)%F || bool_decide (strokes = [])) eqn:Hc.
  { exists strokes. repeat split; done. }
  apply orb_false_iff in Hc as [_ Hc]. apply bool_decide_eq_false in Hc.
  destruct strokes as [|st0 rest]; [done|].
  rewrite py_index_0. simpl. rewrite drop_0.
  apply Forall_cons in Hl as [Hst0 Hrest].
  destruct (stitch_fold_spec rest [] (pts st0) Hst0 (Forall_nil_2 _) Hrest)
    as (out & cur & -> & Hcur & Hout & Hlen & Hsub).
  simpl. exists (out ++ [mkStroke cur]).
  split; [done|]. split; [rewrite length_app; simpl in *; lia|].
  split; [by destruct out|]. split.
  { apply Forall_app. split; [done|]. by repeat constructor. }
  rewrite fmap_app, concat_app. simpl. by rewrite app_nil_r.
Qed.

End stitch_facts.

(** Stitching only joins strokes.  On strokes of at least [k >= 1] points
    it returns (a stroke without points makes [st.pts[0]] raise), never
    more strokes than it was given and at least one when given one, each
    of at least [k] points; and the points of the result, read in order,
    are a subsequence of the points of the input: no point is invented or
    moved.  [bridge_strokes] has the same body. *)
Theorem stitch_only_joins {num : Type} `{Arith num}
    (strokes : list (Stroke num)) (stitch_mm : num) (k : nat) :
  1 ≤ k → Forall (λ st, k ≤ length (pts st)) strokes →
  ∃ out, stitch_strokes strokes stitch_mm = Some out
         ∧ length out ≤ length strokes
         ∧ (strokes ≠ [] → out ≠ [])
         ∧ Forall (λ st, k ≤ length (pts st)) out
         ∧ concat (pts <$> out) `sublist_of` concat (pts <$> strokes).
Proof. intros Hk Hl. by apply stitch_strokes_spec. Qed.

Lemma stitch_only_joins_witness :
  ∃ out, stitch_strokes gap_strokes (1 # 2)%Q = Some out
         ∧ length out ≤ length gap_strokes
         ∧ (gap_strokes ≠ [] → out ≠ [])
         ∧ Forall (λ st : Stroke Q, 2 ≤ length (pts st)) out
         ∧ concat (pts <$> out) `sublist_of` concat (pts <$> gap_strokes).
Proof.
  apply (stitch_only_joins gap_strokes (1 # 2)%Q 2); [lia|].
  repeat constructor.
Defined.

(** ** The "Order + stitch" chain of [main] *)

Lemma elem_of_concat {A} (x : A) (ls : list (list A)) :
  x ∈ concat ls ↔ ∃ l, l ∈ ls ∧ x ∈ l.
Proof.
  induction ls as [|l ls IH]; simpl.
  - split; [by intros ?%elem_of_nil|]. by intros (l & ?%elem_of_nil & _).
  - rewrite elem_of_app, IH. split.
    + intros [Hx|(l' & Hl' & Hx)].
      * exists l. split; [by left|done].
      * exists l'. split; [by right|done].
    + intros (l' & [-> | Hl']%elem_of_cons & Hx); [by left|].
      right. by exists l'.
Qed.

Section route_stage.
Context {num : Type} `{Arith num}.
Variable k : nat.
Hypothesis Hk : 1 ≤ k.
Implicit Types (st o : Stroke num) (strokes out : list (Stroke num)).

Let long := λ st : Stroke num, k ≤ length (pts st).

(** What every step of the chain guarantees of its result. *)
Let routed := λ strokes out : list (Stroke num),
  length out ≤ length strokes
  ∧ (strokes ≠ [] → out ≠ [])
  ∧ Forall long out
  ∧ ∀ o p, o ∈ out → p ∈ pts o → ∃ st, st ∈ strokes ∧ p ∈ pts st.

Lemma long_nonempty strokes :
  Forall long strokes → Forall (λ s, pts s ≠ []) strokes.
Proof.
  intros Hl. eapply Forall_impl; [done|]. intros st Hst He. unfold long in Hst.
  rewrite He in Hst. simpl in Hst. lia.
Qed.

Lemma routed_refl strokes : Forall long strokes → routed strokes strokes.
Proof. intros Hl. repeat split; [done..|]. intros o p Ho Hp. by exists o. Qed.

Lemma routed_trans s1 s2 s3 : routed s1 s2 → routed s2 s3 → routed s1 s3.
Proof.
  intros (Hl1 & Hn1 & _ & Hp1) (Hl2 & Hn2 & Hf2 & Hp2).
  split; [lia|]. split; [by intros ?; apply Hn2, Hn1|]. split; [done|].
  intros o p Ho Hp. destruct (Hp2 o p Ho Hp) as (o' & Ho' & Hp'). eauto.
Qed.

Lemma routed_same_strokes strokes out :
  Forall long strokes → same_strokes_up_to_reversal strokes out →
  routed strokes out.
Proof.
  intros Hlong (l & Hperm & HF).
  assert (length out = length strokes) as Hlen.
  { by rewrite (Forall2_length _ _ _ HF), Hperm. }
  split; [lia|]. split.
  { intros Hne ->. destruct strokes; [done|]. simpl in Hlen. lia. }
  split.
  - rewrite Hperm in Hlong. clear Hlen Hperm.
    induction HF as [|o s out l Hos _ IH]; [done|].
    apply Forall_cons in Hlong as [Hs Hl].
    constructor; [|by apply IH]. unfold long in *.
    destruct Hos as [-> | ->]; [done|]. by rewrite length_reverse.
  - intros o p Ho Hp.
    assert (∃ s, s ∈ l ∧ p ∈ pts s) as (s & Hs & Hps).
    { clear Hlen Hperm Hlong. induction HF as [|o' s out l Hos _ IH].
      { by apply elem_of_nil in Ho. }
      apply elem_of_cons in Ho as [-> | Ho].
      - exists s. split; [by left|]. destruct Hos as [-> | Hr]; [done|].
        rewrite Hr in Hp. by apply elem_of_reverse.
      - destruct (IH Ho) as (s' & Hs' & Hp'). exists s'. split; [by right|done]. }
    exists s. split; [by rewrite Hperm|done].
Qed.

Lemma reorder_lr_spec strokes (lr_penalty : num) :
  Forall (λ s, pts s ≠ []) strokes →
  ∃ out, reorder_strokes_lr strokes lr_penalty = Some out
         ∧ same_strokes_up_to_reversal strokes out.
Proof.
  intros Hne. destruct strokes as [|s0 rest].
  { exists []. split; [done|]. apply same_strokes_nil. }
  set (strokes := s0 :: rest) in *.
  assert (strokes ≠ []) as Hnonnil by done.
  unfold reorder_strokes_lr. fold strokes.
  destruct (mapM_is_Some_2
              (λ s, bbx ← stroke_bbox_x s; Some (bbx.1, s)) strokes)
    as [keyed Hkeyed].
  { eapply Forall_impl; [done|]. intros st Hst. simpl.
    destruct (stroke_bbox_x_is_Some st Hst) as [bx ->]. done. }
  change (mapM _ strokes) with
    (mapM (λ s, bbx ← stroke_bbox_x s; Some (bbx.1, s)) strokes).
  rewrite Hkeyed. simpl.
  apply reorder_epilogue; [|done..].
  apply (reorder_prologue f_ltb (λ s, bbx ← stroke_bbox_x s; Some bbx.1)).
  rewrite <- Hkeyed. apply mapM_ext. intros s.
  by destruct (stroke_bbox_x s).
Qed.

Lemma reorder_tlbr_spec strokes (up_penalty left_penalty : num) :
  Forall (λ s, pts s ≠ []) strokes →
  ∃ out, reorder_strokes_tlbr strokes up_penalty left_penalty = Some out
         ∧ same_strokes_up_to_reversal strokes out.
Proof.
  intros Hne. destruct strokes as [|s0 rest].
  { exists []. split; [done|]. apply same_strokes_nil. }
  set (strokes := s0 :: rest) in *.
  assert (strokes ≠ []) as Hnonnil by done.
  unfold reorder_strokes_tlbr. fold strokes.
  destruct (mapM_is_Some_2
              (λ s, bby ← stroke_bbox_y s; bbx ← stroke_bbox_x s;
                    Some ((- bby.2, bbx.1)%F, s)) strokes)
    as [keyed Hkeyed].
  { eapply Forall_impl; [done|]. intros st Hst. simpl.
    destruct (stroke_bbox_y_is_Some st Hst) as [bby ->].
    destruct (stroke_bbox_x_is_Some st Hst) as [bbx ->]. done. }
  change (mapM _ strokes) with
    (mapM (λ s, bby ← stroke_bbox_y s; bbx ← stroke_bbox_x s;
                Some ((- bby.2, bbx.1)%F, s)) strokes).
  rewrite Hkeyed. simpl.
  apply reorder_epilogue; [|done..].
  apply (reorder_prologue pair_ltb
           (λ s, bby ← stroke_bbox_y s; bbx ← stroke_bbox_x s;
                 Some (- bby.2, bbx.1)%F)).
  rewrite <- Hkeyed. apply mapM_ext. intros s.
  destruct (stroke_bbox_y s); [|done]. simpl. by destruct (stroke_bbox_x s).
Qed.

Lemma routed_force strokes :
  Forall long strokes →
  ∃ out, force_left_to_right strokes = Some out ∧ routed strokes out.
Proof.
  intros Hl.
  destruct (force_left_to_right_spec strokes (long_nonempty _ Hl))
    as (out & Ho & HF & _).
  exists out. split; [done|]. apply routed_same_strokes; [done|].
  by exists strokes.
Qed.

Lemma routed_stitch strokes (stitch_mm : num) :
  Forall long strokes →
  ∃ out, stitch_strokes strokes stitch_mm = Some out ∧ routed strokes out.
Proof.
  intros Hl.
  destruct (stitch_strokes_spec stitch_mm k Hk strokes Hl)
    as (out & Ho & Hlen & Hne & Hlong & Hsub).
  exists out. split; [done|]. repeat split; [done..|].
  intros o p Ho' Hp.
  assert (p ∈ concat (pts <$> strokes)) as Hin.
  { eapply elem_of_sublist; [|done]. apply elem_of_concat.
    exists (pts o). split; [|done]. by apply list_elem_of_fmap_2. }
  apply elem_of_concat in Hin as (l & Hl' & Hpl).
  apply list_elem_of_fmap in Hl' as (st & -> & Hst). by exists st.
Qed.

(** A step that runs under a flag. *)
Lemma routed_if (b : bool) (f : list (Stroke num) → option (list (Stroke num)))
    strokes :
  Forall long strokes →
  (∃ out, f strokes = Some out ∧ routed strokes out) →
  ∃ out, (if b then f strokes else Some strokes) = Some out
         ∧ routed strokes out ∧ Forall long out.
Proof.
  intros Hl (out & Ho & Hr). destruct b.
  - exists out. split; [done|]. split; [done|]. apply Hr.
  - exists strokes. split; [done|]. split; [by apply routed_refl|done].
Qed.

Lemma route_spec (optimize_lr force_lr optimize_tlbr : bool)
    (lr_penalty tlbr_penalty_up tlbr_penalty_left stitch_mm bridge_mm : num)
    strokes :
  Forall long strokes →
  ∃ out, route optimize_lr force_lr optimize_tlbr lr_penalty tlbr_penalty_up
               tlbr_penalty_left stitch_mm bridge_mm strokes = Some out
         ∧ routed strokes out.
Proof.
  intros Hl. unfold route.
  destruct (routed_if optimize_lr (λ s, reorder_strokes_lr s lr_penalty)
              strokes Hl) as (s1 & -> & Hr1 & Hl1).
  { destruct (reorder_lr_spec strokes lr_penalty (long_nonempty _ Hl))
      as (out & Ho & Hs).
    exists out. split; [done|]. by apply routed_same_strokes. }
  simpl.
  destruct (routed_if force_lr force_left_to_right s1 Hl1 (routed_force s1 Hl1))
    as (s2 & -> & Hr2 & Hl2).
  simpl.
  destruct (routed_if optimize_tlbr
              (λ s, reorder_strokes_tlbr s tlbr_penalty_up tlbr_penalty_left)
              s2 Hl2) as (s3 & -> & Hr3 & Hl3).
  { destruct (reorder_tlbr_spec s2 tlbr_penalty_up tlbr_penalty_left
                (long_nonempty _ Hl2)) as (out & Ho & Hs).
    exists out. split; [done|]. by apply routed_same_strokes. }
  simpl.
  destruct (routed_if (stitch_mm >? f_of_Z 0)%F
              (λ s, stitch_strokes s stitch_mm) s3 Hl3
              (routed_stitch s3 stitch_mm Hl3)) as (s4 & -> & Hr4 & Hl4).
  simpl.
  destruct (routed_if (bridge_mm >? f_of_Z 0)%F
              (λ s, bridge_strokes s bridge_mm) s4 Hl4
              (routed_stitch s4 bridge_mm Hl4)) as (s5 & -> & Hr5 & Hl5).
  exists s5. split; [done|].
  eapply routed_trans; [|exact Hr5]. eapply routed_trans; [|exact Hr4].
  eapply routed_trans; [|exact Hr3]. eapply routed_trans; [|exact Hr2]. done.
Qed.

End route_stage.

(** Whatever flags are set, the "Order + stitch" chain of [main] returns
    on strokes of two points or more, and its result is drawable: at least
    one stroke when given one and never more strokes than given, each of
    two points or more, made only of points of the input strokes. *)
Theorem route_keeps_drawable {num : Type} `{Arith num}
    (optimize_lr force_lr optimize_tlbr : bool)
    (lr_penalty tlbr_penalty_up tlbr_penalty_left stitch_mm bridge_mm : num)
    (strokes : list (Stroke num)) :
  Forall (λ st, 2 ≤ length (pts st)) strokes →
  ∃ out, route optimize_lr force_lr optimize_tlbr lr_penalty tlbr_penalty_up
               tlbr_penalty_left stitch_mm bridge_mm strokes = Some out
         ∧ length out ≤ length strokes
         ∧ (strokes ≠ [] → out ≠ [])
         ∧ Forall (λ st, 2 ≤ length (pts st)) out
         ∧ ∀ o p, o ∈ out → p ∈ pts o → ∃ st, st ∈ strokes ∧ p ∈ pts st.
Proof.
  intros Hl.
  destruct (route_spec 2 ltac:(lia) optimize_lr force_lr optimize_tlbr
              lr_penalty tlbr_penalty_up tlbr_penalty_left stitch_mm bridge_mm
              strokes Hl) as (out & Ho & Hr).
  by exists out.
Qed.

Lemma route_keeps_drawable_witness :
  ∃ out, route true true false 15%Q 15%Q 15%Q (1 # 2)%Q 0%Q three_strokes
         = Some out
         ∧ length out ≤ length three_strokes
         ∧ (three_strokes ≠ [] → out ≠ [])
         ∧ Forall (λ st : Stroke Q, 2 ≤ length (pts st)) out
         ∧ ∀ o p, o ∈ out → p ∈ pts o → ∃ st, st ∈ three_strokes ∧ p ∈ pts st.
Proof. apply route_keeps_drawable. repeat constructor. Defined.

(** ** Further properties of the segment tracer *)

Lemma nbrs_adjacent skel r c p :
  p ∈ nbrs skel r c → adjacent8 (r, c) p ∧ on_skeleton skel p.
Proof.
  unfold nbrs. destruct (shape skel) as [Hh Ww]. revert p.
  apply (foldl_invariant (λ out : list pixel, ∀ p, p ∈ out →
           adjacent8 (r, c) p ∧ on_skeleton skel p)).
  { intros p Hp. by apply elem_of_nil in Hp. }
  intros out dr Hdr Hout.
  apply foldl_invariant; [done|].
  intros out' dc Hdc Hout'.
  case_bool_decide as Hzero; [done|].
  destruct (_ && _) eqn:Hcond; [|done].
  intros p Hp. apply elem_of_app in Hp as [Hp|Hp]; [by apply Hout'|].
  apply list_elem_of_singleton in Hp as ->.
  apply andb_prop in Hcond as [Hcond Hat]. apply andb_prop in Hcond as [Hr Hc].
  apply bool_decide_eq_true in Hr, Hc.
  assert (dr = -1 ∨ dr = 0 ∨ dr = 1)%Z as Hdr'.
  { repeat (apply elem_of_cons in Hdr as [->|Hdr]; [tauto|]).
    by apply elem_of_nil in Hdr. }
  assert (dc = -1 ∨ dc = 0 ∨ dc = 1)%Z as Hdc'.
  { repeat (apply elem_of_cons in Hdc as [->|Hdc]; [tauto|]).
    by apply elem_of_nil in Hdc. }
  split.
  - unfold adjacent8. simpl. split; [intros [= ? ?]; apply Hzero; lia|]. lia.
  - unfold on_skeleton. simpl. split; [lia|]. split; [lia|done].
Qed.

Lemma nbrs_adjacent_px skel (q p : pixel) :
  p ∈ nbrs skel q.1 q.2 → adjacent8 q p ∧ on_skeleton skel p.
Proof. destruct q as [r c]. apply nbrs_adjacent. Qed.

Lemma elem_of_np_where (m : grid bool) p : p ∈ np_where m ↔ on_skeleton m p.
Proof.
  unfold np_where, on_skeleton, at_px, at2. rewrite elem_of_concat. split.
  - intros (l & Hl & Hp). apply elem_of_lookup_imap in Hl as (r & row & -> & Hrow).
    apply elem_of_concat in Hp as (l' & Hl' & Hp).
    apply elem_of_lookup_imap in Hl' as (c & b & -> & Hb).
    destruct b; [|by apply elem_of_nil in Hp].
    apply list_elem_of_singleton in Hp as ->. simpl.
    rewrite !Nat2Z.id, Hrow. simpl. rewrite Hb. split; [lia|]. split; [lia|done].
  - intros (H1 & H2 & Hat).
    destruct (m !! Z.to_nat p.1) as [row|] eqn:Hrow; [|done]. simpl in Hat.
    destruct (row !! Z.to_nat p.2) as [b|] eqn:Hb; [|done]. simpl in Hat. subst b.
    eexists. split.
    { apply elem_of_lookup_imap. by exists (Z.to_nat p.1), row. }
    apply elem_of_concat. eexists. split.
    { apply elem_of_lookup_imap. by exists (Z.to_nat p.2), true. }
    apply list_elem_of_singleton. destruct p as [r c]. simpl in *.
    f_equal; lia.
Qed.

Lemma at2_and_grid (a b : grid bool) i j :
  at2 false (and_grid a b) i j = at2 false a i j && at2 false b i j.
Proof.
  unfold at2, and_grid, zip2d. rewrite lookup_zip_with.
  destruct (a !! i) as [ra|]; simpl; [|done].
  destruct (b !! i) as [rb|]; simpl; [|by rewrite andb_false_r].
  rewrite lookup_zip_with.
  destruct (ra !! j) as [x|]; simpl; [|done].
  destruct (rb !! j) as [y|]; simpl; [done|by rewrite andb_false_r].
Qed.

Lemma at2_set2_eq {A} (d : A) (a : grid A) r c v row :
  a !! r = Some row → c < length row → at2 d (set2 a r c v) r c = v.
Proof.
  intros Hrow Hc. unfold at2, set2.
  rewrite list_lookup_alter_eq || rewrite list_lookup_alter.
  rewrite Hrow. simpl. by rewrite list_lookup_insert_eq.
Qed.

Lemma chain_singleton skel p : on_skeleton skel p → skeleton_chain skel [p].
Proof.
  intros Hp. split; [by constructor|]. intros i a b Ha Hb.
  by destruct i.
Qed.

Lemma chain_snoc skel path cur nxt :
  skeleton_chain skel path → last path = Some cur →
  adjacent8 cur nxt → on_skeleton skel nxt →
  skeleton_chain skel (path ++ [nxt]).
Proof.
  intros [Hall Hadj] Hlast Hcn Hn. split.
  { apply Forall_app. split; [done|]. by constructor. }
  intros i a b Ha Hb.
  destruct (decide (S i < length path)) as [Hlt|Hge].
  - rewrite lookup_app_l in Ha, Hb by lia. by apply (Hadj i).
  - assert (S i = length path) as Hi.
    { apply lookup_lt_Some in Hb. rewrite length_app in Hb. simpl in Hb. lia. }
    rewrite lookup_app_l in Ha by lia.
    rewrite lookup_app_r in Hb by lia.
    rewrite Hi, Nat.sub_diag in Hb. simpl in Hb. injection Hb as <-.
    rewrite last_lookup in Hlast.
    replace (pred (length path)) with i in Hlast by lia.
    rewrite Ha in Hlast. by injection Hlast as ->.
Qed.

Section walk_more.
Variables (skel : grid bool) (deg : grid Z) (start : pixel).

(** What one round of [walk] does, read off its result. *)
Lemma walk_step_inv st :
  match walk_step skel deg start st with
  | inl st' =>
      ∃ nxt, nxt ∈ nbrs skel (w_cur st).1 (w_cur st).2
             ∧ at_px false (w_visited st) nxt = false
             ∧ st' = WalkState (w_path st ++ [nxt])
                               (set_px (w_visited st) nxt true)
                               (Some (w_cur st)) nxt
  | inr (path, visited) =>
      visited = w_visited st
      ∧ (path = w_path st
         ∨ (path = w_path st ++ [start]
            ∧ start ∈ nbrs skel (w_cur st).1 (w_cur st).2))
  end.
Proof.
  destruct st as [path visited prev cur]. simpl.
  destruct (_ && _); [by split; [|left]|].
  set (n := nbrs skel cur.1 cur.2).
  match goal with
  | |- context [match ?f with Some c => Some c | None => ?o end] =>
      set (fresh := f); set (other := o)
  end.
  assert (∀ nxt, match fresh with Some c => Some c | None => other end = Some nxt →
                 nxt ∈ n) as Hin.
  { intros nxt Hn. apply list_elem_of_In.
    destruct fresh as [c|] eqn:Hf.
    - simplify_eq. by apply find_some in Hf as [? _].
    - unfold other in Hn. by apply find_some in Hn as [? _]. }
  destruct (match fresh with Some c => Some c | None => other end) as [nxt|];
    [|by split; [|left]].
  specialize (Hin nxt eq_refl).
  destruct (at_px false visited nxt) eqn:Hvis.
  - split; [done|]. case_bool_decide as Hs; [|by left]. subst nxt. by right.
  - by exists nxt.
Qed.

(** Pixels already drawn: the bodies of the walks recorded so far. *)
Variable drawn : list pixel.

(** The walk in progress: a chain from [start] to the current pixel whose
    pixels are marked and are not drawn yet. *)
Let walking := λ st : walk_state,
  same_shape skel (w_visited st)
  ∧ skeleton_chain skel (w_path st)
  ∧ head (w_path st) = Some start
  ∧ last (w_path st) = Some (w_cur st)
  ∧ NoDup (drawn ++ w_path st)
  ∧ ∀ p, p ∈ drawn ++ w_path st → at_px false (w_visited st) p = true.

Lemma at_px_set_px_mono (visited : grid bool) p q :
  at_px false visited q = true → at_px false (set_px visited p true) q = true.
Proof.
  unfold at_px, set_px. intros Hq.
  destruct (at2_set2 false visited (Z.to_nat p.1) (Z.to_nat p.2) true
              (Z.to_nat q.1) (Z.to_nat q.2)) as [->|(_ & _ & ->)]; done.
Qed.

Lemma at_px_set_px_eq (visited : grid bool) p :
  same_shape skel visited → on_skeleton skel p →
  at_px false (set_px visited p true) p = true.
Proof.
  intros Hs (_ & _ & Hat). unfold at_px, set_px in *.
  destruct (same_shape_cell skel visited _ _ Hs Hat) as (row & b & Hrow & Hb).
  apply (at2_set2_eq false visited _ _ true row Hrow).
  by apply lookup_lt_Some in Hb.
Qed.

Lemma walking_continue st st' :
  walking st → walk_step skel deg start st = inl st' → walking st'.
Proof.
  intros (Hs & Hchain & Hhd & Hlast & Hnd & Hvis) Hstep.
  pose proof (walk_step_inv st) as Hinv. rewrite Hstep in Hinv.
  destruct Hinv as (nxt & Hn & Hfresh & ->). unfold walking. simpl.
  apply nbrs_adjacent_px in Hn as [Hadj Hon].
  split; [by apply same_shape_set2|].
  split; [by apply (chain_snoc skel _ (w_cur st))|].
  split; [by destruct (w_path st)|].
  split; [by rewrite last_snoc|].
  split.
  - rewrite (assoc_L (++)). apply NoDup_app. split; [done|]. split.
    + intros p Hp ?%list_elem_of_singleton. subst p.
      apply Hvis in Hp. congruence.
    + apply NoDup_singleton.
  - intros p Hp. rewrite (assoc_L (++)) in Hp.
    apply elem_of_app in Hp as [Hp|Hp].
    + by apply at_px_set_px_mono, Hvis.
    + apply list_elem_of_singleton in Hp as ->. by apply at_px_set_px_eq.
Qed.

Lemma walk_loop_spec fuel : ∀ st path visited,
  walking st →
  walk_loop fuel skel deg start st = Some (path, visited) →
  ∃ body, skeleton_chain skel path ∧ walk_body path body
          ∧ body ≠ []
          ∧ same_shape skel visited
          ∧ NoDup (drawn ++ body)
          ∧ ∀ p, p ∈ drawn ++ body → at_px false visited p = true.
Proof.
  induction fuel as [|fuel IH]; intros st path visited Hw Hrun; [done|].
  simpl in Hrun.
  destruct (walk_step skel deg start st) as [st'|[path' visited']] eqn:Hstep.
  { apply (IH st'); [|done]. by apply (walking_continue st). }
  injection Hrun as -> ->.
  pose proof (walk_step_inv st) as Hinv. rewrite Hstep in Hinv.
  destruct Hinv as (-> & Hpath).
  destruct Hw as (Hs & Hchain & Hhd & Hlast & Hnd & Hvis).
  exists (w_path st).
  assert (w_path st ≠ []) as Hne by (by destruct (w_path st)).
  destruct Hpath as [->|[-> Hn]].
  - split; [done|]. split; [by left|]. done.
  - apply nbrs_adjacent_px in Hn as [Hadj Hon].
    split; [by apply (chain_snoc skel _ (w_cur st))|].
    split; [right; by exists start|]. done.
Qed.

End walk_more.

Section trace_walks_more.
Variables (skel : grid bool) (deg : grid Z).

Lemma walk_from_traced acc p :
  on_skeleton skel p →
  walks_traced skel acc → walks_traced skel (walk_from skel deg acc p).
Proof.
  intros Hp (pix & visited & bodies & -> & Hs & Hchains & Hbodies & Hnd & Hvis).
  unfold walk_from. simpl.
  destruct (at_px false visited p) eqn:Hfresh.
  { by exists pix, visited, bodies. }
  destruct (walk_total skel deg p visited Hs) as (q & visited' & Hwalk & _).
  rewrite Hwalk. simpl. unfold walk in Hwalk.
  edestruct (walk_loop_spec skel deg p (concat bodies))
    as (body & Hq & Hbody & Hne & Hs' & Hnd' & Hvis'); [|exact Hwalk|].
  { simpl. split; [by apply same_shape_set2|].
    split; [by apply chain_singleton|]. split; [done|]. split; [done|]. split.
    - apply NoDup_app. split; [done|]. split; [|apply NoDup_singleton].
      intros x Hx ?%list_elem_of_singleton. subst x.
      apply Hvis in Hx. congruence.
    - intros x [Hx|Hx]%elem_of_app.
      + by apply at_px_set_px_mono, Hvis.
      + apply list_elem_of_singleton in Hx as ->.
        by apply (at_px_set_px_eq skel). }
  case_bool_decide.
  - exists (pix ++ [q]), visited', (bodies ++ [body]).
    rewrite concat_app. simpl. rewrite app_nil_r.
    split; [done|]. split; [done|]. split.
    { apply Forall_app. split; [done|]. by constructor. }
    split; [|done].
    apply Forall2_app; [done|]. by constructor.
  - exists pix, visited', bodies.
    split; [done|]. split; [done|]. split; [done|]. split; [done|].
    split; [by apply NoDup_app in Hnd' as [? _]|].
    intros x Hx. apply Hvis'. apply elem_of_app. by left.
Qed.

Lemma foldl_walk_from_traced acc (seeds : list pixel) :
  Forall (on_skeleton skel) seeds →
  walks_traced skel acc →
  walks_traced skel (foldl (walk_from skel deg) acc seeds).
Proof.
  intros Hseeds Hacc. apply foldl_invariant; [done|].
  intros acc' p Hp. apply walk_from_traced.
  by apply (proj1 (Forall_forall _ _) Hseeds).
Qed.

End trace_walks_more.

Lemma np_where_and_grid (skel m : grid bool) :
  Forall (on_skeleton skel) (np_where (and_grid skel m)).
Proof.
  apply Forall_forall. intros p (H1 & H2 & Hat)%elem_of_np_where.
  split; [done|]. split; [done|]. unfold at_px in *.
  rewrite at2_and_grid in Hat. by apply andb_prop in Hat as [? _].
Qed.

(** The pixel walks of the segment tracer: each is a chain of adjacent
    skeleton pixels, and their bodies share no pixel. *)
Lemma trace_walks_spec skel :
  ∃ walks bodies,
    trace_walks skel = Some walks
    ∧ Forall (skeleton_chain skel) walks
    ∧ Forall2 walk_body walks bodies
    ∧ NoDup (concat bodies).
Proof.
  unfold trace_walks.
  destruct (foldl_walk_from_traced skel (_skeleton_degrees skel)
              (Some ([], zeros_like skel))
              (np_where (and_grid skel (eq_c (_skeleton_degrees skel) 1))))
    as (pix1 & visited1 & bodies1 & -> & Hs1 & Hc1 & Hb1 & Hn1 & Hv1).
  { apply np_where_and_grid. }
  { exists [], (zeros_like skel), []. split; [done|].
    split; [apply same_shape_zeros_like|]. split; [done|]. split; [done|].
    split; [apply NoDup_nil_2|]. by intros p ?%elem_of_nil. }
  simpl.
  destruct (foldl_walk_from_traced skel (_skeleton_degrees skel)
              (Some (pix1, visited1))
              (np_where (and_grid skel (not_grid visited1))))
    as (pix2 & visited2 & bodies2 & -> & Hs2 & Hc2 & Hb2 & Hn2 & Hv2).
  { apply np_where_and_grid. }
  { by exists pix1, visited1, bodies1. }
  simpl. by exists pix2, bodies2.
Qed.

(** In segment mode no skeleton pixel is traced twice: the walks, each
    taken without the start pixel that may be appended to close a loop,
    share no pixel and repeat none. *)
Theorem segment_walks_trace_each_pixel_once (skel : grid bool) :
  ∃ walks bodies,
    trace_walks skel = Some walks
    ∧ Forall2 walk_body walks bodies
    ∧ NoDup (concat bodies).
Proof.
  destruct (trace_walks_spec skel) as (walks & bodies & Hw & _ & Hb & Hn).
  by exists walks, bodies.
Qed.

Section segment_strokes.
Context {num : Type} `{Arith num}.
Variables (pixel_mm width_mm height_mm min_stroke_mm : num).

Lemma keep_long_spec (P : list pixel → Prop) (walks : list (list pixel)) :
  Forall P walks →
  Forall (λ s : Stroke num,
            ∃ pix, P pix
                   ∧ pts s = to_mm pixel_mm width_mm height_mm <$> pix
                   ∧ (polyline_length (pts s) <? min_stroke_mm)%F = false)
    (foldl (λ out pix,
              let pts := to_mm pixel_mm width_mm height_mm <$> pix in
              if (polyline_length pts <? min_stroke_mm)%F then out
              else out ++ [mkStroke pts]) [] walks).
Proof.
  intros Hwalks. apply foldl_invariant; [done|].
  intros out pix Hpix Hout. cbn zeta.
  destruct (_ <? _)%F eqn:Hlen; [done|].
  apply Forall_app. split; [done|]. constructor; [|done].
  exists pix. split; [|done]. by apply (proj1 (Forall_forall _ _) Hwalks).
Qed.

End segment_strokes.

(** Every stroke returned in segment mode is the image, pixel centre by
    pixel centre, of a chain of adjacent skeleton pixels, and none is
    shorter than the minimum stroke length. *)
Theorem segment_strokes_follow_skeleton {num : Type} `{Arith num}
    (skel : grid bool) (pixel_mm width_mm height_mm min_stroke_mm : num) :
  ∃ strokes,
    _trace_skeleton_to_strokes skel pixel_mm width_mm height_mm min_stroke_mm
    = Some strokes
    ∧ Forall (λ s : Stroke num,
                ∃ pix, skeleton_chain skel pix
                       ∧ pts s = to_mm pixel_mm width_mm height_mm <$> pix
                       ∧ (polyline_length (pts s) <? min_stroke_mm)%F = false)
             strokes.
Proof.
  destruct (trace_walks_spec skel) as (walks & bodies & Hw & Hc & _).
  unfold _trace_skeleton_to_strokes. rewrite Hw. simpl.
  eexists. split; [done|]. by apply keep_long_spec.
Qed.

Section sheet.
Context {num : Type} `{ArithOrder num}.
Variables (pixel_mm width_mm height_mm : num).
Hypothesis Hwidth : f_leb (f_of_Q 0) width_mm = true.
Hypothesis Hheight : f_leb (f_of_Q 0) height_mm = true.

(** [max(lo, min(hi, x))] lies between [lo] and [hi]. *)
Lemma clamp_between (lo hi x : num) :
  f_leb lo hi = true →
  f_leb lo (py_max2 lo (py_min2 hi x)) = true
  ∧ f_leb (py_max2 lo (py_min2 hi x)) hi = true.
Proof.
  intros Hlh. unfold py_max2, py_min2.
  set (m := if (x <? hi)%F then x else hi).
  assert (f_leb m hi = true) as Hm.
  { unfold m. destruct (x <? hi)%F eqn:Hx; [by apply f_lt_le|apply f_leb_refl]. }
  destruct (m >? lo)%F eqn:Hgt.
  - split; [by apply f_lt_le|done].
  - split; [apply f_leb_refl|done].
Qed.

Lemma to_mm_on_sheet (p : pixel) :
  on_sheet width_mm height_mm (to_mm pixel_mm width_mm height_mm p).
Proof.
  unfold to_mm, on_sheet. cbn zeta. simpl.
  destruct (clamp_between (f_of_Q 0) width_mm
              ((f_of_Z p.2 + f_of_Q 0.5) * pixel_mm)%F Hwidth).
  destruct (clamp_between (f_of_Q 0) height_mm
              ((f_of_Z p.1 + f_of_Q 0.5) * pixel_mm)%F Hheight).
  done.
Qed.

Lemma trace_step_on_sheet skel (trace_mode : string) (min_stroke_mm : num) :
  ∃ strokes,
    trace_step skel trace_mode pixel_mm width_mm height_mm min_stroke_mm
    = Some strokes
    ∧ Forall (λ s, Forall (on_sheet width_mm height_mm) (pts s)) strokes.
Proof.
  unfold trace_step. destruct (String.eqb trace_mode "walk").
  - unfold _trace_skeleton_to_single_stroke.
    destruct (single_walk_path_spec skel) as (r & -> & _). simpl.
    eexists. split; [done|]. destruct r as [dedup|]; [|done].
    constructor; [|done]. simpl. apply Forall_fmap, Forall_forall.
    intros p _. apply to_mm_on_sheet.
  - destruct (trace_walks_spec skel) as (walks & bodies & Hw & _).
    unfold _trace_skeleton_to_strokes. rewrite Hw. simpl.
    eexists. split; [done|].
    eapply Forall_impl;
      [apply (keep_long_spec pixel_mm width_mm height_mm min_stroke_mm
                (λ _, True)); by apply Forall_forall|].
    intros s (pix & _ & -> & _). apply Forall_fmap, Forall_forall.
    intros p _. apply to_mm_on_sheet.
Qed.

Lemma pipeline_on_sheet (mask : grid bool) (thin_max_iter : Z)
    (min_stroke_mm close_mm : num) (skeleton_method trace_mode : string)
    strokes :
  text_to_centerline_strokes_mm mask width_mm height_mm pixel_mm
    thin_max_iter min_stroke_mm close_mm skeleton_method trace_mode
  = Some (inr strokes) →
  Forall (λ s, Forall (on_sheet width_mm height_mm) (pts s)) strokes.
Proof.
  unfold text_to_centerline_strokes_mm.
  case_bool_decide; [done|].
  destruct (close_step _ _ _) as [closed|]; [|done]. simpl.
  destruct (skeletonize _ _ _) as [skel|]; [|done]. simpl.
  case_bool_decide; [done|].
  destruct (trace_step_on_sheet skel trace_mode min_stroke_mm)
    as (strokes' & -> & Hsheet).
  simpl. case_bool_decide; [done|]. by intros [= <-].
Qed.

End sheet.



(** ** Resampling and the plot program *)

Section resample_facts.
Context {num : Type} `{Arith num}.
Implicit Types (points out : list (point num)) (max_step : num).

Lemma snoc_fold_length {B} (g : list (point num) → B → list (point num)) l :
  (∀ acc s, ∃ q, g acc s = acc ++ [q]) →
  ∀ acc, length (foldl g acc l) = length acc + length l.
Proof.
  intros Hg. induction l as [|s l IH]; intros acc; simpl; [lia|].
  rewrite IH. destruct (Hg acc s) as [q ->]. rewrite length_app. simpl. lia.
Qed.

Lemma resample_fill_prefix (a b : point num) steps out :
  ∃ more, resample_fill a b steps out = out ++ more.
Proof.
  unfold resample_fill.
  apply (foldl_invariant (λ acc, ∃ more, acc = out ++ more)).
  - exists []. by rewrite app_nil_r.
  - intros acc s _ [more ->]. eexists. by rewrite <- (assoc_L (++)).
Qed.

Lemma resample_fill_length (a b : point num) steps out :
  length (resample_fill a b steps out) = length out + Z.to_nat steps.
Proof.
  unfold resample_fill.
  rewrite snoc_fold_length by (intros acc s; by eexists).
  unfold range. rewrite length_seqZ. lia.
Qed.

(** A round of the loop returns or raises, and it raises exactly at a
    distance that [resample_raises] describes. *)
Lemma resample_step_None max_step out b :
  resample_step max_step out b = None
  ↔ resample_raises max_step (_dist (default inhabitant (last out)) b).
Proof.
  unfold resample_step, resample_raises, py_div. cbn zeta.
  destruct (_ <=? _)%F; [split; [done | intros [? _]; done]|].
  destruct (max_step =? _)%F; simpl.
  { split; [intros _; split; [done | by left] | done]. }
  destruct (f_ceil _); simpl.
  - split; [done | intros [_ [?|?]]; done].
  - split; [intros _; split; [done | by right] | done].
Qed.

Lemma resample_step_prefix max_step out b out' :
  resample_step max_step out b = Some out' → ∃ more, out' = out ++ more.
Proof.
  unfold resample_step. cbn zeta. destruct (_ <=? _)%F.
  { intros [= <-]. by eexists. }
  destruct (py_div _ _) as [q|]; [|done]. simpl.
  destruct (f_ceil q) as [steps|]; [|done]. simpl. intros [= <-].
  apply resample_fill_prefix.
Qed.

Lemma resample_fold_prefix max_step (rest : list (point num)) out r :
  foldlM (resample_step max_step) out rest = Some r →
  ∃ more, r = out ++ more.
Proof.
  apply (foldlM_invariant (λ r, ∃ more, r = out ++ more)).
  - exists []. by rewrite app_nil_r.
  - intros acc b acc' _ [m1 ->] Hstep.
    apply resample_step_prefix in Hstep as [m2 ->].
    eexists. by rewrite <- (assoc_L (++)).
Qed.

Lemma resample_head points max_step out :
  _resample_polyline points max_step = Some out → head out = head points.
Proof.
  destruct points as [|p0 rest]; simpl; [by intros [= <-]|].
  destruct (_ <=? _)%F; [by intros [= <-]|]. intros Hr.
  by apply resample_fold_prefix in Hr as [more ->].
Qed.

Lemma resample_fold_fine max_step (rest : list (point num)) : ∀ out a,
  last out = Some a → fine_enough max_step (a :: rest) →
  foldlM (resample_step max_step) out rest = Some (out ++ rest).
Proof.
  induction rest as [|b rest IH]; intros out a Hlast Hfine; simpl.
  { by rewrite app_nil_r. }
  assert (resample_step max_step out b = Some (out ++ [b])) as ->.
  { unfold resample_step. cbn zeta. rewrite Hlast. simpl.
    by rewrite (Hfine 0 a b). }
  simpl. rewrite (IH (out ++ [b]) b).
  - by rewrite <- (assoc_L (++)).
  - by rewrite last_snoc.
  - intros i x y Hx Hy. by apply (Hfine (S i)).
Qed.

Lemma resample_unchanged points max_step :
  (max_step <=? f_of_Z 0)%F = true ∨ fine_enough max_step points →
  _resample_polyline points max_step = Some points.
Proof.
  destruct points as [|p0 rest]; [done|]. simpl.
  destruct (_ <=? _)%F; [done|]. intros [?|Hfine]; [done|].
  by rewrite (resample_fold_fine max_step rest [p0] p0).
Qed.

(** Resampling raises only where a round of its loop does. *)
Lemma resample_None points max_step :
  _resample_polyline points max_step = None →
  ∃ a b, b ∈ points ∧ resample_raises max_step (_dist a b).
Proof.
  destruct points as [|p0 rest]; [done|]. simpl.
  destruct (_ <=? _)%F; [done|]. intros Hr.
  apply (foldlM_None (λ _, True)) in Hr as (out & b & Hb & _ & Hstep);
    [|done..].
  apply resample_step_None in Hstep. eexists _, b. split; [by right | done].
Qed.

(** With a ceiling that is at least one on the quotients the loop forms,
    no round of the loop leaves the output as it was. *)
Lemma resample_step_grows max_step out b out' :
  (max_step <=? f_of_Z 0)%F = false → ceil_law max_step →
  resample_step max_step out b = Some out' →
  S (length out) ≤ length out'.
Proof.
  intros Hpos Hceil. specialize (Hceil Hpos).
  unfold resample_step, py_div. cbn zeta.
  destruct (_dist _ b <=? max_step)%F eqn:Hd.
  { intros [= <-]. rewrite length_app; simpl; lia. }
  destruct (max_step =? _)%F; [done|]. simpl.
  destruct (f_ceil _) as [steps|] eqn:Hsteps; [|done]. simpl.
  intros [= <-]. specialize (Hceil _ _ Hd Hsteps).
  rewrite resample_fill_length. lia.
Qed.

Lemma resample_length points max_step out :
  ceil_law max_step →
  _resample_polyline points max_step = Some out →
  length points ≤ length out.
Proof.
  intros Hceil. destruct points as [|p0 rest]; simpl; [by intros [= <-]|].
  destruct (_ <=? _)%F eqn:Hpos; [by intros [= <-]|].
  change (S (length rest)) with (length [p0] + length rest).
  generalize [p0]. induction rest as [|b rest IH]; intros acc; simpl.
  { intros [= <-]. lia. }
  destruct (resample_step max_step acc b) as [acc'|] eqn:Hstep; [|done].
  simpl. intros Hr. apply IH in Hr.
  pose proof (resample_step_grows max_step acc b acc' Hpos Hceil Hstep). lia.
Qed.

End resample_facts.


Section linked_facts.
Context {A : Type} (R : A → A → Prop).
Implicit Types (l : list A).

Lemma linked_nil : linked R [].
Proof. by intros i a b ?. Qed.

Lemma linked_singleton a : linked R [a].
Proof. intros i x y Hx Hy. by destruct i. Qed.

Lemma linked_cons a b l : R a b → linked R (b :: l) → linked R (a :: b :: l).
Proof.
  intros Hab Hl i x y Hx Hy. destruct i as [|i].
  - simpl in *. by simplify_eq.
  - by apply (Hl i).
Qed.

Lemma linked_app l1 l2 :
  linked R l1 → linked R l2 →
  (∀ a b, last l1 = Some a → head l2 = Some b → R a b) →
  linked R (l1 ++ l2).
Proof.
  intros H1 H2 H12 i a b Ha Hb.
  destruct (decide (S i < length l1)) as [Hlt|Hge].
  { rewrite lookup_app_l in Ha, Hb by lia. by apply (H1 i). }
  destruct (decide (S i = length l1)) as [Heq|Hne].
  - rewrite lookup_app_l in Ha by lia. rewrite lookup_app_r in Hb by lia.
    rewrite Heq, Nat.sub_diag in Hb. apply H12.
    + rewrite last_lookup. by replace (pred (length l1)) with i by lia.
    + by rewrite head_lookup.
  - rewrite lookup_app_r in Ha, Hb by lia.
    replace (S i - length l1) with (S (i - length l1)) in Hb by lia.
    by apply (H2 (i - length l1)).
Qed.

End linked_facts.

Section plot_facts.
Context {num : Type} `{Arith num}.
Variables (poly_step_mm : num) (pen_settle_ms segment_dwell_ms : Z).
Implicit Types (cmds : list (PlotCmd num)) (st : Stroke num).

Let down := λ p : point num, mkPlotCmd p.1 p.2 1 segment_dwell_ms.
Let up := λ p : point num, mkPlotCmd p.1 p.2 0 0.

Lemma pen_discipline_nil : pen_discipline (@nil (PlotCmd num)).
Proof. split; [apply linked_nil|]. by repeat split. Qed.

Lemma pen_discipline_app cmds1 cmds2 :
  pen_discipline cmds1 → pen_discipline cmds2 → pen_discipline (cmds1 ++ cmds2).
Proof.
  intros (Hl1 & Hh1 & Ht1 & Hp1) (Hl2 & Hh2 & Ht2 & Hp2).
  destruct cmds2 as [|c2 cmds2]; [by rewrite app_nil_r|].
  split; [|split; [|split]].
  - apply linked_app; [done..|]. intros a b Ha Hb. left.
    by rewrite (Ht1 a Ha), (Hh2 b Hb).
  - intros c Hc. destruct cmds1; [by apply Hh2|by apply Hh1].
  - intros c Hc. rewrite last_app in Hc. simpl in *.
    destruct (last (c2 :: cmds2)) eqn:Hl; [|by apply last_None in Hl].
    by apply Ht2.
  - by apply Forall_app.
Qed.

(** The pen-down moves along [l], then the lift at its last point. *)
Lemma linked_draw (l : list (point num)) e :
  last l = Some e →
  linked still_when_pen_changes ((down <$> l) ++ [up e]).
Proof.
  induction l as [|x [|y l] IH]; intros Hlast; [done| |].
  - simpl in Hlast. injection Hlast as ->. simpl.
    apply linked_cons; [by right|apply linked_singleton].
  - rewrite !fmap_cons. simpl. apply linked_cons; [by left|]. by apply IH.
Qed.

Lemma polyline_cmds_unfold (pts : list (point num)) :
  polyline_cmds pen_settle_ms segment_dwell_ms pts
  = if bool_decide (length pts < 2) then []
    else [up (pts !!! 0);
          mkPlotCmd (pts !!! 0).1 (pts !!! 0).2 1 pen_settle_ms]
         ++ (down <$> drop 1 pts) ++ [up (default inhabitant (last pts))].
Proof.
  unfold polyline_cmds. case_bool_decide; [done|].
  destruct (pts !!! 0) as [sx sy], (default inhabitant (last pts)) as [ex ey].
  unfold up, down. simpl. do 3 f_equal. apply list_fmap_ext.
  by intros i [x y] _.
Qed.

Lemma polyline_cmds_discipline (pts : list (point num)) :
  pen_discipline (polyline_cmds pen_settle_ms segment_dwell_ms pts).
Proof.
  rewrite polyline_cmds_unfold.
  case_bool_decide as Hlen; [apply pen_discipline_nil|].
  destruct pts as [|p0 [|p1 rest]]; [simpl in Hlen; lia..|].
  clear Hlen. change (drop 1 (p0 :: p1 :: rest)) with (p1 :: rest).
  destruct (last (p0 :: p1 :: rest)) as [e|] eqn:Hlast;
    [|by apply last_None in Hlast].
  change (last (p0 :: p1 :: rest)) with (last (p1 :: rest)) in Hlast.
  simpl default. change ((p0 :: p1 :: rest) !!! 0) with p0.
  split; [|split; [|split]].
  - apply linked_cons; [by right|].
    change (linked still_when_pen_changes
              ([mkPlotCmd p0.1 p0.2 1 pen_settle_ms]
                 ++ ((down <$> p1 :: rest) ++ [up e]))).
    apply linked_app; [apply linked_singleton|by apply linked_draw|].
    intros a b [= <-] [= <-]. by left.
  - by intros c [= <-].
  - intros c. rewrite (assoc_L (++)), last_snoc. by intros [= <-].
  - constructor; [by left|]. constructor; [by right|].
    apply Forall_app. split.
    + apply Forall_fmap, Forall_forall. intros p _. by right.
    + constructor; [by left|done].
Qed.

Lemma polyline_cmds_length (pts : list (point num)) :
  length (polyline_cmds pen_settle_ms segment_dwell_ms pts)
  = let n := length pts in if bool_decide (n < 2) then 0 else n + 2.
Proof.
  rewrite polyline_cmds_unfold. cbn zeta. case_bool_decide; [done|].
  simpl. rewrite length_app, length_fmap, length_drop. simpl. lia.
Qed.

(** The exporter resamples every stroke, in order, and concatenates the
    commands of the resampled strokes; it raises when a resampling
    does. *)
Lemma to_plot_cmds_concat (strokes_mm : list (Stroke num)) :
  to_plot_cmds strokes_mm poly_step_mm pen_settle_ms segment_dwell_ms
  = rs ← mapM (λ st, _resample_polyline (pts st) poly_step_mm) strokes_mm;
    Some (concat (polyline_cmds pen_settle_ms segment_dwell_ms <$> rs)).
Proof.
  unfold to_plot_cmds.
  assert (∀ l acc,
            foldlM (λ cmds st,
                      c ← stroke_cmds poly_step_mm pen_settle_ms
                                      segment_dwell_ms st;
                      Some (cmds ++ c)) acc l
            = rs ← mapM (λ st, _resample_polyline (pts st) poly_step_mm) l;
              Some (acc ++ concat (polyline_cmds pen_settle_ms
                                     segment_dwell_ms <$> rs))) as Hfold.
  { unfold stroke_cmds. induction l as [|st l IH]; intros acc; simpl.
    - by rewrite app_nil_r.
    - destruct (_resample_polyline (pts st) poly_step_mm) as [r|]; [|done].
      simpl. rewrite IH.
      destruct (mapM _ l) as [rs|]; [|done]. simpl.
      by rewrite (assoc_L (++)). }
  rewrite Hfold. by destruct (mapM _ _).
Qed.

Lemma concat_cmds_discipline (rs : list (list (point num))) :
  pen_discipline
    (concat (polyline_cmds pen_settle_ms segment_dwell_ms <$> rs)).
Proof.
  induction rs as [|r rs IH]; simpl; [apply pen_discipline_nil|].
  apply pen_discipline_app; [apply polyline_cmds_discipline|done].
Qed.

Lemma concat_cmds_length (rs : list (list (point num))) :
  length (concat (polyline_cmds pen_settle_ms segment_dwell_ms <$> rs))
  = sum_list ((λ r, let n := length r in
                    if bool_decide (n < 2) then 0 else n + 2) <$> rs).
Proof.
  induction rs as [|r rs IH]; [done|].
  rewrite !fmap_cons. simpl. rewrite length_app, IH, polyline_cmds_length. done.
Qed.

Lemma concat_cmds_nil (rs : list (list (point num))) :
  concat (polyline_cmds pen_settle_ms segment_dwell_ms <$> rs) = []
  ↔ Forall (λ r, length r < 2) rs.
Proof.
  rewrite <- length_zero_iff_nil, concat_cmds_length.
  induction rs as [|r rs IH]; [done|].
  rewrite fmap_cons, Forall_cons, <- IH. cbn [sum_list_with]. cbv zeta.
  unfold id at 1. case_bool_decide; lia.
Qed.

(** The outcome of the exporter: the commands of the resampled strokes,
    or the exception of a resampling. *)
Lemma to_plot_cmds_spec (strokes_mm : list (Stroke num)) :
  match to_plot_cmds strokes_mm poly_step_mm pen_settle_ms segment_dwell_ms with
  | Some cmds =>
      ∃ rs, mapM (λ st, _resample_polyline (pts st) poly_step_mm) strokes_mm
            = Some rs
            ∧ cmds = concat (polyline_cmds pen_settle_ms segment_dwell_ms
                               <$> rs)
  | None =>
      Exists (λ st, _resample_polyline (pts st) poly_step_mm = None)
             strokes_mm
  end.
Proof.
  rewrite to_plot_cmds_concat.
  destruct (mapM _ strokes_mm) as [rs|] eqn:Hrs; simpl.
  - by exists rs.
  - by apply mapM_None_1.
Qed.

Lemma to_plot_cmds_discipline (strokes_mm : list (Stroke num)) cmds :
  to_plot_cmds strokes_mm poly_step_mm pen_settle_ms segment_dwell_ms
  = Some cmds →
  pen_discipline cmds.
Proof.
  intros Hc. pose proof (to_plot_cmds_spec strokes_mm) as Hspec.
  rewrite Hc in Hspec. destruct Hspec as (rs & _ & ->).
  apply concat_cmds_discipline.
Qed.

End plot_facts.

(** The plot program is well formed for every stroke list: it starts and
    ends with the pen up, a pen-up command never dwells, and between two
    consecutive commands the pen changes state only when both are at the
    same position, so that the pen is lowered and raised where the head
    stands and all travel between strokes is pen-up.  No program is
    written only when the resampling of a stroke raises. *)
Theorem plot_program_pen_discipline {num : Type} `{Arith num}
    (strokes_mm : list (Stroke num)) (poly_step_mm : num)
    (pen_settle_ms segment_dwell_ms : Z) :
  match to_plot_cmds strokes_mm poly_step_mm pen_settle_ms
                     segment_dwell_ms with
  | Some cmds =>
      (∀ i c1 c2, cmds !! i = Some c1 → cmds !! S i = Some c2 →
         pen_down c1 = pen_down c2 ∨ (x_mm c1 = x_mm c2 ∧ y_mm c1 = y_mm c2))
      ∧ (∀ c, head cmds = Some c → pen_down c = 0%Z)
      ∧ (∀ c, last cmds = Some c → pen_down c = 0%Z)
      ∧ Forall (λ c, (pen_down c = 0%Z ∧ dwell_ms c = 0%Z) ∨ pen_down c = 1%Z)
               cmds
  | None =>
      Exists (λ st, _resample_polyline (pts st) poly_step_mm = None)
             strokes_mm
  end.
Proof.
  pose proof (to_plot_cmds_spec poly_step_mm pen_settle_ms segment_dwell_ms
                strokes_mm) as Hspec.
  destruct (to_plot_cmds _ _ _ _) as [cmds|]; [|done].
  destruct Hspec as (rs & _ & ->). apply concat_cmds_discipline.
Qed.

(** A stroke that keeps [n >= 2] points after resampling costs [n + 2]
    commands, any other stroke none; so the program is empty exactly when
    no stroke keeps two points.  No program is written only when the
    resampling of a stroke raises. *)
Theorem plot_program_size {num : Type} `{Arith num}
    (strokes_mm : list (Stroke num)) (poly_step_mm : num)
    (pen_settle_ms segment_dwell_ms : Z) :
  match to_plot_cmds strokes_mm poly_step_mm pen_settle_ms
                     segment_dwell_ms with
  | Some cmds =>
      ∃ rs, mapM (λ st, _resample_polyline (pts st) poly_step_mm) strokes_mm
            = Some rs
        ∧ length cmds
          = sum_list ((λ r, let n := length r in
                            if bool_decide (n < 2) then 0 else n + 2) <$> rs)
        ∧ (cmds = [] ↔ Forall (λ r, length r < 2) rs)
  | None =>
      Exists (λ st, _resample_polyline (pts st) poly_step_mm = None)
             strokes_mm
  end.
Proof.
  pose proof (to_plot_cmds_spec poly_step_mm pen_settle_ms segment_dwell_ms
                strokes_mm) as Hspec.
  destruct (to_plot_cmds _ _ _ _) as [cmds|]; [|done].
  destruct Hspec as (rs & Hrs & ->). exists rs. split; [done|].
  split; [apply concat_cmds_length | apply concat_cmds_nil].
Qed.
(** ** Outline mode *)

Section outline_facts.
Context {num : Type} `{Arith num}.
Variables (verts : list (point num)) (cs : list path_code).
Variable curve_max_seg_len : num.
Implicit Types (st : outline_state num).

Let two := λ s : Stroke num, 2 ≤ length (pts s).

Lemma flush_two strokes cur : Forall two strokes → Forall two (flush strokes cur).
Proof.
  intros Hs. unfold flush. case_bool_decide; [|done].
  apply Forall_app. split; [done|]. by repeat constructor.
Qed.

(** The segment count is the clamped ceiling, or [max_n] when the
    resolution is zero or less; it raises where the division or the
    ceiling does. *)
Lemma approx_segments_count_spec (length_est : num) (min_n max_n : Z) :
  match _approx_segments_count length_est curve_max_seg_len min_n max_n with
  | Some n =>
      ((curve_max_seg_len <=? f_of_Z 0)%F = true → n = max_n)
      ∧ ((min_n ≤ max_n)%Z → (min_n ≤ n ≤ max_n)%Z)
  | None =>
      (curve_max_seg_len <=? f_of_Z 0)%F = false
      ∧ ((curve_max_seg_len =? f_of_Z 0)%F = true
         ∨ f_ceil (length_est / curve_max_seg_len)%F = None)
  end.
Proof.
  unfold _approx_segments_count, py_div.
  destruct (_ <=? _)%F; [split; [done | lia]|].
  destruct (_ =? _)%F; simpl; [split; [done | by left]|].
  destruct (f_ceil _); simpl; [split; [done | lia] | split; [done | by right]].
Qed.

(** While [i] is a position of [verts] a round raises only when the
    segment count of a curve does; it keeps the strokes at two points or
    more, and [i] grows when it continues. *)
Lemma outline_step_spec code st :
  o_i st < length verts → Forall two (o_strokes st) →
  match outline_step verts curve_max_seg_len code st with
  | Some (inl st') => o_i st < o_i st' ∧ Forall two (o_strokes st')
  | Some (inr st') => st' = st
  | None =>
      (code = CURVE3 ∨ code = CURVE4)
      ∧ segment_count_raises curve_max_seg_len
  end.
Proof.
  intros Hi Hs. destruct st as [strokes cur last_ start i]. simpl in *.
  destruct (lookup_lt_is_Some_2 verts i Hi) as [v ->]. simpl.
  destruct code.
  - simpl. split; [lia|by apply flush_two].
  - simpl. split; [lia|done].
  - case_bool_decide as Hlen; [done|].
    destruct (lookup_lt_is_Some_2 verts (i + 1)) as [e ->]; [lia|]. simpl.
    destruct (_approx_segments_count _ _ _ _) as [n|] eqn:Hn; simpl.
    + split; [lia|done].
    + split; [by left | by eexists].
  - case_bool_decide as Hlen; [done|].
    destruct (lookup_lt_is_Some_2 verts (i + 1)) as [c2 ->]; [lia|].
    destruct (lookup_lt_is_Some_2 verts (i + 2)) as [e ->]; [lia|]. simpl.
    destruct (_approx_segments_count _ _ _ _) as [n|] eqn:Hn; simpl.
    + split; [lia|done].
    + split; [by right | by eexists].
  - simpl. split; [lia|by apply flush_two].
  - simpl. split; [lia|by apply flush_two].
Qed.

(** The loop ends within [len(codes)] rounds, or raises in the round of a
    curve. *)
Lemma outline_loop_spec fuel : ∀ st,
  length cs ≤ length verts → length cs - o_i st ≤ fuel →
  Forall two (o_strokes st) →
  match outline_loop fuel verts cs curve_max_seg_len st with
  | Some st' => Forall two (o_strokes st')
  | None => has_curve cs ∧ segment_count_raises curve_max_seg_len
  end.
Proof.
  intros st Hlen. revert st.
  induction fuel as [|fuel IH]; intros st Hfuel Hs.
  - simpl. rewrite lookup_ge_None_2; [done|lia].
  - cbn [outline_loop].
    destruct (cs !! o_i st) as [code|] eqn:Hcode; [|done].
    pose proof (lookup_lt_Some _ _ _ Hcode) as Hlt.
    pose proof (outline_step_spec code st ltac:(lia) Hs) as Hstep.
    destruct (outline_step verts curve_max_seg_len code st) as [[st'|st']|];
      simpl.
    + destruct Hstep as [Hi Hs']. apply IH; [lia|done].
    + by subst st'.
    + destruct Hstep as [Hc Hraise]. split; [|done].
      apply list_elem_of_lookup_2 in Hcode.
      destruct Hc as [->| ->]; [by left | by right].
Qed.

End outline_facts.

Lemma path_to_strokes_spec {num : Type} `{Arith num} (p : Path num)
    (curve_max_seg_len : num) :
  (∀ cs, codes p = Some cs → length cs ≤ length (vertices p)) →
  match path_to_strokes p curve_max_seg_len with
  | Some strokes =>
      codes p ≠ None → Forall (λ s : Stroke num, 2 ≤ length (pts s)) strokes
  | None =>
      ∃ cs, codes p = Some cs ∧ has_curve cs
            ∧ segment_count_raises curve_max_seg_len
  end.
Proof.
  intros Hlen. unfold path_to_strokes.
  destruct (codes p) as [cs|] eqn:Hcodes; [|done].
  pose proof (outline_loop_spec (vertices p) cs curve_max_seg_len (length cs)
                (OutlineState [] [] (f_of_Q 0, f_of_Q 0) (f_of_Q 0, f_of_Q 0) 0)
                (Hlen cs eq_refl) ltac:(simpl; lia) ltac:(done)) as Hloop.
  destruct (outline_loop _ _ _ _ _) as [st|]; simpl.
  - intros _. by apply flush_two.
  - by exists cs.
Qed.


Example outline_square :
  path_to_strokes square_path 1%Q
  = Some [mkStroke [(0, 0); (1, 0); (1, 1); (0, 1); (0, 0)]%Q].
Proof. vm_compute. reflexivity. Qed.



(** On binary64 an infinite length estimate or a NaN resolution makes
    [math.ceil] raise. *)
Example segment_count_raises_on_infinity :
  _approx_segments_count F64.infinity (f_of_Z 1) 4 200 = None
  ∧ _approx_segments_count (f_of_Z 1) F64.nan 4 200 = None
  ∧ _approx_segments_count (f_of_Z 7) (f_of_Q 0.5) 4 200 = Some 14%Z.
Proof. repeat split; vm_compute; reflexivity. Qed.
(** ** The one-line branch of [main], end to end *)

Section one_line.
Context {num : Type} `{Arith num}.

Let two := λ s : Stroke num, 2 ≤ length (pts s).

(** On a rectangular mask the pipeline returns unless the closing step
    raises, and what it returns as strokes is a non-empty list of strokes
    of two points or more. *)
Lemma pipeline_returns h w (mask : grid bool)
    (width_mm height_mm raster_mm : num) (thin_max_iter : Z)
    (min_stroke_mm close_mm : num) (skeleton_method trace_mode : string) :
  rect h w mask →
  match text_to_centerline_strokes_mm mask width_mm height_mm raster_mm
          thin_max_iter min_stroke_mm close_mm skeleton_method trace_mode with
  | Some (inr strokes) => strokes ≠ [] ∧ Forall two strokes
  | Some (inl _) => True
  | None => closing_raises close_mm raster_mm
  end.
Proof.
  intros Hm. unfold text_to_centerline_strokes_mm.
  case_bool_decide as Hmask; [done|].
  destruct (count_true_pos h w mask Hm Hmask) as [Hh Hw].
  destruct (close_step mask close_mm raster_mm) as [closed|] eqn:Hclose;
    simpl; [|by eapply close_step_None].
  destruct (skeletonize_spec h w closed skeleton_method thin_max_iter)
    as (skel & -> & _); [by eapply rect_close_step|done..|].
  simpl. case_bool_decide; [done|].
  destruct (trace_step_spec width_mm height_mm raster_mm min_stroke_mm skel
              trace_mode) as (strokes & -> & Htwo & _).
  simpl. by case_bool_decide.
Qed.

(** The stages of the one-line branch after the pipeline: what stops
    them is the exception of a simplification or of a resampling, never
    an empty program. *)
Lemma after_pipeline_spec (args : Args.t num) (strokes : list (Stroke num)) :
  ceil_law (Args.poly_step_mm args) →
  strokes ≠ [] → Forall two strokes →
  match polish (Args.smooth_chaikin args) (Args.rdp_eps_mm args) strokes with
  | None => True
  | Some polished =>
    ∃ routed,
      route (Args.optimize_lr args) (Args.force_lr args)
            (Args.optimize_tlbr args) (Args.lr_penalty args)
            (Args.tlbr_penalty_up args) (Args.tlbr_penalty_left args)
            (Args.stitch_mm args) (Args.bridge_mm args) polished
      = Some routed
      ∧ match to_plot_cmds routed (Args.poly_step_mm args)
                (Args.pen_settle_ms args) (Args.segment_dwell_ms args) with
        | Some cmds => cmds ≠ [] ∧ pen_discipline cmds
        | None => True
        end
  end.
Proof.
  intros Hceil Hne Htwo.
  destruct (polish _ _ strokes) as [polished|] eqn:Hpolish; [|done].
  apply polish_spec in Hpolish as Hpol.
  assert (polished ≠ [] ∧ Forall two polished) as [Hne1 Htwo1].
  { split.
    - intros ->. apply Forall2_nil_inv_l in Hpol. done.
    - clear Hne Hpolish.
      induction Hpol as [|o s l l' (_ & _ & Ho) _ IH]; [done|].
      apply Forall_cons in Htwo as [Hs Htwo].
      constructor; [by apply Ho|by apply IH]. }
  destruct (route_spec 2 ltac:(lia) (Args.optimize_lr args) (Args.force_lr args)
              (Args.optimize_tlbr args) (Args.lr_penalty args)
              (Args.tlbr_penalty_up args) (Args.tlbr_penalty_left args)
              (Args.stitch_mm args) (Args.bridge_mm args) polished Htwo1)
    as (routed & Hroute & _ & Hne2 & Htwo2 & _).
  exists routed. split; [done|]. specialize (Hne2 Hne1).
  pose proof (to_plot_cmds_spec (Args.poly_step_mm args)
                (Args.pen_settle_ms args) (Args.segment_dwell_ms args) routed)
    as Hspec.
  destruct (to_plot_cmds routed _ _ _) as [cmds|]; [|done].
  destruct Hspec as (rs & Hrs & ->).
  split; [|apply concat_cmds_discipline].
  intros Hnil. apply concat_cmds_nil in Hnil.
  apply mapM_Some_1 in Hrs.
  destruct Hrs as [|st r routed' rs' Hr _]; [done|].
  apply Forall_cons in Hnil as [Hshort _], Htwo2 as [Hst2 _].
  pose proof (resample_length (pts st) (Args.poly_step_mm args) r Hceil Hr).
  unfold two in Hst2. lia.
Qed.

Lemma main_one_line_spec h w (args : Args.t num) (mask : grid bool) :
  ceil_law (Args.poly_step_mm args) →
  rect h w mask →
  let pipeline :=
    text_to_centerline_strokes_mm mask
      (Args.width_mm args) (Args.height_mm args) (Args.raster_mm args)
      (Args.thin_max_iter args) (Args.min_stroke_mm args)
      (Args.close_mm args) (Args.skeleton_method args)
      (Args.trace_mode args) in
  match main_one_line args mask with
  | Some (inl (PipelineError e)) => pipeline = Some (inl e)
  | Some (inl NoPlotCommands) => False
  | Some (inr cmds) => cmds ≠ [] ∧ pen_discipline cmds
  | None =>
      (pipeline = None
       ∧ closing_raises (Args.close_mm args) (Args.raster_mm args))
      ∨ ∃ strokes,
          pipeline = Some (inr strokes)
          ∧ (polish (Args.smooth_chaikin args) (Args.rdp_eps_mm args) strokes
             = None
             ∨ ∃ polished routed,
                 polish (Args.smooth_chaikin args) (Args.rdp_eps_mm args)
                        strokes = Some polished
                 ∧ route (Args.optimize_lr args) (Args.force_lr args)
                         (Args.optimize_tlbr args) (Args.lr_penalty args)
                         (Args.tlbr_penalty_up args)
                         (Args.tlbr_penalty_left args)
                         (Args.stitch_mm args) (Args.bridge_mm args) polished
                   = Some routed
                 ∧ to_plot_cmds routed (Args.poly_step_mm args)
                     (Args.pen_settle_ms args) (Args.segment_dwell_ms args)
                   = None)
  end.
Proof.
  intros Hceil Hm pipeline. unfold main_one_line. fold pipeline.
  pose proof (pipeline_returns h w mask
                (Args.width_mm args) (Args.height_mm args) (Args.raster_mm args)
                (Args.thin_max_iter args) (Args.min_stroke_mm args)
                (Args.close_mm args) (Args.skeleton_method args)
                (Args.trace_mode args) Hm) as Hpipe.
  fold pipeline in Hpipe.
  destruct pipeline as [[e|strokes]|] eqn:Hres; simpl; [done| |by left].
  destruct Hpipe as [Hne Htwo].
  pose proof (after_pipeline_spec args strokes Hceil Hne Htwo) as Hafter.
  destruct (polish _ _ strokes) as [polished|] eqn:Hpolish; simpl.
  2: { right. exists strokes. split; [done | by left]. }
  destruct Hafter as (routed & Hroute & Hcmds). rewrite Hroute. simpl.
  destruct (to_plot_cmds routed _ _ _) as [cmds|] eqn:Hplot; simpl.
  - destruct Hcmds as [Hne' Hdisc]. by rewrite bool_decide_eq_false_2.
  - right. exists strokes. split; [done|]. right. exists polished, routed.
    by rewrite Hpolish.
Qed.

End one_line.


Lemma Q_ceil_law : ceil_law (Args.poly_step_mm demo_args).
Proof.
  unfold ceil_law. simpl. intros _ d n Hd [= <-].
  assert (7 # 10 < d)%Q as Hlt.
  { apply Qnot_le_lt. intros Hle. apply Qle_bool_iff in Hle. congruence. }
  rewrite (Qceiling_comp _ _ (Qred_correct _)).
  change 1%Z with (Qceiling (inject_Z 1)) at 1 || rewrite <- (Qceiling_Z 1).
  apply Qceiling_resp_le. apply Qle_shift_div_l; [done|].
  apply Qlt_le_weak. by rewrite Qmult_1_l.
Qed.

Example one_line_demo :
  ∃ cmds, main_one_line demo_args line3 = Some (inr cmds) ∧ length cmds = 6.
Proof. eexists. split; vm_compute; reflexivity. Qed.


(** ** The chamfer distance and its ridge *)

Section chamfer_facts.
Variables (h w : nat) (mask : grid bool).
Hypothesis Hmask : rect h w mask.

(** Zero on the background, between one orthogonal step and the initial
    "infinity" on the foreground. *)
Let in_range := λ dist : grid Z,
  ∀ i j, (at2 false mask i j = false → at2 0%Z dist i j = 0%Z)
         ∧ (at2 false mask i j = true → (3 ≤ at2 0%Z dist i j ≤ 10 ^ 9)%Z).

Lemma in_range_nonneg dist i j : in_range dist → (0 ≤ at2 0%Z dist i j)%Z.
Proof.
  intros Hd. destruct (Hd i j) as [H0 H1].
  destruct (at2 false mask i j); [specialize (H1 eq_refl); lia|].
  rewrite H0; [lia|done].
Qed.

Lemma in_range_set2 dist r c d :
  in_range dist → at2 false mask r c = true → (3 ≤ d ≤ 10 ^ 9)%Z →
  in_range (set2 dist r c d).
Proof.
  intros Hd Hm Hv i j.
  destruct (at2_set2 0%Z dist r c d i j) as [->|(-> & -> & ->)]; [apply Hd|].
  split; [congruence|done].
Qed.

Lemma chamfer_init :
  in_range (zip2d (λ d (m : bool), if negb m then 0%Z else d)
                  (np_full h w (10 ^ 9)%Z) mask)
  ∧ rect h w (zip2d (λ d (m : bool), if negb m then 0%Z else d)
                    (np_full h w (10 ^ 9)%Z) mask).
Proof.
  assert (rect h w (np_full h w (10 ^ 9)%Z)) as Hfull.
  { split; [apply length_replicate|].
    apply Forall_replicate. apply length_replicate. }
  split; [|by apply rect_zip2d].
  intros i j. unfold at2, zip2d, np_full. rewrite lookup_zip_with.
  destruct (decide (i < h)) as [Hi|Hi].
  - rewrite lookup_replicate_2 by done. simpl.
    destruct (mask !! i) as [row|] eqn:Hrow; simpl; [|done].
    rewrite lookup_zip_with.
    pose proof (rect_lookup h w mask i row Hmask Hrow) as Hlen.
    destruct (row !! j) as [m|] eqn:Hm; simpl.
    + apply lookup_lt_Some in Hm.
      rewrite lookup_replicate_2 by lia. simpl.
      destruct m; simpl; split; (done || lia).
    + destruct (replicate w (10 ^ 9)%Z !! j); simpl; done.
  - rewrite (lookup_ge_None_2 mask i) by (rewrite (proj1 Hmask); lia).
    destruct (replicate h _ !! i); simpl; done.
Qed.

(** Both passes: a cell of the foreground takes the least of its value and
    of neighbouring values plus a positive weight. *)
Lemma chamfer_pass (cells : nat → list nat) (rows : list nat)
    (relax : grid Z → nat → nat → Z) dist :
  (∀ dist r c, in_range dist →
     (Z.min (at2 0%Z dist r c) 3 ≤ relax dist r c ≤ at2 0%Z dist r c)%Z) →
  in_range dist → rect h w dist →
  let dist' :=
    foldl (λ dist r,
      foldl (λ dist c,
        if negb (at2 false mask r c) then dist
        else set2 dist r c (relax dist r c))
        dist (cells r))
      dist rows in
  in_range dist' ∧ rect h w dist'.
Proof.
  intros Hrelax Hd Hr. cbn zeta.
  apply (foldl_invariant (λ dist, in_range dist ∧ rect h w dist)); [done|].
  intros dist1 r _ Hd1. apply foldl_invariant; [done|].
  intros dist2 c _ [Hd2 Hr2].
  destruct (at2 false mask r c) eqn:Hm; simpl; [|done].
  split; [|by apply rect_set2].
  apply in_range_set2; [done..|].
  pose proof (Hrelax dist2 r c Hd2). destruct (Hd2 r c) as [_ Hrc].
  specialize (Hrc Hm). lia.
Qed.

Lemma chamfer_spec :
  in_range (_distance_transform_chamfer mask)
  ∧ rect h w (_distance_transform_chamfer mask).
Proof.
  unfold _distance_transform_chamfer.
  destruct (shape mask) as [h' w'] eqn:Hshape.
  assert (h' = h) as -> by (unfold shape in Hshape; destruct Hmask; congruence).
  destruct chamfer_init as [Hd0 Hr0].
  destruct (decide (h = 0)) as [->|Hh].
  { destruct Hmask as [Hlen _]. apply nil_length_inv in Hlen. subst mask.
    simpl. split; [|done]. intros i j. unfold at2.
    by rewrite !lookup_nil. }
  assert (w' = w) as ->.
  { rewrite (rect_shape h w mask) in Hshape by (done || lia). congruence. }
  cbn zeta.
  match goal with
  | |- in_range (foldl ?f2 (foldl ?f1 ?d0 ?l1) ?l2) ∧ _ =>
    assert (in_range (foldl f1 d0 l1) ∧ rect h w (foldl f1 d0 l1)) as [Hd1 Hr1]
  end.
  { apply (chamfer_pass (λ _, seq 0 w) (seq 0 h)
             (λ dist r c,
                let d := at2 0%Z dist r c in
                let d :=
                  if decide (0 < r) then
                    let d := Z.min d (at2 0%Z dist (r - 1) c + 3) in
                    let d := if decide (0 < c)
                             then Z.min d (at2 0%Z dist (r - 1) (c - 1) + 4)
                             else d in
                    if decide (c + 1 < w)
                    then Z.min d (at2 0%Z dist (r - 1) (c + 1) + 4) else d
                  else d in
                if decide (0 < c)
                then Z.min d (at2 0%Z dist r (c - 1) + 3) else d));
      [|done..].
    intros dist r c Hd. cbn zeta.
    pose proof (in_range_nonneg dist (r - 1) c Hd).
    pose proof (in_range_nonneg dist (r - 1) (c - 1) Hd).
    pose proof (in_range_nonneg dist (r - 1) (c + 1) Hd).
    pose proof (in_range_nonneg dist r (c - 1) Hd).
    repeat case_decide; lia. }
  apply (chamfer_pass (λ _, reverse (seq 0 w)) (reverse (seq 0 h))
           (λ dist r c,
              let d := at2 0%Z dist r c in
              let d :=
                if decide (r + 1 < h) then
                  let d := Z.min d (at2 0%Z dist (r + 1) c + 3) in
                  let d := if decide (0 < c)
                           then Z.min d (at2 0%Z dist (r + 1) (c - 1) + 4)
                           else d in
                  if decide (c + 1 < w)
                  then Z.min d (at2 0%Z dist (r + 1) (c + 1) + 4) else d
                else d in
              if decide (c + 1 < w)
              then Z.min d (at2 0%Z dist r (c + 1) + 3) else d));
    [|done..].
  intros dist r c Hd. cbn zeta.
  pose proof (in_range_nonneg dist (r + 1) c Hd).
  pose proof (in_range_nonneg dist (r + 1) (c - 1) Hd).
  pose proof (in_range_nonneg dist (r + 1) (c + 1) Hd).
  pose proof (in_range_nonneg dist r (c + 1) Hd).
  repeat case_decide; lia.
Qed.

End chamfer_facts.

(** The chamfer distance keeps the shape of the mask, is zero exactly on
    the background, and on the foreground lies between one orthogonal step
    (3) and the initial value [10^9]: no sum formed by the two passes
    leaves the range of [int32]. *)
Theorem chamfer_distance_range h w (mask : grid bool) :
  rect h w mask →
  rect h w (_distance_transform_chamfer mask)
  ∧ ∀ i j,
      (at2 false mask i j = false →
       at2 0%Z (_distance_transform_chamfer mask) i j = 0%Z)
      ∧ (at2 false mask i j = true →
         (3 ≤ at2 0%Z (_distance_transform_chamfer mask) i j ≤ 10 ^ 9)%Z).
Proof.
  intros Hm. destruct (chamfer_spec h w mask Hm) as [Hd Hr]. by split.
Qed.

Lemma chamfer_distance_range_witness :
  rect 8 8 (_distance_transform_chamfer blob3)
  ∧ ∀ i j,
      (at2 false blob3 i j = false →
       at2 0%Z (_distance_transform_chamfer blob3) i j = 0%Z)
      ∧ (at2 false blob3 i j = true →
         (3 ≤ at2 0%Z (_distance_transform_chamfer blob3) i j ≤ 10 ^ 9)%Z).
Proof. apply chamfer_distance_range, rect_blob3. Defined.

Lemma foldl_max_le (xs : list Z) : ∀ x d,
  (foldl Z.max x xs ≤ d)%Z ↔ (x ≤ d)%Z ∧ Forall (λ y, (y ≤ d)%Z) xs.
Proof.
  induction xs as [|y xs IH]; intros x d; simpl.
  - split; [by intros ?; split|by intros [? _]].
  - rewrite IH, Forall_cons. cbn beta.
    pose proof (Z.max_lub_iff x y d). tauto.
Qed.

(** [local.max() <= d] says that no cell of the window exceeds [d]. *)
Lemma np_max_le (local : grid Z) d :
  concat local ≠ [] →
  (np_max local ≤ d)%Z ↔ ∀ x, x ∈ concat local → (x ≤ d)%Z.
Proof.
  unfold np_max. destruct (concat local) as [|x xs]; [done|]. intros _.
  rewrite foldl_max_le. split.
  - intros [Hx Hxs] y [->|Hy]%elem_of_cons; [done|].
    by apply (proj1 (Forall_forall _ _) Hxs).
  - intros Hall. split; [apply Hall; by left|].
    apply Forall_forall. intros y Hy. apply Hall. by right.
Qed.

Lemma window_max_le h w (dist : grid Z) r c d :
  rect h w dist → 0 < r → r + 1 < h → 0 < c → c + 1 < w →
  (np_max (slice2 (r - 1) (r + 2) (c - 1) (c + 2) dist) ≤ d)%Z
  ↔ ∀ i j, r - 1 ≤ i ≤ r + 1 → c - 1 ≤ j ≤ c + 1 → (at2 0%Z dist i j ≤ d)%Z.
Proof.
  intros Hd Hr0 Hr1 Hc0 Hc1.
  set (local := slice2 (r - 1) (r + 2) (c - 1) (c + 2) dist).
  assert (rect 3 3 local) as Hl.
  { unfold local. replace (r + 2) with (r - 1 + 3) by lia.
    replace (c + 2) with (c - 1 + 3) by lia.
    apply (rect_slice2 3 3 h w); [done|lia..]. }
  assert (∀ i j, i < 3 → j < 3 →
            at2 0%Z local i j = at2 0%Z dist (r - 1 + i) (c - 1 + j)) as Hat.
  { intros i j Hi Hj. unfold local. rewrite at2_slice2.
    rewrite decide_True by lia. done. }
  assert (∀ x, x ∈ concat local ↔ ∃ i j, i < 3 ∧ j < 3 ∧ x = at2 0%Z local i j)
    as Hin.
  { intros x. rewrite elem_of_concat. split.
    - intros (row & Hrow & Hx).
      apply list_elem_of_lookup in Hrow as [i Hi], Hx as [j Hj].
      exists i, j. repeat split.
      + apply lookup_lt_Some in Hi. by rewrite (proj1 Hl) in Hi.
      + apply lookup_lt_Some in Hj.
        by rewrite (rect_lookup 3 3 local i row Hl Hi) in Hj.
      + by rewrite (at2_lookup 0%Z local i j row x).
    - intros (i & j & Hi & Hj & ->).
      destruct (lookup_lt_is_Some_2 local i) as [row Hrow];
        [by rewrite (proj1 Hl)|].
      destruct (lookup_lt_is_Some_2 row j) as [x Hx];
        [by rewrite (rect_lookup 3 3 local i row Hl Hrow)|].
      exists row. rewrite (at2_lookup 0%Z local i j row x) by done.
      split; [by eapply list_elem_of_lookup_2|by eapply list_elem_of_lookup_2]. }
  rewrite np_max_le.
  - split.
    + intros Hall i j Hi Hj.
      replace i with (r - 1 + (i - (r - 1))) by lia.
      replace j with (c - 1 + (j - (c - 1))) by lia.
      rewrite <- Hat by lia. apply Hall, Hin.
      exists (i - (r - 1)), (j - (c - 1)). repeat split; lia.
    + intros Hall x (i & j & Hi & Hj & ->)%Hin. rewrite Hat by done.
      apply Hall; lia.
  - intros Hnil.
    assert (at2 0%Z local 0 0 ∈ concat local) as Hx.
    { apply Hin. exists 0, 0. repeat split; lia. }
    rewrite Hnil in Hx. by apply elem_of_nil in Hx.
Qed.

Section set_cells.
Variables (h w : nat) (cond : nat → nat → bool).
Variable f : grid bool → nat → nat → grid bool.
Hypothesis Hf : ∀ s r c, f s r c = if cond r c then set2 s r c true else s.

Lemma set_cell_spec s r c :
  rect h w s → r < h → c < w →
  rect h w (f s r c)
  ∧ ∀ i j, at2 false (f s r c) i j = true
           ↔ at2 false s i j = true ∨ (i = r ∧ j = c ∧ cond r c = true).
Proof.
  intros Hs Hr Hc. rewrite Hf. destruct (cond r c) eqn:Hcond.
  - split; [by apply rect_set2|]. intros i j. split.
    + destruct (at2_set2 false s r c true i j) as [->|(-> & -> & _)]; tauto.
    + intros [Hij|(-> & -> & _)].
      * destruct (at2_set2 false s r c true i j) as [->|(_ & _ & ->)]; done.
      * destruct (lookup_lt_is_Some_2 s r) as [row Hrow];
          [by rewrite (proj1 Hs)|].
        apply (at2_set2_eq false s r c true row Hrow).
        by rewrite (rect_lookup h w s r row Hs Hrow).
  - split; [done|]. intros i j. split; [tauto|]. intros [?|(_ & _ & ?)]; done.
Qed.

Lemma set_row_spec (cols : list nat) r : ∀ s,
  rect h w s → r < h → Forall (λ c, c < w) cols →
  rect h w (foldl (λ s c, f s r c) s cols)
  ∧ ∀ i j, at2 false (foldl (λ s c, f s r c) s cols) i j = true
           ↔ at2 false s i j = true ∨ (i = r ∧ j ∈ cols ∧ cond r j = true).
Proof.
  induction cols as [|c cols IH]; intros s Hs Hr Hcols; simpl.
  { split; [done|]. intros i j. split; [tauto|].
    intros [?|(_ & ?%elem_of_nil & _)]; done. }
  apply Forall_cons in Hcols as [Hc Hcols].
  destruct (set_cell_spec s r c Hs Hr Hc) as [Hs1 H1].
  destruct (IH (f s r c) Hs1 Hr Hcols) as [Hs2 H2].
  split; [done|]. intros i j. rewrite H2, H1, elem_of_cons.
  split.
  - intros [[?|(-> & -> & ?)]|(-> & ? & ?)]; tauto.
  - intros [?|(-> & [->|?] & ?)]; tauto.
Qed.

Lemma set_rows_spec (rows cols : list nat) : ∀ s,
  rect h w s → Forall (λ r, r < h) rows → Forall (λ c, c < w) cols →
  rect h w (foldl (λ s r, foldl (λ s c, f s r c) s cols) s rows)
  ∧ ∀ i j, at2 false (foldl (λ s r, foldl (λ s c, f s r c) s cols) s rows) i j
           = true
           ↔ at2 false s i j = true ∨ (i ∈ rows ∧ j ∈ cols ∧ cond i j = true).
Proof.
  induction rows as [|r rows IH]; intros s Hs Hrows Hcols; simpl.
  { split; [done|]. intros i j. split; [tauto|].
    intros [?|(?%elem_of_nil & _)]; done. }
  apply Forall_cons in Hrows as [Hr Hrows].
  destruct (set_row_spec cols r s Hs Hr Hcols) as [Hs1 H1].
  destruct (IH _ Hs1 Hrows Hcols) as [Hs2 H2].
  split; [done|]. intros i j. rewrite H2, H1, elem_of_cons.
  split.
  - intros [[?|(-> & ? & ?)]|(? & ? & ?)]; tauto.
  - intros [?|([->|?] & ? & ?)]; tauto.
Qed.

End set_cells.

Lemma elem_of_interior_range (n i : nat) :
  i ∈ Z.to_nat <$> range 1 (Z.of_nat n - 1) ↔ 0 < i ∧ i + 1 < n.
Proof.
  unfold range. rewrite list_elem_of_fmap. split.
  - intros (z & -> & Hz%elem_of_seqZ). lia.
  - intros Hi. exists (Z.of_nat i). split; [lia|]. apply elem_of_seqZ. lia.
Qed.

(** The ridge is the set of local maxima of the distance map: a cell is
    set exactly when it lies off the border, is a foreground cell with a
    distance that is not zero, and no cell of its 3 x 3 neighbourhood has
    a larger distance. *)
Theorem ridge_is_local_maximum h w (mask : grid bool) (dist : grid Z) r c :
  rect h w mask → rect h w dist →
  at2 false (_ridge_skeleton_from_dist mask dist) r c = true
  ↔ 0 < r ∧ r + 1 < h ∧ 0 < c ∧ c + 1 < w
    ∧ at2 false mask r c = true
    ∧ at2 0%Z dist r c ≠ 0%Z
    ∧ ∀ i j, r - 1 ≤ i ≤ r + 1 → c - 1 ≤ j ≤ c + 1 →
             (at2 0%Z dist i j ≤ at2 0%Z dist r c)%Z.
Proof.
  intros Hm Hd. unfold _ridge_skeleton_from_dist.
  destruct (decide (h = 0)) as [->|Hh].
  { destruct Hm as [Hlen _]. apply nil_length_inv in Hlen. subst mask.
    simpl. unfold at2 at 1. rewrite lookup_nil. simpl. split; [done|lia]. }
  rewrite (rect_shape h w) by (done || lia).
  set (cond := λ r c : nat,
         at2 false mask r c
         && bool_decide (at2 0%Z dist r c ≠ 0%Z)
         && bool_decide (np_max (slice2 (r - 1) (r + 2) (c - 1) (c + 2) dist)
                         ≤ at2 0%Z dist r c)%Z).
  match goal with
  | |- at2 false (foldl (λ a x, foldl (λ b y, @?f b x y) a ?cols) ?s0 ?rows) _ _
         = true ↔ _ =>
    assert (∀ s r c, f s r c = if cond r c then set2 s r c true else s) as Hf;
    [|destruct (set_rows_spec h w cond f Hf rows cols s0) as [_ Hspec]]
  end.
  - intros s r' c'. unfold cond.
    destruct (at2 false mask r' c'); simpl; [|done].
    repeat case_decide; simpl;
      rewrite ?bool_decide_eq_true_2, ?bool_decide_eq_false_2 by done; done.
  - by apply rect_zeros_like.
  - apply Forall_forall. intros i ?%elem_of_interior_range. lia.
  - apply Forall_forall. intros i ?%elem_of_interior_range. lia.
  - rewrite Hspec, at2_zeros_like, !elem_of_interior_range. unfold cond.
    rewrite !andb_true_iff, !bool_decide_eq_true. split.
    + intros [?|((Hr0 & Hr1) & (Hc0 & Hc1) & (Hmask & Hne) & Hmax)]; [done|].
      rewrite (window_max_le h w) in Hmax by done. tauto.
    + intros (Hr0 & Hr1 & Hc0 & Hc1 & Hmask & Hne & Hmax). right.
      rewrite (window_max_le h w) by done. tauto.
Qed.

Lemma ridge_is_local_maximum_witness :
  at2 false (_ridge_skeleton_from_dist blob3 (_distance_transform_chamfer blob3))
      3 3 = true
  ↔ 0 < 3 ∧ 3 + 1 < 8 ∧ 0 < 3 ∧ 3 + 1 < 8
    ∧ at2 false blob3 3 3 = true
    ∧ at2 0%Z (_distance_transform_chamfer blob3) 3 3 ≠ 0%Z
    ∧ ∀ i j, 3 - 1 ≤ i ≤ 3 + 1 → 3 - 1 ≤ j ≤ 3 + 1 →
             (at2 0%Z (_distance_transform_chamfer blob3) i j
              ≤ at2 0%Z (_distance_transform_chamfer blob3) 3 3)%Z.
Proof.
  apply (ridge_is_local_maximum 8 8); [apply rect_blob3|].
  apply chamfer_spec, rect_blob3.
Defined.

(** ** Thinning: what a converged run returns *)

Section thin_stable_facts.
Variables h w : nat.
Hypothesis Hh : 0 < h.
Hypothesis Hw : 0 < w.
Implicit Types (img : grid Z).

Lemma clear_borders_keeps_interior img img' i j :
  clear_borders img = Some img' →
  0 < i → i + 1 < h → 0 < j → j + 1 < w → rect h w img →
  at2 0%Z img' i j = at2 0%Z img i j.
Proof.
  intros Hcb Hi0 Hi1 Hj0 Hj1 Himg. unfold clear_borders in Hcb.
  rewrite (rect_shape h w) in Hcb by done.
  case_decide; [done|]. injection Hcb as <-.
  unfold at2. rewrite !list_lookup_fmap, !list_lookup_alter_ne by lia.
  destruct (img !! i) as [row|]; simpl; [|done].
  by rewrite !list_lookup_insert_ne by lia.
Qed.

(** An image whose border is clear is left as it is by [clear_borders]. *)
Lemma clear_borders_id img :
  rect h w img → interior h w img → clear_borders img = Some img.
Proof.
  intros Himg Hint.
  destruct (clear_borders_is_Some h w img Himg Hh Hw) as [img' Hcb].
  rewrite Hcb. f_equal.
  pose proof (cleared_clear_borders _ _ Hcb) as Hc.
  apply (grid_ext 0%Z h w); [by eapply cleared_rect|done|].
  intros i j Hi Hj.
  destruct (decide (at2 0%Z img i j = 0%Z)) as [Hz|Hnz].
  - destruct (decide (at2 0%Z img' i j = 0%Z)) as [Hz'|Hnz']; [congruence|].
    by apply cleared_at2.
  - destruct (Hint i j Hnz) as (? & ? & ? & ?).
    by apply (clear_borders_keeps_interior img img').
Qed.

(** A pass that reports no change has found nothing to remove and
    returns the image it was given. *)
Lemma thin_body_unchanged st st' :
  rect h w (thin_img st) → interior h w (thin_img st) →
  thin_body st = Some st' → thin_changed st' = false →
  thin_img st' = thin_img st ∧ thin_stable (thin_img st).
Proof.
  intros Himg Hint Hbody Hch. unfold thin_body in Hbody.
  destruct (np_any (removable false (thin_img st))) eqn:Hm1.
  { destruct (clear_borders _) as [i2|]; [|done]. simpl in Hbody.
    destruct (np_any (removable true i2));
      (destruct (clear_borders _); [|done]); simpl in Hbody;
      injection Hbody as <-; done. }
  rewrite (clear_borders_id _ Himg Hint) in Hbody. simpl in Hbody.
  destruct (np_any (removable true (thin_img st))) eqn:Hm2.
  { destruct (clear_borders _); [|done]. simpl in Hbody.
    injection Hbody as <-. done. }
  rewrite (clear_borders_id _ Himg Hint) in Hbody. simpl in Hbody.
  injection Hbody as <-. done.
Qed.

Lemma thin_while_stable max_iter fuel : ∀ st st',
  rect h w (thin_img st) → interior h w (thin_img st) →
  (thin_changed st = false → thin_stable (thin_img st)) →
  thin_while fuel max_iter st = Some st' → thin_changed st' = false →
  thin_stable (thin_img st').
Proof.
  induction fuel as [|fuel IH]; intros st st' Himg Hint Hst Hrun Hch.
  - simpl in Hrun. destruct (_ && _); [done|]. injection Hrun as <-. auto.
  - simpl in Hrun. destruct (_ && _).
    + destruct (thin_body_spec h w Hh Hw st Himg)
        as (st1 & Hbody & Hr1 & _ & Hi1 & _).
      rewrite Hbody in Hrun. simpl in Hrun.
      apply (IH st1 st'); [done..| |done|done].
      intros Hch1.
      destruct (thin_body_unchanged st st1 Himg Hint Hbody Hch1) as [-> Hs].
      done.
    + injection Hrun as <-. auto.
Qed.

Lemma astype_round_trip img :
  rect h w img →
  (∀ i j, at2 0%Z img i j = 0%Z ∨ at2 0%Z img i j = 1%Z) →
  astype_u8 (astype_bool img) = img.
Proof.
  intros Himg Hbin. apply (grid_ext 0%Z h w); [|done|].
  { unfold astype_u8, astype_bool. by repeat apply rect_map2d. }
  intros i j _ _. unfold astype_u8, astype_bool.
  rewrite (at2_map2d false 0%Z Z.b2z) by done.
  rewrite (at2_map2d 0%Z false (λ x, bool_decide (x ≠ 0%Z)))
    by (by rewrite bool_decide_eq_false_2 by (intros ?; done)).
  destruct (Hbin i j) as [->| ->]; done.
Qed.

Lemma thin_run_binary mask max_iter st :
  rect h w mask → zhang_suen_run mask max_iter = Some st →
  ∀ i j, at2 0%Z (thin_img st) i j = 0%Z ∨ at2 0%Z (thin_img st) i j = 1%Z.
Proof.
  intros Hm Hrun i j.
  destruct (zhang_suen_run_spec h w Hh Hw mask max_iter Hm)
    as (img0 & st0 & Hcb & Hrun' & _ & Hc & _).
  rewrite Hrun in Hrun'. injection Hrun' as <-.
  destruct (decide (at2 0%Z (thin_img st) i j = 0%Z)) as [?|Hnz]; [by left|].
  right. rewrite (cleared_at2 _ _ _ _ Hc Hnz).
  pose proof (cleared_clear_borders _ _ Hcb) as Hc0.
  rewrite (cleared_at2 _ _ _ _ Hc Hnz) in Hnz.
  rewrite (cleared_at2 _ _ _ _ Hc0 Hnz).
  rewrite (cleared_at2 _ _ _ _ Hc0 Hnz) in Hnz.
  unfold astype_u8 in *.
  rewrite (at2_map2d false 0%Z Z.b2z) in Hnz |- * by done.
  by destruct (at2 false mask i j).
Qed.

Lemma thin_converged_spec mask max_iter st max_iter' :
  rect h w mask →
  zhang_suen_run mask max_iter = Some st → thin_changed st = false →
  thin_stable (thin_img st)
  ∧ _zhang_suen_thin (astype_bool (thin_img st)) max_iter'
    = Some (astype_bool (thin_img st)).
Proof.
  intros Hm Hrun Hch.
  pose proof (thin_run_binary mask max_iter st Hm Hrun) as Hbin.
  destruct (zhang_suen_run_spec h w Hh Hw mask max_iter Hm)
    as (img0 & st0 & Hcb & Hrun' & Himg & _ & Hint & _).
  rewrite Hrun in Hrun'. injection Hrun' as <-.
  assert (thin_stable (thin_img st)) as Hstable.
  { unfold zhang_suen_run in Hrun. rewrite Hcb in Hrun. simpl in Hrun.
    apply (thin_while_stable max_iter (Z.to_nat max_iter)
             (ThinState img0 true 0) st); [| |done..].
    - eapply cleared_rect; [by apply cleared_clear_borders|].
      unfold astype_u8. by apply rect_map2d.
    - intros i j. apply (clear_borders_interior h w (astype_u8 mask));
        [unfold astype_u8; by apply rect_map2d|done]. }
  split; [done|].
  unfold _zhang_suen_thin, zhang_suen_run.
  rewrite (astype_round_trip _ Himg Hbin), (clear_borders_id _ Himg Hint).
  simpl. destruct Hstable as [Hm1 Hm2].
  destruct (Z.to_nat max_iter') as [|fuel] eqn:Hfuel; simpl.
  { rewrite bool_decide_eq_false_2 by lia. done. }
  rewrite bool_decide_eq_true_2 by lia.
  unfold thin_body. simpl. rewrite Hm1.
  rewrite (clear_borders_id _ Himg Hint). simpl. rewrite Hm2.
  rewrite (clear_borders_id _ Himg Hint). simpl.
  by destruct fuel.
Qed.

End thin_stable_facts.

(** A thinning run that stops because a pass changed nothing (and not
    because it reached the iteration cap) returns a stable skeleton: no
    pixel of it is removable, and thinning it again, with any cap,
    returns it unchanged. *)
Theorem thinning_is_stable_once_converged h w (mask : grid bool)
    (max_iter max_iter' : Z) (st : thin_state) :
  rect h w mask → 0 < h → 0 < w →
  zhang_suen_run mask max_iter = Some st → thin_changed st = false →
  thin_stable (thin_img st)
  ∧ _zhang_suen_thin (astype_bool (thin_img st)) max_iter'
    = Some (astype_bool (thin_img st)).
Proof. intros Hm Hh Hw. by apply (thin_converged_spec h w). Qed.

Lemma thinning_is_stable_once_converged_witness :
  ∃ st, zhang_suen_run bar_mask 10 = Some st
        ∧ thin_stable (thin_img st)
        ∧ _zhang_suen_thin (astype_bool (thin_img st)) 3
          = Some (astype_bool (thin_img st)).
Proof.
  destruct (zhang_suen_run bar_mask 10) as [st|] eqn:Hrun;
    [|by vm_compute in Hrun].
  exists st. split; [done|].
  apply (thinning_is_stable_once_converged 8 8 bar_mask 10 3 st);
    [apply rect_bar_mask|lia|lia|done|].
  vm_compute in Hrun. by injection Hrun as <-.
Defined.

(** ** Neighbour counts *)

Lemma lookup_roll {A} (k : Z) (l : list A) i :
  i < length l →
  roll k l !! i = l !! Z.to_nat ((Z.of_nat i - k) mod Z.of_nat (length l)).
Proof.
  intros Hi. unfold roll. case_decide; [lia|].
  set (n := length l) in *.
  pose proof (Z.mod_pos_bound k (Z.of_nat n) ltac:(lia)) as Hk.
  set (k' := (k mod Z.of_nat n)%Z) in *.
  assert ((Z.of_nat i - k) mod Z.of_nat n
          = (Z.of_nat i - k') mod Z.of_nat n)%Z as ->.
  { unfold k'. by rewrite Zminus_mod_idemp_r. }
  destruct (decide (i < Z.to_nat k')) as [Hlt|Hge].
  - rewrite lookup_app_l by (rewrite length_drop; lia).
    rewrite lookup_drop. f_equal.
    rewrite <- (Z_mod_plus_full _ 1), Z.mod_small by lia. lia.
  - rewrite lookup_app_r by (rewrite length_drop; lia).
    rewrite length_drop, lookup_take_lt by lia.
    f_equal. rewrite Z.mod_small by lia. lia.
Qed.

Lemma at2_roll {A} (d : A) h w (a : grid A) (dr dc : Z) i j :
  rect h w a → i < h → j < w →
  at2 d (roll1 dc (roll0 dr a)) i j
  = at2 d a (Z.to_nat ((Z.of_nat i - dr) mod Z.of_nat h))
            (Z.to_nat ((Z.of_nat j - dc) mod Z.of_nat w)).
Proof.
  intros [Hlen Hrows] Hi Hj. unfold at2, roll1, roll0.
  rewrite list_lookup_fmap, lookup_roll by lia. rewrite Hlen.
  destruct (a !! _) as [row|] eqn:Hrow; simpl; [|done].
  pose proof (proj1 (Forall_lookup _ _) Hrows _ _ Hrow) as Hw. simpl in Hw.
  rewrite lookup_roll by lia. by rewrite Hw.
Qed.

Lemma at2_zip2d {A B C} (dA : A) (dB : B) (dC : C) (f : A → B → C) h w
    (a : grid A) (b : grid B) i j :
  rect h w a → rect h w b → i < h → j < w →
  at2 dC (zip2d f a b) i j = f (at2 dA a i j) (at2 dB b i j).
Proof.
  intros Ha Hb Hi Hj. unfold at2, zip2d. rewrite lookup_zip_with.
  destruct (lookup_lt_is_Some_2 a i) as [ra Hra]; [by rewrite (proj1 Ha)|].
  destruct (lookup_lt_is_Some_2 b i) as [rb Hrb]; [by rewrite (proj1 Hb)|].
  rewrite Hra, Hrb. simpl. rewrite lookup_zip_with.
  destruct (lookup_lt_is_Some_2 ra j) as [x Hx];
    [by rewrite (rect_lookup h w a i ra)|].
  destruct (lookup_lt_is_Some_2 rb j) as [y Hy];
    [by rewrite (rect_lookup h w b i rb)|].
  by rewrite Hx, Hy.
Qed.

Section degree_facts.
Variables (h w : nat) (skel : grid bool).
Hypothesis Hskel : rect h w skel.

Lemma rect_astype_u8 : rect h w (astype_u8 skel).
Proof. unfold astype_u8. by apply rect_map2d. Qed.

(** Off the border a shifted copy of the image reads the neighbour on the
    opposite side of the shift. *)
Lemma shifted_cell (dr dc : Z) i j :
  0 < i → i + 1 < h → 0 < j → j + 1 < w →
  (-1 ≤ dr ≤ 1)%Z → (-1 ≤ dc ≤ 1)%Z →
  at2 0%Z (roll1 dc (roll0 dr (astype_u8 skel))) i j
  = Z.b2z (at2 false skel (Z.to_nat (Z.of_nat i - dr))
                          (Z.to_nat (Z.of_nat j - dc))).
Proof.
  intros Hi0 Hi1 Hj0 Hj1 Hdr Hdc.
  rewrite (at2_roll 0%Z h w) by (apply rect_astype_u8 || lia).
  rewrite !Z.mod_small by lia. unfold astype_u8.
  by rewrite (at2_map2d false 0%Z Z.b2z).
Qed.

(** The shifted copies added up cell by cell; [u8] does not wrap while
    the sum stays below 256. *)
Lemma degree_fold i j (offs : list (Z * Z)) : ∀ deg,
  0 < i → i + 1 < h → 0 < j → j + 1 < w →
  Forall (λ o, (-1 ≤ o.1 ≤ 1)%Z ∧ (-1 ≤ o.2 ≤ 1)%Z) offs →
  rect h w deg →
  (0 ≤ at2 0%Z deg i j)%Z →
  (at2 0%Z deg i j + Z.of_nat (length offs) ≤ 255)%Z →
  let deg' :=
    foldl (λ deg '(dr, dc),
             if bool_decide (dr = 0 ∧ dc = 0)%Z then deg
             else add_u8 deg (roll1 dc (roll0 dr (astype_u8 skel))))
          deg offs in
  rect h w deg'
  ∧ at2 0%Z deg' i j
    = (at2 0%Z deg i j
       + Z.of_nat (sum_list
           ((λ '(dr, dc),
               if bool_decide (dr = 0 ∧ dc = 0)%Z then 0%nat
               else Nat.b2n (at2 false skel (Z.to_nat (Z.of_nat i - dr))
                                            (Z.to_nat (Z.of_nat j - dc))))
            <$> offs)))%Z.
Proof.
  induction offs as [|[dr dc] offs IH];
    intros deg Hi0 Hi1 Hj0 Hj1 Hoffs Hdeg H0 H255; cbn zeta.
  { simpl. split; [done|lia]. }
  apply Forall_cons in Hoffs as [[Hdr Hdc] Hoffs]. simpl in Hdr, Hdc.
  cbn [foldl]. rewrite fmap_cons. simpl in H255.
  set (deg1 := if bool_decide (dr = 0 ∧ dc = 0)%Z then deg
               else add_u8 deg (roll1 dc (roll0 dr (astype_u8 skel)))).
  set (v := if bool_decide (dr = 0 ∧ dc = 0)%Z then 0
            else Nat.b2n (at2 false skel (Z.to_nat (Z.of_nat i - dr))
                                         (Z.to_nat (Z.of_nat j - dc)))).
  assert (rect h w deg1 ∧ at2 0%Z deg1 i j = (at2 0%Z deg i j + Z.of_nat v)%Z
          ∧ v ≤ 1) as (Hr1 & Hv1 & Hle).
  { unfold deg1, v. case_bool_decide.
    { split; [done|]. split; lia. }
    assert (rect h w (roll1 dc (roll0 dr (astype_u8 skel)))) as Hroll.
    { apply rect_roll1, rect_roll0, rect_astype_u8. }
    split; [by apply rect_zip2d|]. unfold add_u8.
    rewrite (at2_zip2d 0%Z 0%Z 0%Z _ h w) by (done || lia).
    rewrite shifted_cell by done.
    destruct (at2 false skel _ _); simpl; (split; [|lia]);
      unfold u8; rewrite Z.mod_small; lia. }
  destruct (IH deg1) as [Hr2 Hv2]; [done..|lia|lia|].
  cbn zeta in Hr2, Hv2. split; [done|].
  rewrite Hv2, Hv1.
  match goal with
  | |- context [sum_list (v :: ?l)] =>
    change (sum_list (v :: l)) with (v + sum_list l)
  end.
  lia.
Qed.

Lemma foldl_pairs {A B C} (g : A → B → C → A) (l2 : list C) (l1 : list B) :
  ∀ a, foldl (λ a x, foldl (λ a y, g a x y) a l2) a l1
       = foldl (λ a '(x, y), g a x y) a (x ← l1; pair x <$> l2).
Proof.
  induction l1 as [|x l1 IH]; intros a; [done|].
  cbn [foldl]. rewrite IH. simpl. rewrite foldl_app. f_equal.
  generalize a. clear. induction l2 as [|y l2 IH]; intros a; [done|].
  simpl. by rewrite IH.
Qed.

Lemma nbrs_fold (r c : Z) (offs : list (Z * Z)) : ∀ out,
  Forall (λ o, (0 ≤ r + o.1 < Z.of_nat h)%Z ∧ (0 ≤ c + o.2 < Z.of_nat w)%Z)
         offs →
  length
    (foldl (λ out '(dr, dc),
              if bool_decide (dr = 0 ∧ dc = 0)%Z then out
              else
                let '(rr, cc) := ((r + dr)%Z, (c + dc)%Z) in
                if bool_decide (0 ≤ rr < Z.of_nat h)%Z
                   && bool_decide (0 ≤ cc < Z.of_nat w)%Z
                   && at2 false skel (Z.to_nat rr) (Z.to_nat cc)
                then out ++ [(rr, cc)] else out)
           out offs)
  = length out
    + sum_list ((λ '(dr, dc),
                   if bool_decide (dr = 0 ∧ dc = 0)%Z then 0
                   else Nat.b2n (at2 false skel (Z.to_nat (r + dr))
                                                (Z.to_nat (c + dc))))
                <$> offs).
Proof.
  induction offs as [|[dr dc] offs IH]; intros out Hoffs; [simpl; lia|].
  apply Forall_cons in Hoffs as [[Hr Hc] Hoffs]. simpl in Hr, Hc.
  cbn [foldl]. rewrite IH by done. rewrite fmap_cons.
  match goal with
  | |- context [sum_list (?v :: ?l)] =>
    change (sum_list (v :: l)) with (v + sum_list l)
  end.
  case_bool_decide; [lia|].
  rewrite !bool_decide_eq_true_2 by done. simpl.
  destruct (at2 false skel _ _); simpl; rewrite ?length_app; simpl; lia.
Qed.

Lemma degrees_interior i j :
  0 < i → i + 1 < h → 0 < j → j + 1 < w →
  at2 0%Z (_skeleton_degrees skel) i j
  = if at2 false skel i j
    then Z.of_nat (length (nbrs skel (Z.of_nat i) (Z.of_nat j))) else 0%Z.
Proof.
  intros Hi0 Hi1 Hj0 Hj1. unfold _skeleton_degrees, nbrs.
  rewrite (rect_shape h w) by (done || lia).
  rewrite !foldl_pairs.
  assert (rect h w (map2d (λ _ : Z, 0%Z) (astype_u8 skel))) as Hzero.
  { apply rect_map2d, rect_astype_u8. }
  assert (at2 0%Z (map2d (λ _ : Z, 0%Z) (astype_u8 skel)) i j = 0%Z) as Hz.
  { by rewrite (at2_map2d 0%Z 0%Z (λ _, 0%Z)). }
  set (offs := x ← [-1; 0; 1]%Z; pair x <$> [-1; 0; 1]%Z).
  assert (Forall (λ o, (-1 ≤ o.1 ≤ 1)%Z ∧ (-1 ≤ o.2 ≤ 1)%Z) offs) as Hoffs.
  { unfold offs. simpl. repeat constructor; simpl; lia. }
  pose proof (degree_fold i j offs (map2d (λ _ : Z, 0%Z) (astype_u8 skel))
                Hi0 Hi1 Hj0 Hj1 Hoffs Hzero) as Hfold.
  cbn zeta in Hfold. rewrite Hz in Hfold.
  destruct Hfold as [Hr Hv]; [lia|simpl; lia|].
  rewrite (at2_zip2d 0%Z false 0%Z _ h w) by (done || lia).
  destruct (at2 false skel i j); cbn [negb]; [|done].
  rewrite Hv, nbrs_fold.
  2:{ unfold offs. simpl. repeat constructor; simpl; lia. }
  assert (offs = [(-1, -1); (-1, 0); (-1, 1); (0, -1); (0, 0); (0, 1);
                  (1, -1); (1, 0); (1, 1)]%Z) as -> by reflexivity.
  rewrite !fmap_cons, !fmap_nil. cbn beta iota.
  repeat match goal with
  | |- context [bool_decide ?P] =>
    first [ rewrite (bool_decide_eq_false_2 P) by lia
          | rewrite (bool_decide_eq_true_2 P) by lia ]
  end.
  unfold Z.sub. cbn [length sum_list_with id].
  change (- (-1))%Z with 1%Z. change (- 0)%Z with 0%Z.
  change (- (1))%Z with (-1)%Z.
  lia.
Qed.

End degree_facts.

Lemma degrees_unset (skel : grid bool) r c :
  at2 false skel r c = false → at2 0%Z (_skeleton_degrees skel) r c = 0%Z.
Proof.
  intros Hs. unfold _skeleton_degrees.
  match goal with |- at2 _ (zip2d _ ?deg _) _ _ = _ => generalize deg end.
  intros deg. unfold at2, zip2d in *. rewrite lookup_zip_with.
  destruct (deg !! r) as [rd|]; simpl; [|done].
  destruct (skel !! r) as [rs|]; simpl in *; [|done].
  rewrite lookup_zip_with.
  destruct (rd !! c) as [d|]; simpl; [|done].
  destruct (rs !! c) as [s|]; simpl in *; [|done]. by subst s.
Qed.

(** On a skeleton whose set pixels lie off the image border (as the
    skeletonizer returns them) the degree map counts the set 8-neighbours:
    it holds the length of [nbrs] at every set pixel and zero elsewhere.
    ([np.roll] wraps around the border, [nbrs] does not.) *)
Theorem degrees_count_neighbours h w (skel : grid bool) :
  rect h w skel →
  (∀ i j, at2 false skel i j = true → 0 < i ∧ i + 1 < h ∧ 0 < j ∧ j + 1 < w) →
  ∀ r c,
    at2 0%Z (_skeleton_degrees skel) r c
    = if at2 false skel r c
      then Z.of_nat (length (nbrs skel (Z.of_nat r) (Z.of_nat c))) else 0%Z.
Proof.
  intros Hskel Hint r c.
  destruct (at2 false skel r c) eqn:Hs; [|by apply degrees_unset].
  destruct (Hint r c Hs) as (? & ? & ? & ?).
  rewrite (degrees_interior h w skel) by done. by rewrite Hs.
Qed.

Lemma line3_interior i j :
  at2 false line3 i j = true → 0 < i ∧ i + 1 < 8 ∧ 0 < j ∧ j + 1 < 8.
Proof.
  intros Hat.
  destruct (at2_true_in_rect 8 8 line3 i j rect_line3 Hat) as [Hi Hj].
  unfold line3 in Hat. rewrite at2_tabulate in Hat by done.
  apply bool_decide_eq_true in Hat. lia.
Qed.

Lemma degrees_count_neighbours_witness :
  at2 0%Z (_skeleton_degrees line3) 3 4
  = if at2 false line3 3 4
    then Z.of_nat (length (nbrs line3 (Z.of_nat 3) (Z.of_nat 4))) else 0%Z.
Proof.
  apply (degrees_count_neighbours 8 8); [apply rect_line3|apply line3_interior].
Defined.

(** ** Thinning keeps line ends *)

Section roll_cells.
Context {A : Type} (d : A) (h w : nat) (a : grid A).
Hypothesis Ha : rect h w a.

Lemma at2_roll0 (dr : Z) i j :
  i < h → j < w →
  at2 d (roll0 dr a) i j
  = at2 d a (Z.to_nat ((Z.of_nat i - dr) mod Z.of_nat h)) j.
Proof.
  intros Hi Hj. unfold at2, roll0. destruct Ha as [Hlen _].
  rewrite lookup_roll by lia. by rewrite Hlen.
Qed.

Lemma at2_roll1 (dc : Z) i j :
  i < h → j < w →
  at2 d (roll1 dc a) i j
  = at2 d a i (Z.to_nat ((Z.of_nat j - dc) mod Z.of_nat w)).
Proof.
  intros Hi Hj. unfold at2, roll1. rewrite list_lookup_fmap.
  destruct (a !! i) as [row|] eqn:Hrow; simpl; [|done].
  pose proof (rect_lookup h w a i row Ha Hrow) as Hw.
  rewrite lookup_roll by lia. by rewrite Hw.
Qed.

Lemma at2_roll0_down i j :
  0 < i → i < h → j < w → at2 d (roll0 1 a) i j = at2 d a (i - 1) j.
Proof.
  intros. rewrite at2_roll0 by lia. rewrite Z.mod_small by lia.
  f_equal. lia.
Qed.

Lemma at2_roll0_up i j :
  i + 1 < h → j < w → at2 d (roll0 (-1) a) i j = at2 d a (i + 1) j.
Proof.
  intros. rewrite at2_roll0 by lia. rewrite Z.mod_small by lia.
  f_equal. lia.
Qed.

Lemma at2_roll1_right i j :
  i < h → 0 < j → j < w → at2 d (roll1 1 a) i j = at2 d a i (j - 1).
Proof.
  intros. rewrite at2_roll1 by lia. rewrite Z.mod_small by lia.
  f_equal. lia.
Qed.

Lemma at2_roll1_left i j :
  i < h → j + 1 < w → at2 d (roll1 (-1) a) i j = at2 d a i (j + 1).
Proof.
  intros. rewrite at2_roll1 by lia. rewrite Z.mod_small by lia.
  f_equal. lia.
Qed.

End roll_cells.

Section removable_facts.
Variables (h w : nat) (img : grid Z).
Hypothesis Himg : rect h w img.
Hypothesis Hbin : binary img.

(** The neighbour count [B] of the removal masks, off the border. *)
Lemma neighbour_count i j (P2 P3 P4 P5 P6 P7 P8 P9 : grid Z) :
  0 < i → i + 1 < h → 0 < j → j + 1 < w →
  neighbors8 img = [P2; P3; P4; P5; P6; P7; P8; P9] →
  at2 0%Z (add_u8 (add_u8 (add_u8 (add_u8 (add_u8 (add_u8 (add_u8
             P2 P3) P4) P5) P6) P7) P8) P9) i j
  = neighbour_sum img i j.
Proof.
  intros Hi0 Hi1 Hj0 Hj1 [= <- <- <- <- <- <- <- <-].
  unfold add_u8.
  rewrite !(at2_zip2d 0%Z 0%Z 0%Z _ h w) by (solve_rect || lia).
  repeat first
    [ rewrite (at2_roll0_down 0%Z h w) by (solve_rect || lia)
    | rewrite (at2_roll0_up 0%Z h w) by (solve_rect || lia)
    | rewrite (at2_roll1_right 0%Z h w) by (solve_rect || lia)
    | rewrite (at2_roll1_left 0%Z h w) by (solve_rect || lia) ].
  unfold neighbour_sum, u8.
  destruct (Hbin (i - 1) (j - 1)) as [-> | ->],
           (Hbin (i - 1) j) as [-> | ->],
           (Hbin (i - 1) (j + 1)) as [-> | ->],
           (Hbin i (j - 1)) as [-> | ->],
           (Hbin i (j + 1)) as [-> | ->],
           (Hbin (i + 1) (j - 1)) as [-> | ->],
           (Hbin (i + 1) j) as [-> | ->],
           (Hbin (i + 1) (j + 1)) as [-> | ->]; reflexivity.
Qed.

(** A pixel marked for removal has two set neighbours or more. *)
Lemma removable_needs_two second i j :
  0 < i → i + 1 < h → 0 < j → j + 1 < w →
  at2 false (removable second img) i j = true →
  (2 ≤ neighbour_sum img i j)%Z.
Proof.
  intros Hi0 Hi1 Hj0 Hj1. unfold removable.
  destruct (neighbors8 img) as [|P2 [|P3 [|P4 [|P5 [|P6 [|P7 [|P8 [|P9 [|]]]]]]]]]
    eqn:Hn; try done.
  rewrite <- (neighbour_count i j P2 P3 P4 P5 P6 P7 P8 P9) by done.
  cbv zeta. set (B := add_u8 _ P9).
  destruct second; rewrite !at2_and_grid, !andb_true_iff;
    intros [[[[[_ HB] _] _] _] _]; unfold ge_c in HB;
    rewrite (at2_map2d 0%Z false (λ x, bool_decide (2 ≤ x)%Z)) in HB
      by (symmetry; apply bool_decide_eq_false_2; lia);
    by apply bool_decide_eq_true in HB.
Qed.

End removable_facts.

Lemma cleared_cell_le (a b : grid Z) x y :
  binary b → cleared a b → (0 ≤ at2 0%Z a x y ≤ at2 0%Z b x y)%Z.
Proof.
  intros Hb Hc. destruct (decide (at2 0%Z a x y = 0%Z)) as [Hz|Hnz].
  - rewrite Hz. destruct (Hb x y) as [-> | ->]; lia.
  - rewrite (cleared_at2 _ _ _ _ Hc Hnz). destruct (Hb x y) as [-> | ->]; lia.
Qed.

Lemma cleared_binary (a b : grid Z) : binary b → cleared a b → binary a.
Proof.
  intros Hb Hc x y. pose proof (cleared_cell_le a b x y Hb Hc).
  destruct (Hb x y); lia.
Qed.

Lemma cleared_neighbour_sum (a b : grid Z) i j :
  binary b → cleared a b → (neighbour_sum a i j ≤ neighbour_sum b i j)%Z.
Proof.
  intros Hb Hc. unfold neighbour_sum.
  pose proof (cleared_cell_le a b (i - 1) (j - 1) Hb Hc).
  pose proof (cleared_cell_le a b (i - 1) j Hb Hc).
  pose proof (cleared_cell_le a b (i - 1) (j + 1) Hb Hc).
  pose proof (cleared_cell_le a b i (j - 1) Hb Hc).
  pose proof (cleared_cell_le a b i (j + 1) Hb Hc).
  pose proof (cleared_cell_le a b (i + 1) (j - 1) Hb Hc).
  pose proof (cleared_cell_le a b (i + 1) j Hb Hc).
  pose proof (cleared_cell_le a b (i + 1) (j + 1) Hb Hc).
  lia.
Qed.

Section thin_ends.
Variables (h w i j : nat).
Hypothesis Hi0 : 0 < i.
Hypothesis Hi1 : i + 1 < h.
Hypothesis Hj0 : 0 < j.
Hypothesis Hj1 : j + 1 < w.

(** The pixel is set and has at most one set neighbour. *)
Let kept := λ img : grid Z,
  rect h w img ∧ binary img
  ∧ at2 0%Z img i j = 1%Z ∧ (neighbour_sum img i j ≤ 1)%Z.

Lemma kept_cleared img img' :
  kept img → cleared img' img → at2 0%Z img' i j = at2 0%Z img i j →
  kept img'.
Proof.
  intros (Hr & Hb & Hset & Hn) Hc Hsame.
  split; [by eapply cleared_rect|]. split; [by eapply cleared_binary|].
  split; [congruence|].
  pose proof (cleared_neighbour_sum img' img i j Hb Hc). lia.
Qed.

Lemma kept_clear_where second img :
  kept img → kept (clear_where img (removable second img)).
Proof.
  intros Hk. pose proof Hk as (Hr & Hb & Hset & Hn).
  apply (kept_cleared img); [done| |].
  - apply (cleared_clear_where h w); [done|by apply rect_removable].
  - unfold clear_where.
    rewrite (at2_zip2d 0%Z false 0%Z _ h w)
      by (done || lia || by apply rect_removable).
    destruct (at2 false (removable second img) i j) eqn:Hm; [|done].
    apply (removable_needs_two h w img Hr Hb) in Hm; [lia|lia..].
Qed.

Lemma kept_clear_borders img img' :
  kept img → clear_borders img = Some img' → kept img'.
Proof.
  intros Hk Hcb. pose proof Hk as (Hr & _).
  apply (kept_cleared img); [done|by apply cleared_clear_borders|].
  eapply (clear_borders_keeps_interior h w); (done || lia).
Qed.

Lemma thin_body_kept st st' :
  kept (thin_img st) → thin_body st = Some st' → kept (thin_img st').
Proof.
  intros Hk Hbody. unfold thin_body in Hbody.
  set (img1 := if np_any (removable false (thin_img st))
               then (clear_where (thin_img st) (removable false (thin_img st)),
                     true)
               else (thin_img st, false)) in Hbody.
  assert (kept img1.1) as Hk1.
  { unfold img1. destruct (np_any _); [by apply kept_clear_where|done]. }
  destruct img1 as [i1 ch1]. simpl in Hk1.
  destruct (clear_borders i1) as [i2|] eqn:Hcb1; [|done]. simpl in Hbody.
  pose proof (kept_clear_borders i1 i2 Hk1 Hcb1) as Hk2.
  set (img3 := if np_any (removable true i2)
               then (clear_where i2 (removable true i2), true)
               else (i2, ch1)) in Hbody.
  assert (kept img3.1) as Hk3.
  { unfold img3. destruct (np_any _); [by apply kept_clear_where|done]. }
  destruct img3 as [i3 ch3]. simpl in Hk3.
  destruct (clear_borders i3) as [i4|] eqn:Hcb3; [|done]. simpl in Hbody.
  injection Hbody as <-. simpl. by apply (kept_clear_borders i3).
Qed.

Lemma thin_while_kept max_iter fuel : ∀ st st',
  kept (thin_img st) → thin_while fuel max_iter st = Some st' →
  kept (thin_img st').
Proof.
  induction fuel as [|fuel IH]; intros st st' Hk Hrun; simpl in Hrun.
  - destruct (_ && _); [done|]. by injection Hrun as <-.
  - destruct (_ && _); [|by injection Hrun as <-].
    destruct (thin_body st) as [st1|] eqn:Hbody; [|done]. simpl in Hrun.
    apply (IH st1); [|done]. by apply (thin_body_kept st).
Qed.

Lemma neighbour_sum_nbrs (mask : grid bool) :
  rect h w mask →
  neighbour_sum (astype_u8 mask) i j
  = Z.of_nat (length (nbrs mask (Z.of_nat i) (Z.of_nat j))).
Proof.
  intros Hm. unfold nbrs. rewrite (rect_shape h w) by (done || lia).
  rewrite foldl_pairs, (nbrs_fold h w).
  2:{ simpl. repeat constructor; simpl; lia. }
  assert ((x ← [-1; 0; 1]%Z; pair x <$> [-1; 0; 1]%Z)
          = [(-1, -1); (-1, 0); (-1, 1); (0, -1); (0, 0); (0, 1);
             (1, -1); (1, 0); (1, 1)]%Z) as -> by reflexivity.
  rewrite !fmap_cons, !fmap_nil. cbn beta iota.
  repeat match goal with
  | |- context [bool_decide ?P] =>
    first [ rewrite (bool_decide_eq_false_2 P) by lia
          | rewrite (bool_decide_eq_true_2 P) by lia ]
  end.
  cbn [length sum_list_with id].
  replace (Z.to_nat (Z.of_nat i + -1)) with (i - 1) by lia.
  replace (Z.to_nat (Z.of_nat i + 0)) with i by lia.
  replace (Z.to_nat (Z.of_nat i + 1)) with (i + 1) by lia.
  replace (Z.to_nat (Z.of_nat j + -1)) with (j - 1) by lia.
  replace (Z.to_nat (Z.of_nat j + 0)) with j by lia.
  replace (Z.to_nat (Z.of_nat j + 1)) with (j + 1) by lia.
  unfold neighbour_sum, astype_u8.
  rewrite !(at2_map2d false 0%Z Z.b2z) by done.
  assert (∀ b : bool, Z.b2z b = Z.of_nat (Nat.b2n b)) as Hb by (by intros []).
  rewrite !Hb. lia.
Qed.

Lemma thin_keeps_end (mask : grid bool) max_iter :
  rect h w mask → at2 false mask i j = true →
  length (nbrs mask (Z.of_nat i) (Z.of_nat j)) ≤ 1 →
  ∃ skel, _zhang_suen_thin mask max_iter = Some skel
          ∧ at2 false skel i j = true.
Proof.
  intros Hm Hset Hn.
  destruct (zhang_suen_run_spec h w ltac:(lia) ltac:(lia) mask max_iter Hm)
    as (img0 & st & Hcb & Hrun & _).
  unfold _zhang_suen_thin. rewrite Hrun. simpl. eexists. split; [done|].
  assert (kept (astype_u8 mask)) as Hk.
  { split; [unfold astype_u8; by apply rect_map2d|]. split; [|split].
    - intros x y. unfold astype_u8.
      rewrite (at2_map2d false 0%Z Z.b2z) by done.
      destruct (at2 false mask x y); auto.
    - unfold astype_u8. rewrite (at2_map2d false 0%Z Z.b2z) by done.
      by rewrite Hset.
    - rewrite neighbour_sum_nbrs by done. lia. }
  unfold zhang_suen_run in Hrun. rewrite Hcb in Hrun. simpl in Hrun.
  apply (kept_clear_borders _ img0) in Hk; [|done].
  pose proof (thin_while_kept _ _ (ThinState img0 true 0) st Hk Hrun)
    as (_ & _ & Hone & _).
  apply at2_astype_bool. rewrite Hone. done.
Qed.

End thin_ends.

(** Thinning keeps line ends: a foreground pixel off the border that has
    at most one set 8-neighbour in the mask is set in the skeleton,
    whatever the iteration cap.  (A removal mask needs two set neighbours
    or more, and passes only clear pixels.) *)
Theorem thinning_keeps_line_ends h w (mask : grid bool) (max_iter : Z) i j :
  rect h w mask →
  0 < i → i + 1 < h → 0 < j → j + 1 < w →
  at2 false mask i j = true →
  length (nbrs mask (Z.of_nat i) (Z.of_nat j)) ≤ 1 →
  ∃ skel, _zhang_suen_thin mask max_iter = Some skel
          ∧ at2 false skel i j = true.
Proof. intros Hm Hi0 Hi1 Hj0 Hj1. by apply (thin_keeps_end h w). Qed.

Lemma thinning_keeps_line_ends_witness :
  ∃ skel, _zhang_suen_thin line3 300 = Some skel
          ∧ at2 false skel 3 3 = true.
Proof.
  apply (thinning_keeps_line_ends 8 8 line3 300 3 3);
    [apply rect_line3|lia..|reflexivity|vm_compute; lia].
Defined.

(** ** The single-walk policy covers the skeleton *)

Lemma steps_through_snoc path a b p :
  steps_through path a b → steps_through (path ++ [p]) a b.
Proof.
  intros (l1 & l2 & ->). exists l1, (l2 ++ [p]).
  by rewrite <- (assoc_L (++)).
Qed.

Lemma steps_through_last path a b :
  last path = Some a → steps_through (path ++ [b]) a b.
Proof.
  intros Hlast. destruct path as [|x path _] using rev_ind; [done|].
  rewrite last_snoc in Hlast. injection Hlast as ->.
  exists path, []. by rewrite <- (assoc_L (++)).
Qed.

Lemma steps_through_snoc_inv path a b p :
  steps_through (path ++ [p]) a b →
  (last path = Some a ∧ b = p) ∨ steps_through path a b.
Proof.
  intros (l1 & l2 & Heq).
  destruct l2 as [|y l2 _] using rev_ind.
  - left. change (l1 ++ [a; b]) with (l1 ++ [a] ++ [b]) in Heq.
    rewrite (assoc_L (++)) in Heq. apply app_inj_tail in Heq as [-> ->].
    by rewrite last_snoc.
  - right. change (l1 ++ a :: b :: l2 ++ [y])
      with (l1 ++ (a :: b :: l2) ++ [y]) in Heq.
    rewrite (assoc_L (++)) in Heq. apply app_inj_tail in Heq as [-> _].
    by exists l1, l2.
Qed.

Lemma draws_snoc path a b p : draws path a b → draws (path ++ [p]) a b.
Proof. intros [?|?]; [left|right]; by apply steps_through_snoc. Qed.

(** Dropping immediate repetitions keeps every step between two different
    pixels. *)
Lemma dedup_fold_steps (rest : list pixel) : ∀ pre dedup,
  last dedup = last pre →
  (∀ a b, a ≠ b → steps_through pre a b → steps_through dedup a b) →
  let dedup' := foldl (λ dedup p, if bool_decide (Some p ≠ last dedup)
                                  then dedup ++ [p] else dedup) dedup rest in
  ∀ a b, a ≠ b → steps_through (pre ++ rest) a b → steps_through dedup' a b.
Proof.
  induction rest as [|p rest IH]; intros pre dedup Hlast Hsteps; cbn zeta.
  { simpl. by rewrite app_nil_r. }
  cbn [foldl]. replace (pre ++ p :: rest) with ((pre ++ [p]) ++ rest)
    by by rewrite <- (assoc_L (++)).
  apply IH.
  - rewrite last_snoc. case_bool_decide as Hp; [by rewrite last_snoc|].
    destruct (decide (Some p = last dedup)); [done|]. by destruct Hp.
  - intros a b Hab [[Ha ->]|Hin]%steps_through_snoc_inv.
    + rewrite <- Hlast in Ha. rewrite bool_decide_eq_true_2.
      * by apply steps_through_last.
      * rewrite Ha. intros [= ->]. done.
    + specialize (Hsteps a b Hab Hin).
      case_bool_decide; [by apply steps_through_snoc|done].
Qed.

Lemma dedup_adjacent_steps path a b :
  a ≠ b → steps_through path a b → steps_through (dedup_adjacent path) a b.
Proof.
  intros Hab Hin. destruct path as [|p0 rest].
  { destruct Hin as (l1 & l2 & Heq). by destruct l1. }
  unfold dedup_adjacent.
  apply (dedup_fold_steps rest [p0] [p0]); [done..|].
  done.
Qed.

Lemma dedup_adjacent_subset (P : pixel → Prop) path :
  Forall P path → Forall P (dedup_adjacent path).
Proof.
  intros Hall. destruct path as [|p0 rest]; [done|].
  apply Forall_cons in Hall as [H0 Hrest]. unfold dedup_adjacent.
  apply foldl_invariant; [by constructor|].
  intros dedup p Hp Hd. case_bool_decide; [|done].
  apply Forall_app. split; [done|]. constructor; [|done].
  by apply (proj1 (Forall_forall _ _) Hrest).
Qed.

Lemma edge_key_inj (a b c d : pixel) :
  edge_key a b = edge_key c d → (a = c ∧ b = d) ∨ (a = d ∧ b = c).
Proof.
  destruct a as [a1 a2], b as [b1 b2], c as [c1 c2], d as [d1 d2].
  unfold edge_key. simpl.
  destruct (pixel_leb _ _), (pixel_leb _ _); intros [= -> -> -> ->]; auto.
Qed.

Section single_walk_cover.
Variable nbr : pixel → list pixel.
Variable nodes : list pixel.
Let adj : list (pixel * list pixel) := (λ p, (p, nbr p)) <$> nodes.
Hypothesis Hirr : ∀ a b, a ∈ nodes → b ∈ nbr a → b ≠ a.
Hypothesis Hclosed : ∀ a b, a ∈ nodes → b ∈ nbr a → b ∈ nodes.
Implicit Types (edges : gset edge) (a b : pixel).

(** What one round of [while edges] does, read off its result. *)
Lemma sw_step_inv st :
  sw_cur st ∈ nodes →
  match sw_step adj st with
  | inl st' =>
      (∃ nxt, nxt ∈ nbr (sw_cur st)
              ∧ st' = SwState (sw_path st ++ [nxt]) nxt
                              (sw_edges st ∖ {[edge_key (sw_cur st) nxt]}))
      ∨ (∃ nxt, nxt ∈ nodes
                ∧ st' = SwState (sw_path st ++ [nxt]) nxt (sw_edges st))
  | inr path =>
      path = sw_path st
      ∧ (sw_edges st = ∅ ∨ remaining_nodes adj (sw_edges st) = [])
  end.
Proof.
  intros Hcur. destruct st as [path cur edges]. simpl in *.
  assert (match sw_jump adj (SwState path cur edges) with
          | inl st' => ∃ nxt, nxt ∈ nodes
                              ∧ st' = SwState (path ++ [nxt]) nxt edges
          | inr p => p = path ∧ remaining_nodes adj edges = []
          end) as Hjump.
  { unfold sw_jump. simpl.
    destruct (remaining_nodes adj edges) as [|c0 cs] eqn:Hrem; [done|].
    eexists. split; [|done].
    pose proof (nearest_node_elem cur c0 cs) as Hin. rewrite <- Hrem in Hin.
    by apply elem_of_remaining_nodes in Hin as [? _]. }
  case_bool_decide as Hempty; [by split; [|left]|].
  destruct (has_remaining_edge adj edges cur); simpl.
  - destruct (List.find (has_edge edges cur) (adj_get adj cur)) as [nxt|] eqn:Hf.
    + left. exists nxt. split; [|done].
      apply find_some in Hf as [Hin _]. apply list_elem_of_In in Hin.
      by rewrite (adj_get_node nbr nodes) in Hin.
    + destruct (sw_jump _ _); [by right|]. destruct Hjump. by split; [|right].
  - destruct (sw_jump _ _); [by right|]. destruct Hjump. by split; [|right].
Qed.

(** The walk so far: it ends at the current node, stays on the nodes, and
    has run along every adjacency whose edge is used up. *)
Let covering := λ st : sw_state,
  sw_cur st ∈ nodes
  ∧ last (sw_path st) = Some (sw_cur st)
  ∧ Forall (λ p, p ∈ nodes) (sw_path st)
  ∧ ∀ a b, a ∈ nodes → b ∈ nbr a →
           edge_key a b ∉ sw_edges st → draws (sw_path st) a b.

Lemma covering_continue st st' :
  covering st → sw_step adj st = inl st' → covering st'.
Proof.
  intros (Hcur & Hlast & Hall & Hcov) Hstep.
  pose proof (sw_step_inv st Hcur) as Hinv. rewrite Hstep in Hinv.
  destruct Hinv as [(nxt & Hn & ->)|(nxt & Hn & ->)]; unfold covering; simpl.
  - split; [by eapply Hclosed|]. split; [by rewrite last_snoc|]. split.
    { apply Forall_app. split; [done|]. constructor; [|done]. by eapply Hclosed. }
    intros a b Ha Hb Hkey.
    destruct (decide (edge_key a b = edge_key (sw_cur st) nxt)) as [Heq|Hne].
    + apply edge_key_inj in Heq as [[-> ->]|[-> ->]]; [left|right];
        by apply steps_through_last.
    + apply draws_snoc, Hcov; [done..|]. set_solver.
  - split; [done|]. split; [by rewrite last_snoc|]. split.
    { apply Forall_app. split; [done|]. by constructor. }
    intros a b Ha Hb Hkey. by apply draws_snoc, Hcov.
Qed.

Lemma sw_loop_covers fuel : ∀ st path,
  covering st → sw_loop fuel adj st = Some path →
  Forall (λ p, p ∈ nodes) path
  ∧ ∀ a b, a ∈ nodes → b ∈ nbr a → draws path a b.
Proof.
  induction fuel as [|fuel IH]; intros st path Hc Hrun; [done|].
  simpl in Hrun. destruct (sw_step adj st) as [st'|p] eqn:Hstep.
  { apply (IH st'); [by apply (covering_continue st)|done]. }
  injection Hrun as ->.
  destruct Hc as (Hcur & Hlast & Hall & Hcov).
  pose proof (sw_step_inv st Hcur) as Hinv. rewrite Hstep in Hinv.
  destruct Hinv as [-> Hexit]. split; [done|].
  intros a b Ha Hb. apply Hcov; [done..|].
  destruct Hexit as [->|Hrem]; [set_solver|].
  intros Hkey.
  assert (a ∈ remaining_nodes adj (sw_edges st)) as Hin.
  { apply elem_of_remaining_nodes. split; [done|].
    apply existsb_exists. exists b. split; [by apply list_elem_of_In|].
    by apply bool_decide_eq_true. }
  fold adj in Hrem. rewrite Hrem in Hin. by apply elem_of_nil in Hin.
Qed.

Lemma walk_edges_covers dedup :
  walk_edges adj (build_edges adj) = Some (Some dedup) →
  Forall (λ p, p ∈ nodes) dedup
  ∧ ∀ a b, a ∈ nodes → b ∈ nbr a → draws dedup a b.
Proof.
  unfold walk_edges.
  destruct (pick_start adj (build_edges adj)) as [cur|] eqn:Hstart; [|done].
  apply pick_start_elem in Hstart.
  apply elem_of_remaining_nodes in Hstart as [Hcur _].
  destruct (sw_loop _ _ _) as [path|] eqn:Hrun; [|done].
  simpl. intros [= <-].
  edestruct sw_loop_covers as [Hall Hcov]; [|exact Hrun|].
  { split; [done|]. split; [done|]. split; [by constructor|].
    intros a b Ha Hb Hkey. exfalso. apply Hkey.
    pose proof (build_edges_complete nbr nodes a b Ha Hb) as He.
    by apply bool_decide_eq_true in He. }
  split; [by apply dedup_adjacent_subset|].
  intros a b Ha Hb. pose proof (Hirr a b Ha Hb) as Hne.
  destruct (Hcov a b Ha Hb) as [?|?]; [left|right];
    by apply dedup_adjacent_steps.
Qed.

End single_walk_cover.

(** In walk mode the single path stays on the skeleton and runs along
    every adjacency of it: whenever two set pixels touch, one follows the
    other somewhere in the path.  (Between such runs the path jumps to the
    nearest node that still has an unused edge.) *)
Theorem single_walk_draws_every_adjacency (skel : grid bool) :
  ∃ r, single_walk_path skel = Some r
       ∧ match r with
         | None => all_isolated skel
         | Some path =>
             Forall (on_skeleton skel) path
             ∧ ∀ a b, on_skeleton skel a → b ∈ nbrs skel a.1 a.2 →
                      draws path a b
         end.
Proof.
  destruct (single_walk_path_spec skel) as (r & Hr & Hspec).
  exists r. split; [done|]. destruct r as [path|]; [|done].
  unfold single_walk_path in Hr. case_bool_decide; [done|].
  edestruct (walk_edges_covers (λ p : pixel, nbrs skel p.1 p.2)
               (np_where skel)) as [Hall Hcov]; [| |exact Hr|].
  - intros a b _ Hb. apply nbrs_spec in Hb as [Hne _]. by destruct a.
  - intros a b _ Hb. apply elem_of_np_where.
    by apply nbrs_adjacent_px in Hb as [_ ?].
  - split.
    + eapply Forall_impl; [done|]. intros p Hp. by apply elem_of_np_where.
    + intros a b Ha Hb. apply Hcov; [by apply elem_of_np_where|done].
Qed.

(** ** The greedy choice of the reorderings *)

Section pick_best_facts.
Context {num : Type} `{ArithOrder num}.
Implicit Types (b : @best num) (cf cr : num).

Let step := λ (b : @best num) '((i, (cost_f, cost_r)) : nat * (num * num)),
  let b := if (cost_f <? best_cost b)%F
           then Best (Z.of_nat i) false cost_f else b in
  if (cost_r <? best_cost b)%F then Best (Z.of_nat i) true cost_r else b.

Lemma pick_step_spec b i cf cr :
  let b' := step b (i, (cf, cr)) in
  f_leb (best_cost b') (best_cost b) = true
  ∧ f_leb (best_cost b') cf = true ∧ f_leb (best_cost b') cr = true
  ∧ (b' = b
     ∨ (best_i b' = Z.of_nat i
        ∧ best_cost b' = if best_rev b' then cr else cf)).
Proof.
  cbn zeta. unfold step.
  destruct (cf <? best_cost b)%F eqn:Hf; simpl.
  - destruct (cr <? cf)%F eqn:Hr; simpl.
    + split; [|split; [|split]].
      * eapply f_leb_trans; by apply f_lt_le.
      * by apply f_lt_le.
      * apply f_leb_refl.
      * by right.
    + split; [|split; [|split]].
      * by apply f_lt_le.
      * apply f_leb_refl.
      * by apply f_not_gt_le.
      * by right.
  - destruct (cr <? best_cost b)%F eqn:Hr; simpl.
    + split; [|split; [|split]].
      * by apply f_lt_le.
      * eapply f_leb_trans; [by apply f_lt_le|by apply f_not_gt_le].
      * apply f_leb_refl.
      * by right.
    + split; [|split; [|split]].
      * apply f_leb_refl.
      * by apply f_not_gt_le.
      * by apply f_not_gt_le.
      * by left.
Qed.

Lemma pick_fold_spec (l : list (nat * (num * num))) : ∀ b0,
  let b := foldl step b0 l in
  f_leb (best_cost b) (best_cost b0) = true
  ∧ (∀ i cf cr, (i, (cf, cr)) ∈ l →
       f_leb (best_cost b) cf = true ∧ f_leb (best_cost b) cr = true)
  ∧ (b = b0
     ∨ ∃ i cf cr, (i, (cf, cr)) ∈ l ∧ best_i b = Z.of_nat i
                  ∧ best_cost b = if best_rev b then cr else cf).
Proof.
  induction l as [|[i [cf cr]] l IH]; intros b0; cbn zeta.
  { simpl. split; [apply f_leb_refl|]. split; [|by left].
    by intros i cf cr ?%elem_of_nil. }
  cbn [foldl].
  destruct (pick_step_spec b0 i cf cr) as (Hb0 & Hcf & Hcr & Hsel).
  destruct (IH (step b0 (i, (cf, cr)))) as (Hb1 & Hall & Hsel').
  cbn zeta in *. split; [by eapply f_leb_trans|]. split.
  - intros k kf kr [[= -> -> ->]|Hin]%elem_of_cons.
    + split; by eapply f_leb_trans.
    + by apply (Hall k).
  - destruct Hsel' as [->|(k & kf & kr & Hin & Hk)].
    + destruct Hsel as [->|Hsel]; [by left|].
      right. exists i, cf, cr. split; [by left|done].
    + right. exists k, kf, kr. split; [by right|done].
Qed.

Lemma pick_best_spec (costs : list (num * num)) :
  let b := pick_best costs in
  (∀ k cf cr, costs !! k = Some (cf, cr) →
     f_leb (best_cost b) cf = true ∧ f_leb (best_cost b) cr = true)
  ∧ f_leb (best_cost b) (f_of_Q 1e18) = true
  ∧ ((best_i b = (-1)%Z ∧ best_cost b = f_of_Q 1e18)
     ∨ ∃ k cf cr, costs !! k = Some (cf, cr) ∧ best_i b = Z.of_nat k
                  ∧ best_cost b = if best_rev b then cr else cf).
Proof.
  cbn zeta. unfold pick_best.
  destruct (pick_fold_spec (imap pair costs) (Best (-1) false (f_of_Q 1e18)))
    as (Hb0 & Hall & Hsel).
  cbn zeta in *. fold step. split; [|split; [done|]].
  - intros k cf cr Hk. apply (Hall k).
    apply elem_of_lookup_imap. by exists k, (cf, cr).
  - destruct Hsel as [->|(k & cf & cr & Hin & Hk)]; [by left|].
    right. exists k, cf, cr. split; [|done].
    apply elem_of_lookup_imap in Hin as (k' & c & [= -> ->] & Hc). done.
Qed.

End pick_best_facts.



(** ** What stitching joins *)

Section stitch_gaps.
Context {num : Type} `{Arith num}.
Variable stitch_mm : num.
Implicit Types (st prev : Stroke num) (out rest : list (Stroke num))
               (cur : list (point num)).

Lemma linked_tail {A} (R : A → A → Prop) (x : A) (l : list A) :
  linked R (x :: l) → linked R l.
Proof. intros Hl i a b Ha Hb. by apply (Hl (S i)). Qed.

Lemma linked_head {A} (R : A → A → Prop) (x y : A) (l : list A) :
  linked R (x :: y :: l) → R x y.
Proof. intros Hl. by apply (Hl 0). Qed.

Lemma stitch_fold_apart rest : ∀ out prev,
  linked (gap_beyond stitch_mm) (prev :: rest) →
  foldl (stitch_step stitch_mm) (Some (out, pts prev)) rest
    ≫= (λ '(out, cur), Some (out ++ [mkStroke cur]))
  = Some (out ++ prev :: rest).
Proof.
  induction rest as [|st rest IH]; intros out prev Hl.
  { simpl. by destruct prev. }
  cbn [foldl].
  destruct (linked_head _ _ _ _ Hl) as (a & b & Ha & Hb & Hgap).
  assert (stitch_step stitch_mm (Some (out, pts prev)) st
          = Some (out ++ [prev], pts st)) as ->.
  { unfold stitch_step. simpl. rewrite py_index_m1, py_index_0, Ha, Hb.
    simpl. rewrite Hgap. by destruct prev. }
  rewrite IH by by eapply linked_tail.
  by rewrite <- (assoc_L (++)).
Qed.

Lemma stitch_fold_close rest : ∀ cur prev,
  cur ≠ [] → last cur = last (pts prev) →
  Forall (λ st, 2 ≤ length (pts st)) rest →
  linked (gap_within stitch_mm) (prev :: rest) →
  ∃ cur', foldl (stitch_step stitch_mm) (Some ([], cur)) rest
          = Some ([], cur')
          ∧ head cur' = head cur
          ∧ last cur' = last (pts (default prev (last rest))).
Proof.
  induction rest as [|st rest IH]; intros cur prev Hne Hlast Htwo Hl.
  { by exists cur. }
  apply Forall_cons in Htwo as [Hst Htwo]. cbn [foldl].
  destruct (linked_head _ _ _ _ Hl) as (a & b & Ha & Hb & Hgap).
  destruct (pts st) as [|b' [|x tl]] eqn:Hpts; [simpl in Hst; lia..|].
  simpl in Hb. injection Hb as ->.
  assert (∃ cur1, stitch_step stitch_mm (Some ([], cur)) st = Some ([], cur1)
                  ∧ cur1 ≠ [] ∧ head cur1 = head cur
                  ∧ last cur1 = last (pts st)) as (cur1 & -> & Hne1 & Hh1 & Hl1).
  { unfold stitch_step. simpl.
    rewrite py_index_m1, py_index_0, Hlast, Ha, Hpts. simpl. rewrite Hgap.
    eexists. split; [done|].
    destruct (_ >? _)%F; (split; [by destruct cur|]);
      (split; [by destruct cur|]);
      rewrite ?(assoc_L (++)); by rewrite last_app_cons. }
  destruct (IH cur1 st Hne1 Hl1 Htwo) as (cur2 & Hfold & Hh2 & Hl2).
  { by eapply linked_tail. }
  exists cur2. split; [done|]. split; [congruence|].
  rewrite Hl2, last_cons. by destruct (last rest).
Qed.

Lemma stitch_by_gaps_spec (strokes : list (Stroke num)) :
  (stitch_mm <=? f_of_Z 0)%F = false →
  (linked (gap_beyond stitch_mm) strokes →
   stitch_strokes strokes stitch_mm = Some strokes)
  ∧ (strokes ≠ [] → Forall (λ st, 2 ≤ length (pts st)) strokes →
     linked (gap_within stitch_mm) strokes →
     ∃ joined, stitch_strokes strokes stitch_mm = Some [mkStroke joined]
               ∧ head joined = head strokes ≫= (λ st, head (pts st))
               ∧ last joined = last strokes ≫= (λ st, last (pts st))).
Proof.
  intros Hpos. unfold stitch_strokes. rewrite Hpos. simpl.
  destruct strokes as [|st0 rest]; [by split|].
  rewrite bool_decide_eq_false_2 by done. rewrite py_index_0. simpl.
  rewrite drop_0. split.
  - intros Hl. by apply (stitch_fold_apart rest [] st0).
  - intros _ Htwo Hl. apply Forall_cons in Htwo as [Hst0 Htwo].
    destruct (stitch_fold_close rest (pts st0) st0) as (cur & -> & Hh & Hlast);
      [intros He; rewrite He in Hst0; simpl in Hst0; lia|done..|].
    simpl. exists cur. split; [done|]. split; [done|].
    rewrite Hlast. rewrite last_cons. by destruct (last rest).
Qed.

End stitch_gaps.

(** With a positive threshold, stitching decides by the gaps between the
    end of a stroke and the start of the next: strokes whose gaps all
    exceed the threshold are returned as they are, and strokes (of two
    points or more) whose gaps are all within it become one stroke, from
    the first point of the first to the last point of the last. *)
Theorem stitch_by_gaps {num : Type} `{Arith num}
    (strokes : list (Stroke num)) (stitch_mm : num) :
  (stitch_mm <=? f_of_Z 0)%F = false →
  (linked (gap_beyond stitch_mm) strokes →
   stitch_strokes strokes stitch_mm = Some strokes)
  ∧ (strokes ≠ [] → Forall (λ st, 2 ≤ length (pts st)) strokes →
     linked (gap_within stitch_mm) strokes →
     ∃ joined, stitch_strokes strokes stitch_mm = Some [mkStroke joined]
               ∧ head joined = head strokes ≫= (λ st, head (pts st))
               ∧ last joined = last strokes ≫= (λ st, last (pts st))).
Proof. apply stitch_by_gaps_spec. Qed.

Lemma gap_strokes_within : linked (gap_within (1 # 2)%Q) gap_strokes.
Proof.
  intros [|[|i]] s t; simpl; try done. intros [= <-] [= <-].
  by exists (1, 0)%Q, (14 # 10, 0)%Q.
Qed.

Lemma stitch_by_gaps_witness :
  ∃ joined, stitch_strokes gap_strokes (1 # 2)%Q = Some [mkStroke joined]
            ∧ head joined = head gap_strokes ≫= (λ st, head (pts st))
            ∧ last joined = last gap_strokes ≫= (λ st, last (pts st)).
Proof.
  apply (stitch_by_gaps gap_strokes (1 # 2)%Q);
    [reflexivity|done|repeat constructor|apply gap_strokes_within].
Defined.
